(** * Heads-Up Hold'Em trainer: a shallow embedding of [src/app.js]

    The definitions follow the script: the card and deck model, the hand
    evaluator, the equity estimator, the betting state machine, the
    starting-hand heuristic, the opponent's choice of action, the hand
    analysis and the end of the match.  The vocabulary of the statements
    comes next, then the properties: the deck, the evaluator, the
    heuristic, chip conservation, the preflop fold scenario, the split
    pot, street transitions and turn order, the opponent's callback and
    the pool of the equity estimator.  The further properties close the
    file: dealing and shuffling, the evaluator on every hand, cards and
    chips throughout a match, the estimator, the handlers that never
    throw, the betting round, the opponent's policy and the hand analysis.

    Conventions of the embedding.
    - A JavaScript array is a [list], index 0 first; [push] appends at the
      end and [pop] removes the last element.
    - [undefined] is [None]: an array slot or a looked-up value that may be
      [undefined] has an [option] type.
    - Chip amounts are JavaScript numbers.  They start as integers and are
      only added, subtracted, compared and halved, which binary64 does
      exactly on the dyadic values a match can produce; they are modelled
      as rationals [Q] with [==] for the numeric [===].
    - Hand strengths, equity estimates, pot odds and the values of
      [Math.random] are compared with decimal constants that are not
      dyadic: they are modelled on binary64 itself ([PrimFloat]).
    - [Math.random] is an explicit argument (an oracle) of every function
      that draws from it.
    - The rendering ([updateDisplay], [messageSpan]) reads the game state
      and does not write to it; it is left out.  Of [performAnalysis] and
      [showEnd], which do not write to it either, the text they compose is
      modelled as data. *)

From Stdlib Require Import ZArith QArith Qminmax List Bool Lia Lqa Permutation.
From Stdlib Require Import Floats.
Import ListNotations.

Set Warnings "-inexact-float".

(* ================================================================== *)
(** ** Cards and the deck (app.js lines 13-62) *)

Inductive Suit : Type := Spades | Hearts | Diamonds | Clubs.

Inductive Rank : Type :=
| R2 | R3 | R4 | R5 | R6 | R7 | R8 | R9 | RT | RJ | RQ | RK | RA.

(** [SUITS] and [RANKS], in the order of the source arrays. *)
Definition SUITS : list Suit := [Spades; Hearts; Diamonds; Clubs].
Definition RANKS : list Rank :=
  [R2; R3; R4; R5; R6; R7; R8; R9; RT; RJ; RQ; RK; RA].

Definition RANK_VALUES (r : Rank) : Z :=
  match r with
  | R2 => 2 | R3 => 3 | R4 => 4 | R5 => 5 | R6 => 6 | R7 => 7 | R8 => 8
  | R9 => 9 | RT => 10 | RJ => 11 | RQ => 12 | RK => 13 | RA => 14
  end%Z.

Record Card : Type := mkCard { rank : Rank; suit : Suit }.

Definition Suit_eqb (a b : Suit) : bool :=
  match a, b with
  | Spades, Spades | Hearts, Hearts | Diamonds, Diamonds | Clubs, Clubs => true
  | _, _ => false
  end.

Definition Rank_eqb (a b : Rank) : bool := (RANK_VALUES a =? RANK_VALUES b)%Z.

(** Card objects are compared by reference in the source ([includes]).
    Every card in play comes from the one [Deck] built by [startHand], which
    holds exactly one object per (rank, suit), so reference equality there
    is equality of rank and suit. *)
Definition Card_eqb (a b : Card) : bool :=
  Rank_eqb (rank a) (rank b) && Suit_eqb (suit a) (suit b).

(** [arr.includes(c)] *)
Definition includes (arr : list Card) (c : Card) : bool :=
  existsb (Card_eqb c) arr.

(** The [cards] array of a [Deck]. *)
Definition Deck : Type := list Card.

(** [new Deck()]: for each suit, for each rank, push the card. *)
Definition newDeck : Deck :=
  flat_map (fun s => map (fun r => mkCard r s) RANKS) SUITS.

(** What a call returns: a value, or an exception. [deal] never takes the
    second branch; the type lets a claim about a raised error be stated. *)
Inductive DeckError : Type := DeckExhausted.

Inductive Outcome (A : Type) : Type :=
| Returns (v : A)
| Raises (e : DeckError).
Arguments Returns {A} v.
Arguments Raises {A} e.

(** [Array.prototype.pop]: the last element (or [undefined]) and the array
    without it. *)
Fixpoint pop {A : Type} (arr : list A) : option A * list A :=
  match arr with
  | [] => (None, [])
  | [x] => (Some x, [])
  | x :: rest => let '(v, rest') := pop rest in (v, x :: rest')
  end.

(** [Deck.deal]: [return this.cards.pop();] *)
Definition deal (d : Deck) : Outcome (option Card) * Deck :=
  let '(v, d') := pop d in (Returns v, d').

(** The value [deal] hands back to its caller ([undefined] is [None]). *)
Definition dealt (d : Deck) : option Card := fst (pop d).
Definition afterDeal (d : Deck) : Deck := snd (pop d).

(** [[arr[i], arr[j]] = [arr[j], arr[i]]] for indices inside the array. *)
Fixpoint setNth {A : Type} (i : nat) (x : A) (arr : list A) : list A :=
  match arr, i with
  | [], _ => []
  | _ :: t, O => x :: t
  | y :: t, S i' => y :: setNth i' x t
  end.

Definition swap {A : Type} (i j : nat) (arr : list A) : list A :=
  match nth_error arr i, nth_error arr j with
  | Some a, Some b => setNth j a (setNth i b arr)
  | _, _ => arr
  end.

(** Fisher-Yates, shared by [Deck.shuffle] and [shuffleArray]:
    [for (i = length - 1; i > 0; i--) { j = floor(random() * (i + 1)); swap }].
    [rnd i] is the draw made at index [i]; [floor(random() * (i + 1))] ranges
    over [0..i], which is [rnd i mod (i + 1)]. *)
Fixpoint shuffleFrom {A : Type} (rnd : nat -> nat) (i : nat) (arr : list A)
  : list A :=
  match i with
  | O => arr
  | S i' => shuffleFrom rnd i' (swap i (rnd i mod (S i)) arr)
  end.

Definition shuffleArray {A : Type} (rnd : nat -> nat) (arr : list A) : list A :=
  shuffleFrom rnd (length arr - 1) arr.

Definition shuffle (rnd : nat -> nat) (d : Deck) : Deck := shuffleArray rnd d.

(* ================================================================== *)
(** ** The hand evaluator (app.js lines 64-282) *)

(** A JavaScript number that may be [undefined]. *)
Definition jsnum : Type := option Z.

(** [a > b] and [a < b] on numbers; with [undefined] on either side both
    comparisons are false. *)
Definition js_gt (a b : jsnum) : bool :=
  match a, b with
  | Some x, Some y => (x >? y)%Z
  | _, _ => false
  end.

Definition js_lt (a b : jsnum) : bool :=
  match a, b with
  | Some x, Some y => (x <? y)%Z
  | _, _ => false
  end.

(** [{category, values}] *)
Record HandRank : Type := mkHandRank { category : Z; values : list jsnum }.

(** [arr.slice().sort((a, b) => key(b) - key(a))]: [Array.prototype.sort] is
    stable, so elements with equal keys keep their order. *)
Fixpoint insertDesc {A : Type} (key : A -> Z) (x : A) (sorted : list A)
  : list A :=
  match sorted with
  | [] => [x]
  | y :: rest =>
      if (key y >? key x)%Z then y :: insertDesc key x rest
      else x :: sorted
  end.

Definition sortDesc {A : Type} (key : A -> Z) (arr : list A) : list A :=
  fold_right (insertDesc key) [] arr.

(** A plain object used as a counter, [obj[k] = (obj[k] || 0) + 1], kept as
    the list of its own properties in insertion order. *)
Fixpoint bump {K : Type} (eqb : K -> K -> bool) (k : K) (obj : list (K * Z))
  : list (K * Z) :=
  match obj with
  | [] => [(k, 1%Z)]
  | (k', n) :: rest =>
      if eqb k k' then (k', (n + 1)%Z) :: rest
      else (k', n) :: bump eqb k rest
  end.

Fixpoint lookup {K : Type} (eqb : K -> K -> bool) (k : K) (obj : list (K * Z))
  : option Z :=
  match obj with
  | [] => None
  | (k', n) :: rest => if eqb k k' then Some n else lookup eqb k rest
  end.

(** [counts[r]] where [r] is one of the object's keys. *)
Definition countOf (counts : list (Rank * Z)) (r : Rank) : Z :=
  match lookup Rank_eqb r counts with Some n => n | None => 0%Z end.

Definition suitCountOf (suits : list (Suit * Z)) (s : Suit) : Z :=
  match lookup Suit_eqb s suits with Some n => n | None => 0%Z end.

(** [Object.keys(counts)]: the keys that are canonical array indices
    (['2'] to ['9']) come first in ascending numeric order, then the other
    string keys (['T'], ['J'], ['Q'], ['K'], ['A']) in insertion order. *)
Definition isIndexKey (r : Rank) : bool := (RANK_VALUES r <=? 9)%Z.

Definition rankKeys (counts : list (Rank * Z)) : list Rank :=
  filter (fun r => existsb (Rank_eqb r) (map fst counts))
         [R2; R3; R4; R5; R6; R7; R8; R9]
  ++ filter (fun r => negb (isIndexKey r)) (map fst counts).

(** [Object.keys(suits)]: no suit symbol is an array index. *)
Definition suitKeys (suits : list (Suit * Z)) : list Suit := map fst suits.

(** [[...new Set(values)]]: first occurrences, in order. *)
Fixpoint uniqueOf (seen : list Z) (vals : list Z) : list Z :=
  match vals with
  | [] => []
  | v :: rest =>
      if existsb (Z.eqb v) seen then uniqueOf seen rest
      else v :: uniqueOf (v :: seen) rest
  end.

Definition unique (vals : list Z) : list Z := uniqueOf [] vals.

(** The scan for five consecutive descending values:
    [for (i = 0; i <= u.length - 5; i++)] with the inner test on
    [u[i + j] - 1 !== u[i + j + 1]] for [j < 4]; the first hit gives [u[i]]. *)
Fixpoint findRun (u : list Z) : option Z :=
  match u with
  | [] => None
  | a :: t =>
      match t with
      | b :: c :: d :: e :: _ =>
          if ((a - 1 =? b) && (b - 1 =? c) && (c - 1 =? d) && (d - 1 =? e))%Z
          then Some a
          else findRun t
      | _ => None
      end
  end.

Definition numIncludes (u : list Z) (v : Z) : bool := existsb (Z.eqb v) u.

Definition hasWheel (u : list Z) : bool :=
  numIncludes u 14 && numIncludes u 5 && numIncludes u 4
  && numIncludes u 3 && numIncludes u 2.

(** [isStraight] and [straightHigh] together: [Some high] when a straight
    was found. *)
Definition straightOf (u : list Z) : option Z :=
  match findRun u with
  | Some h => Some h
  | None => if hasWheel u then Some 5%Z else None
  end.

(** The key of largest rank value among those passing [keep], scanning in
    key order and replacing on a strictly larger value. *)
Definition maxKey (keep : Rank -> bool) (keys : list Rank) : option Rank :=
  fold_left
    (fun best r =>
       if keep r then
         match best with
         | None => Some r
         | Some b => if (RANK_VALUES r >? RANK_VALUES b)%Z then Some r else best
         end
       else best)
    keys None.

Definition some (z : Z) : jsnum := Some z.

(** [arr[i]] on an array of numbers: [undefined] outside the array. *)
Definition at_ (arr : list jsnum) (i : nat) : jsnum :=
  match nth_error arr i with
  | Some v => v
  | None => None
  end.

Definition rankValue (c : Card) : Z := RANK_VALUES (rank c).

(** [evaluate5(hand)], branch by branch in the order of the source. *)
Definition evaluate5 (hand0 : list Card) : HandRank :=
  let hand := sortDesc rankValue hand0 in
  let vals := map rankValue hand in
  let counts := fold_left (fun o c => bump Rank_eqb (rank c) o) hand [] in
  let suits := fold_left (fun o c => bump Suit_eqb (suit c) o) hand [] in
  let isFlush := existsb (fun kv => (snd kv >=? 5)%Z) suits in
  let uniqueRanks := unique vals in
  let straight := straightOf uniqueRanks in
  let flushSuit :=
    find (fun s => (suitCountOf suits s >=? 5)%Z) (suitKeys suits) in
  let isFlushSuit (c : Card) :=
    match flushSuit with
    | Some s => Suit_eqb (suit c) s
    | None => false
    end in
  (* Straight flush *)
  let straightFlush :=
    match straight with
    | Some _ =>
        if isFlush then
          let flushCards := filter isFlushSuit hand in
          let flushValues := map rankValue flushCards in
          let uniq := sortDesc (fun v => v) (unique flushValues) in
          straightOf uniq
        else None
    | None => None
    end in
  match straightFlush with
  | Some sfHigh => mkHandRank 8 [some sfHigh]
  | None =>
  (* Four of a kind *)
  let keys := rankKeys counts in
  match find (fun r => (countOf counts r =? 4)%Z) keys with
  | Some quadsRank =>
      let kicker :=
        find (fun v => negb (v =? RANK_VALUES quadsRank)%Z) vals in
      mkHandRank 7 [some (RANK_VALUES quadsRank); kicker]
  | None =>
  (* Full house *)
  let tripsRank := maxKey (fun r => (countOf counts r =? 3)%Z) keys in
  let pairRank :=
    match tripsRank with
    | Some t =>
        maxKey (fun r => negb (Rank_eqb r t) && (countOf counts r >=? 2)%Z) keys
    | None => None
    end in
  match tripsRank, pairRank with
  | Some t, Some p => mkHandRank 6 [some (RANK_VALUES t); some (RANK_VALUES p)]
  | _, _ =>
  (* Flush *)
  if isFlush then
    let flushCards := sortDesc rankValue (filter isFlushSuit hand) in
    mkHandRank 5 (map (fun c => some (rankValue c)) (firstn 5 flushCards))
  else
  (* Straight *)
  match straight with
  | Some straightHigh => mkHandRank 4 [some straightHigh]
  | None =>
  (* Three of a kind *)
  match tripsRank with
  | Some t =>
      let kickers := filter (fun v => negb (v =? RANK_VALUES t)%Z) vals in
      mkHandRank 3 (some (RANK_VALUES t) :: map some (firstn 2 kickers))
  | None =>
  (* Two pair, one pair *)
  let pairs :=
    sortDesc RANK_VALUES (filter (fun r => (countOf counts r =? 2)%Z) keys) in
  match pairs with
  | hp :: lp :: _ =>
      let highPair := RANK_VALUES hp in
      let lowPair := RANK_VALUES lp in
      let kickerVal :=
        find (fun v => negb (v =? highPair)%Z && negb (v =? lowPair)%Z) vals in
      mkHandRank 2 [some highPair; some lowPair; kickerVal]
  | [p] =>
      let pairVal := RANK_VALUES p in
      let kickers := firstn 3 (filter (fun v => negb (v =? pairVal)%Z) vals) in
      mkHandRank 1 (some pairVal :: map some kickers)
  | [] =>
  (* High card *)
  mkHandRank 0 (map some (firstn 5 vals))
  end end end end end end.

(** The five nested loops of [evaluateHand] over [i < j < k < l < m] push
    the 5-element subsequences in lexicographic order of their indices. *)
Fixpoint combinations {A : Type} (k : nat) (arr : list A) : list (list A) :=
  match k, arr with
  | O, _ => [[]]
  | S _, [] => []
  | S k', x :: rest =>
      map (cons x) (combinations k' rest) ++ combinations k rest
  end.

(** The kicker loop of [evaluateHand]:
    [for (i = 0; i < a.length; i++)
       if (a[i] > b[i]) { better = true; break }
       else if (a[i] < b[i]) { better = false; break }]. *)
Fixpoint betterFrom (a b : list jsnum) (i fuel : nat) : bool :=
  match fuel with
  | O => false
  | S fuel' =>
      if js_gt (at_ a i) (at_ b i) then true
      else if js_lt (at_ a i) (at_ b i) then false
      else betterFrom a b (S i) fuel'
  end.

Definition isBetter (a b : list jsnum) : bool := betterFrom a b 0 (length a).

(** [evaluateHand(cards)].  The source also fills [counts] and [suitsMap]
    here and never reads them; they are left out. *)
Definition evaluateHand (cards : list Card) : HandRank :=
  let sorted := sortDesc rankValue cards in
  let combs := combinations 5 sorted in
  fold_left
    (fun best hand =>
       let evalResult := evaluate5 hand in
       if (category evalResult >? category best)%Z then evalResult
       else if (category evalResult =? category best)%Z then
         if isBetter (values evalResult) (values best) then evalResult
         else best
       else best)
    combs (mkHandRank (-1) []).

(** The comparison loop of [compareHands]:
    [for (i = 0; i < evalA.values.length; i++)
       if (A[i] > B[i]) return 1; if (A[i] < B[i]) return -1;] then [return 0]. *)
Fixpoint lexFrom (a b : list jsnum) (i fuel : nat) : Z :=
  match fuel with
  | O => 0%Z
  | S fuel' =>
      if js_gt (at_ a i) (at_ b i) then 1%Z
      else if js_lt (at_ a i) (at_ b i) then (-1)%Z
      else lexFrom a b (S i) fuel'
  end.

Definition compareRanks (evalA evalB : HandRank) : Z :=
  if (category evalA >? category evalB)%Z then 1%Z
  else if (category evalA <? category evalB)%Z then (-1)%Z
  else lexFrom (values evalA) (values evalB) 0 (length (values evalA)).

(** [compareHands(handA, handB, board)]: 1, -1 or 0. *)
Definition compareHands (handA handB board : list Card) : Z :=
  let cardsA := handA ++ board in
  let cardsB := handB ++ board in
  compareRanks (evaluateHand cardsA) (evaluateHand cardsB).

(* ================================================================== *)
(** ** Numbers

    Probabilities, hand strengths and the values of [Math.random] are
    binary64 numbers ([float]); chips are rationals. *)

(** An integer as a binary64 number (exact below 2^53). *)
Definition numberOf (z : Z) : float :=
  match z with
  | Z0 => 0%float
  | Zpos _ => PrimFloat.of_uint63 (Uint63.of_Z z)
  | Zneg p => (- PrimFloat.of_uint63 (Uint63.of_Z (Zpos p)))%float
  end.

(** A chip amount as the binary64 number that holds it. *)
Definition numberOfChips (q : Q) : float :=
  (numberOf (Qnum q) / numberOf (Zpos (Qden q)))%float.

(** [Math.floor] of a finite number. *)
Definition Math_floor (x : float) : Z :=
  match Prim2SF x with
  | S754_finite false m e =>
      if (0 <=? e)%Z then (Zpos m * 2 ^ e)%Z else (Zpos m / 2 ^ (- e))%Z
  | S754_finite true m e =>
      if (0 <=? e)%Z then (- (Zpos m * 2 ^ e))%Z
      else (- ((Zpos m + 2 ^ (- e) - 1) / 2 ^ (- e)))%Z
  | _ => 0%Z
  end.

(** [Math.max] and [Math.min] on two numbers: NaN if either is NaN, else
    the larger (smaller).  The arguments here are never zero, so the order
    the built-ins put on [-0] and [+0] is not modelled. *)
Definition Math_max (a b : float) : float :=
  if (PrimFloat.is_nan a || PrimFloat.is_nan b)%bool then PrimFloat.nan
  else if PrimFloat.ltb a b then b else a.

Definition Math_min (a b : float) : float :=
  if (PrimFloat.is_nan a || PrimFloat.is_nan b)%bool then PrimFloat.nan
  else if PrimFloat.ltb b a then b else a.

(* ================================================================== *)
(** ** The equity estimator (app.js lines 284-317) *)

(** An element of the [cards] and [board] arrays of the game: [deal()]
    yields [undefined] on an empty deck and the caller stores it as is. *)
Definition slot : Type := option Card.

Definition slotIncludes (arr : list slot) (x : Card) : bool :=
  existsb (fun s => match s with Some y => Card_eqb x y | None => false end) arr.

(** [remaining]: the cards of the deck object passed in that are neither
    in [playerCards] nor in [knownBoard]. *)
Definition remainingOf (playerCards knownBoard : list slot) (deck : Deck)
  : list Card :=
  filter (fun x => negb (slotIncludes playerCards x)
                   && negb (slotIncludes knownBoard x)) deck.

(** [while (board.length < 5) { board.push(available[j]); j++; }] *)
Fixpoint fillBoard (available : list Card) (j fuel : nat) (board : list slot)
  : list slot :=
  match fuel with
  | O => board
  | S fuel' => fillBoard available (S j) fuel' (board ++ [nth_error available j])
  end.

Fixpoint allDefined (arr : list slot) : option (list Card) :=
  match arr with
  | [] => Some []
  | None :: _ => None
  | Some x :: rest =>
      match allDefined rest with
      | Some l => Some (x :: l)
      | None => None
      end
  end.

(** [compareHands] applied to arrays of the game.  [evaluateHand] reads
    [.rank] of every element, so an [undefined] among them throws a
    TypeError ([None]). *)
Definition compareSlots (handA handB board : list slot) : option Z :=
  match allDefined handA, allDefined handB, allDefined board with
  | Some a, Some b, Some bd => Some (compareHands a b bd)
  | _, _, _ => None
  end.

(** One pass of the sampling loop: the comparison of the hero with the
    sampled opponent over the completed board. *)
Definition equityTrial (rnd : nat -> nat) (playerCards knownBoard : list slot)
  (remaining : list Card) : option Z :=
  let available := shuffleArray rnd remaining in
  let oppCards := [nth_error available 0; nth_error available 1] in
  let board := fillBoard available 2 (5 - length knownBoard) knownBoard in
  compareSlots playerCards oppCards board.

(** The tallies [(wins, ties)] after the runs [i, i + 1, ..., i + fuel - 1];
    [rnd i] is the oracle of run [i]; [None] when a run throws. *)
Fixpoint equityLoop (rnd : nat -> nat -> nat) (playerCards knownBoard : list slot)
  (remaining : list Card) (i fuel : nat) (wins ties : Z) : option (Z * Z) :=
  match fuel with
  | O => Some (wins, ties)
  | S fuel' =>
      match equityTrial (rnd i) playerCards knownBoard remaining with
      | None => None
      | Some cmp =>
          if (cmp >? 0)%Z then
            equityLoop rnd playerCards knownBoard remaining (S i) fuel'
                       (wins + 1)%Z ties
          else if (cmp =? 0)%Z then
            equityLoop rnd playerCards knownBoard remaining (S i) fuel'
                       wins (ties + 1)%Z
          else
            equityLoop rnd playerCards knownBoard remaining (S i) fuel'
                       wins ties
      end
  end.

(** [computeEquity(playerCards, knownBoard, deck, runs)]: the number
    [(wins + ties / 2) / runs], which is NaN when [runs] is 0, or [None]
    when a TypeError left the sampling loop. *)
Definition computeEquity (rnd : nat -> nat -> nat)
  (playerCards knownBoard : list slot) (deck : Deck) (runs : nat)
  : option float :=
  let remaining := remainingOf playerCards knownBoard deck in
  match equityLoop rnd playerCards knownBoard remaining 0 runs 0%Z 0%Z with
  | None => None
  | Some (wins, ties) =>
      Some ((numberOf wins + numberOf ties / 2)
            / numberOf (Z.of_nat runs))%float
  end.

(* ================================================================== *)
(** ** The betting state machine (app.js lines 358-722, 850-896) *)

(** The strings ['player'] and ['opponent']. *)
Inductive Seat : Type := seatPlayer | seatOpponent.

(** [gameState.stage] *)
Inductive Stage : Type := Preflop | Flop | Turn | River | Showdown.

(** [gameState.opponentType], the values of [opponentSelect]. *)
Inductive Style : Type := tamayo | weinman | jorstad | aldemir | salas.

(** The [action] argument of [userAction] and the [action] variable of
    [aiAction]: ['fold'], ['check'], ['allin'], ['raise']. *)
Inductive Action : Type := fold | check | allin | raise.

(** The [action] field of a log entry, which may also read ['call']. *)
Inductive LoggedAction : Type :=
| logFold | logCheck | logCall | logAllin | logRaise.

Definition logged (a : Action) : LoggedAction :=
  match a with
  | fold => logFold | check => logCheck | allin => logAllin | raise => logRaise
  end.

(** [{cards, stack, currentBet, folded}] *)
Record Player : Type := mkPlayer {
  cards : list slot;
  stack : Q;
  currentBet : Q;
  folded : bool
}.

Inductive LogEntry : Type :=
| ActionEntry (stage : Stage) (actor : Seat) (action : LoggedAction)
              (bet : Q) (pot : Q) (board : list slot) (cards : list slot)
| ShowdownEntry (result : option bool).

(** The global [gameState].  [aiTimers] counts the [setTimeout(aiAction)]
    callbacks that are scheduled and have not run yet. *)
Record GameState : Type := mkGameState {
  opponentType : Style;
  bigBlind : Q;
  player : Player;
  opponent : Player;
  button : Seat;
  deck : Deck;
  board : list slot;
  pot : Q;
  stage : Stage;
  actionLog : list LogEntry;
  turn : Seat;
  awaitingUser : bool;
  aiTimers : nat
}.

Definition Seat_eqb (a b : Seat) : bool :=
  match a, b with
  | seatPlayer, seatPlayer | seatOpponent, seatOpponent => true
  | _, _ => false
  end.

Definition other (a : Seat) : Seat :=
  match a with seatPlayer => seatOpponent | seatOpponent => seatPlayer end.

(** Field updates of the two mutable objects. *)
Definition withCards (v : list slot) (p : Player) : Player :=
  mkPlayer v (stack p) (currentBet p) (folded p).
Definition withStack (v : Q) (p : Player) : Player :=
  mkPlayer (cards p) v (currentBet p) (folded p).
Definition withCurrentBet (v : Q) (p : Player) : Player :=
  mkPlayer (cards p) (stack p) v (folded p).
Definition withFolded (v : bool) (p : Player) : Player :=
  mkPlayer (cards p) (stack p) (currentBet p) v.

Definition withPlayer (v : Player) (s : GameState) : GameState :=
  mkGameState (opponentType s) (bigBlind s) v (opponent s) (button s) (deck s) (board s)
    (pot s) (stage s) (actionLog s) (turn s) (awaitingUser s) (aiTimers s).
Definition withOpponent (v : Player) (s : GameState) : GameState :=
  mkGameState (opponentType s) (bigBlind s) (player s) v (button s) (deck s) (board s)
    (pot s) (stage s) (actionLog s) (turn s) (awaitingUser s) (aiTimers s).
Definition withButton (v : Seat) (s : GameState) : GameState :=
  mkGameState (opponentType s) (bigBlind s) (player s) (opponent s) v (deck s) (board s)
    (pot s) (stage s) (actionLog s) (turn s) (awaitingUser s) (aiTimers s).
Definition withDeck (v : Deck) (s : GameState) : GameState :=
  mkGameState (opponentType s) (bigBlind s) (player s) (opponent s) (button s) v (board s)
    (pot s) (stage s) (actionLog s) (turn s) (awaitingUser s) (aiTimers s).
Definition withBoard (v : list slot) (s : GameState) : GameState :=
  mkGameState (opponentType s) (bigBlind s) (player s) (opponent s) (button s) (deck s) v
    (pot s) (stage s) (actionLog s) (turn s) (awaitingUser s) (aiTimers s).
Definition withPot (v : Q) (s : GameState) : GameState :=
  mkGameState (opponentType s) (bigBlind s) (player s) (opponent s) (button s) (deck s) (board s)
    v (stage s) (actionLog s) (turn s) (awaitingUser s) (aiTimers s).
Definition withStage (v : Stage) (s : GameState) : GameState :=
  mkGameState (opponentType s) (bigBlind s) (player s) (opponent s) (button s) (deck s) (board s)
    (pot s) v (actionLog s) (turn s) (awaitingUser s) (aiTimers s).
Definition withActionLog (v : list LogEntry) (s : GameState) : GameState :=
  mkGameState (opponentType s) (bigBlind s) (player s) (opponent s) (button s) (deck s) (board s)
    (pot s) (stage s) v (turn s) (awaitingUser s) (aiTimers s).
Definition withTurn (v : Seat) (s : GameState) : GameState :=
  mkGameState (opponentType s) (bigBlind s) (player s) (opponent s) (button s) (deck s) (board s)
    (pot s) (stage s) (actionLog s) v (awaitingUser s) (aiTimers s).
Definition withAwaitingUser (v : bool) (s : GameState) : GameState :=
  mkGameState (opponentType s) (bigBlind s) (player s) (opponent s) (button s) (deck s) (board s)
    (pot s) (stage s) (actionLog s) (turn s) v (aiTimers s).
Definition withAiTimers (v : nat) (s : GameState) : GameState :=
  mkGameState (opponentType s) (bigBlind s) (player s) (opponent s) (button s) (deck s) (board s)
    (pot s) (stage s) (actionLog s) (turn s) (awaitingUser s) v.

(** The player object named by a seat. *)
Definition seated (who : Seat) (s : GameState) : Player :=
  match who with seatPlayer => player s | seatOpponent => opponent s end.

Definition withSeated (who : Seat) (v : Player) (s : GameState) : GameState :=
  match who with
  | seatPlayer => withPlayer v s
  | seatOpponent => withOpponent v s
  end.

(** [a > 0] on chip amounts. *)
Definition positive (a : Q) : bool := negb (Qle_bool a 0).

(** [bet(playerObj, amount)] *)
Definition bet (who : Seat) (amount : Q) (s : GameState) : GameState :=
  let playerObj := seated who s in
  let amount := Qmin amount (stack playerObj) in
  let playerObj := withStack (stack playerObj - amount) playerObj in
  let playerObj := withCurrentBet (currentBet playerObj + amount) playerObj in
  withPot (pot s + amount) (withSeated who playerObj s).

(** [postBlinds()] *)
Definition postBlinds (s : GameState) : GameState :=
  let sb := bigBlind s / 2 in
  match button s with
  | seatPlayer => bet seatOpponent (bigBlind s) (bet seatPlayer sb s)
  | seatOpponent => bet seatPlayer (bigBlind s) (bet seatOpponent sb s)
  end.

(** [gameState.deck.deal()] with its result. *)
Definition dealFromDeck (s : GameState) : slot * GameState :=
  (dealt (deck s), withDeck (afterDeal (deck s)) s).

(** [gameState.deck.deal();] the burn card, ignored. *)
Definition burn (s : GameState) : GameState := snd (dealFromDeck s).

(** [gameState.board.push(gameState.deck.deal());] *)
Definition dealToBoard (s : GameState) : GameState :=
  let '(v, s) := dealFromDeck s in withBoard (board s ++ [v]) s.

Definition dealFlop (s : GameState) : GameState :=
  withStage Flop (dealToBoard (dealToBoard (dealToBoard (burn s)))).

Definition dealTurn (s : GameState) : GameState :=
  withStage Turn (dealToBoard (burn s)).

Definition dealRiver (s : GameState) : GameState :=
  withStage River (dealToBoard (burn s)).

(** How a call ends: normally, or by a TypeError that unwinds to the event
    loop; either way with the state as mutated so far. *)
Inductive Completion : Type :=
| Normal (s : GameState)
| Thrown (s : GameState).

Definition stateOf (k : Completion) : GameState :=
  match k with Normal s | Thrown s => s end.

(** [playerWins]: [true], [false] or [null] (a tie). *)
Definition winnerOf (s : GameState) : option (option bool) :=
  if folded (player s) then Some (Some false)
  else if folded (opponent s) then Some (Some true)
  else
    match compareSlots (cards (player s)) (cards (opponent s)) (board s) with
    | None => None
    | Some cmp =>
        if (cmp >? 0)%Z then Some (Some true)
        else if (cmp <? 0)%Z then Some (Some false)
        else Some None
    end.

(** The award of [goToShowdown]. *)
Definition awardPot (playerWins : option bool) (s : GameState) : GameState :=
  match playerWins with
  | Some true => withPlayer (withStack (stack (player s) + pot s) (player s)) s
  | Some false =>
      withOpponent (withStack (stack (opponent s) + pot s) (opponent s)) s
  | None =>
      let half := pot s / 2 in
      let s := withPlayer (withStack (stack (player s) + half) (player s)) s in
      withOpponent (withStack (stack (opponent s) + half) (opponent s)) s
  end.

(** [goToShowdown()].  The rendering and the scheduled [performAnalysis]
    do not write to the game state. *)
Definition goToShowdown (s : GameState) : Completion :=
  let s := withStage Showdown s in
  match winnerOf s with
  | None => Thrown s
  | Some playerWins =>
      let s := awardPot playerWins s in
      Normal (withActionLog (actionLog s ++ [ShowdownEntry playerWins]) s)
  end.

(** [nextAction()] *)
Definition nextAction (s : GameState) : Completion :=
  if folded (player s) || folded (opponent s) then goToShowdown s
  else
    match turn s with
    | seatPlayer => Normal (withAwaitingUser true s)
    | seatOpponent =>
        Normal (withAiTimers (S (aiTimers s)) (withAwaitingUser false s))
    end.

(** Sequencing of calls that may throw. *)
Definition andThen (k : Completion) (f : GameState -> Completion) : Completion :=
  match k with
  | Normal s => f s
  | Thrown s => Thrown s
  end.

Definition resetBets (s : GameState) : GameState :=
  withOpponent (withCurrentBet 0 (opponent s))
    (withPlayer (withCurrentBet 0 (player s)) s).

(** [gameState.turn = (gameState.button === 'player') ? 'player' : 'opponent'] *)
Definition firstAfterDeal (s : GameState) : Seat :=
  match button s with
  | seatPlayer => seatPlayer
  | seatOpponent => seatOpponent
  end.

(** [advanceOrSwitch()] *)
Definition advanceOrSwitch (s : GameState) : Completion :=
  if Qeq_bool (currentBet (player s)) (currentBet (opponent s)) then
    let s := resetBets s in
    let advanced :=
      match stage s with
      | Preflop => Normal (dealFlop s)
      | Flop => Normal (dealTurn s)
      | Turn => Normal (dealRiver s)
      | River => goToShowdown s
      | Showdown => Normal s
      end in
    andThen advanced (fun s => nextAction (withTurn (firstAfterDeal s) s))
  else
    nextAction (withTurn (other (turn s)) s).

(** [userAction(action, raiseAmount)] *)
Definition userAction (action : Action) (raiseAmount : Q) (s : GameState)
  : Completion :=
  let s := withAwaitingUser false s in
  let oppBet := currentBet (opponent s) in
  let myBet := currentBet (player s) in
  let toCall := Qmax 0 (oppBet - myBet) in
  let entry (a : LoggedAction) (b : Q) :=
    ActionEntry (stage s) seatPlayer a b (pot s) (board s) (cards (player s)) in
  let push (e : LogEntry) (s : GameState) :=
    withActionLog (actionLog s ++ [e]) s in
  match action with
  | fold =>
      let s := withPlayer (withFolded true (player s)) s in
      goToShowdown (push (entry logFold 0) s)
  | check =>
      if positive toCall then
        advanceOrSwitch (push (entry logCall toCall) (bet seatPlayer toCall s))
      else
        advanceOrSwitch (push (entry logCheck 0) s)
  | allin =>
      let amount := stack (player s) in
      nextAction
        (withTurn seatOpponent
           (push (entry logAllin amount) (bet seatPlayer amount s)))
  | raise =>
      let totalBet := toCall + raiseAmount in
      nextAction
        (withTurn seatOpponent
           (push (entry logRaise totalBet) (bet seatPlayer totalBet s)))
  end.

(** The "Switch or advance" block that ends [aiAction()] (lines 875-894),
    written inline in the source. *)
Definition aiAdvanceOrSwitch (s : GameState) : Completion :=
  if Qeq_bool (currentBet (player s)) (currentBet (opponent s)) then
    let s := resetBets s in
    match stage s with
    | Preflop => let s := dealFlop s in nextAction (withTurn (firstAfterDeal s) s)
    | Flop => let s := dealTurn s in nextAction (withTurn (firstAfterDeal s) s)
    | Turn => let s := dealRiver s in nextAction (withTurn (firstAfterDeal s) s)
    | River => goToShowdown s
    | Showdown => nextAction (withTurn (firstAfterDeal s) s)
    end
  else
    nextAction (withTurn seatPlayer s).

(** The second half of [aiAction()] (lines 850-896, "Execute action"),
    which applies the [action] and [raiseAmount] chosen by the first half
    ([aiDecide] below). *)
Definition aiExecute (action : Action) (raiseAmount : Q) (s : GameState)
  : Completion :=
  let toCall := Qmax 0 (currentBet (player s) - currentBet (opponent s)) in
  let entry (a : LoggedAction) (b : Q) :=
    ActionEntry (stage s) seatOpponent a b (pot s) (board s)
                (cards (opponent s)) in
  let '(s, e) :=
    match action with
    | fold => (withOpponent (withFolded true (opponent s)) s, entry logFold 0)
    | check =>
        if positive toCall then
          (bet seatOpponent toCall s, entry logCall toCall)
        else (s, entry logCheck 0)
    | allin =>
        let amount := stack (opponent s) in
        (bet seatOpponent amount s, entry logAllin amount)
    | raise =>
        let total := toCall + raiseAmount in
        (bet seatOpponent total s, entry logRaise total)
    end in
  let s := withActionLog (actionLog s ++ [e]) s in
  match action with
  | fold => goToShowdown s
  | _ => aiAdvanceOrSwitch s
  end.

(** [startHand()]; [rnd] is the oracle of [deck.shuffle()]. *)
Definition startHand (rnd : nat -> nat) (s : GameState) : Completion :=
  let s := withDeck (shuffle rnd newDeck) s in
  let s := withBoard [] s in
  let '(c1, s) := dealFromDeck s in
  let '(c2, s) := dealFromDeck s in
  let s := withPlayer (withCards [c1; c2] (player s)) s in
  let '(c3, s) := dealFromDeck s in
  let '(c4, s) := dealFromDeck s in
  let s := withOpponent (withCards [c3; c4] (opponent s)) s in
  let s := resetBets s in
  let s := withPlayer (withFolded false (player s)) s in
  let s := withOpponent (withFolded false (opponent s)) s in
  let s := withPot 0 s in
  let s := withButton (other (button s)) s in
  let s := postBlinds s in
  let s := withStage Preflop s in
  let s := withActionLog [] s in
  let firstToAct :=
    match button s with
    | seatPlayer => seatOpponent
    | seatOpponent => seatPlayer
    end in
  nextAction (withTurn firstToAct s).

(** [stackSelect.value] *)
Inductive Scenario : Type := short | equal | big | otherScenario.

(** The state built by the click on [startBtn] and by [initGame()] up to
    its call of [startHand()].  The
    fields that [startHand] overwrites before anything reads them ([deck],
    [board], [pot], [stage], [actionLog], [turn]) are absent from the
    object at this point; the record needs some value. *)
Definition initState (scenario : Scenario) (oppType : Style) : GameState :=
  let bb : Q := 100 in
  let '(playerStartStack, opponentStartStack) :=
    match scenario with
    | short => (20 * bb, 20 * bb)
    | equal => (100 * bb, 100 * bb)
    | big => (150 * bb, 50 * bb)
    | otherScenario => (100 * bb, 100 * bb)
    end in
  mkGameState oppType bb
    (mkPlayer [] playerStartStack 0 false)
    (mkPlayer [] opponentStartStack 0 false)
    seatPlayer [] [] 0 Preflop [] seatPlayer false 0.

(** [initGame()] *)
Definition initGame (scenario : Scenario) (oppType : Style)
  (rnd : nat -> nat) : Completion :=
  startHand rnd (initState scenario oppType).

(** The click handlers of the four action buttons: they act only while
    [gameState.awaitingUser] is set. *)
Definition clickAction (action : Action) (raiseAmount : Q) (s : GameState)
  : GameState :=
  if awaitingUser s then stateOf (userAction action raiseAmount s) else s.

(** A scheduled [aiAction] callback runs and its first half has chosen
    [action] and [raiseAmount]. *)
Definition aiTimerFires (action : Action) (raiseAmount : Q) (s : GameState)
  : GameState :=
  match aiTimers s with
  | O => s
  | S n => stateOf (aiExecute action raiseAmount (withAiTimers n s))
  end.

(** A scheduled [aiAction] callback runs and its first half throws. *)
Definition aiTimerThrows (s : GameState) : GameState :=
  match aiTimers s with
  | O => s
  | S n => withAiTimers n s
  end.

(** The click handler of [nextHandBtn]; [showEnd] only renders. *)
Definition clickNextHand (rnd : nat -> nat) (s : GameState) : GameState :=
  if Qle_bool (stack (player s)) 0 || Qle_bool (stack (opponent s)) 0 then s
  else stateOf (startHand rnd s).

(** The events of one hand: a click on an action button, or a scheduled
    opponent callback running, either with the action its first half
    chose or to the exception its first half threw.  Which of them a
    callback is depends on its draws ([aiCallback] below). *)
Inductive HandEvent : Type :=
| UserActs (action : Action) (raiseAmount : Q)
| AiActs (action : Action) (raiseAmount : Q)
| AiThrows.

Definition handStep (e : HandEvent) (s : GameState) : GameState :=
  match e with
  | UserActs a r => clickAction a r s
  | AiActs a r => aiTimerFires a r s
  | AiThrows => aiTimerThrows s
  end.

(** The states of the hand that begins in [start]: events are taken until
    the stage is ['showdown']. *)
Inductive inHand (start : GameState) : GameState -> Prop :=
| hand_begins : inHand start start
| hand_goes_on (s : GameState) (e : HandEvent) :
    inHand start s -> stage s <> Showdown -> inHand start (handStep e s).

(** A run of events from a state. *)
Definition play (events : list HandEvent) (s : GameState) : GameState :=
  fold_left (fun s e => handStep e s) events s.

(** [pot + player.stack + opponent.stack] and the two stacks alone. *)
Definition chipTotal (s : GameState) : Q :=
  pot s + stack (player s) + stack (opponent s).

Definition stackTotal (s : GameState) : Q :=
  stack (player s) + stack (opponent s).

(** The shuffle in which every draw is [j = i]: the deck stays in the
    order of [new Deck()]. *)
Definition keepOrder : nat -> nat := fun i => i.

(* ================================================================== *)
(** ** The starting-hand heuristic (app.js lines 898-921) *)

(** [startingHandStrength(cards)]; reading [.rank] of a missing element
    throws a TypeError ([None]). *)
Definition startingHandStrength (cards : list Card) : option float :=
  match nth_error cards 0, nth_error cards 1 with
  | Some c0, Some c1 =>
      let r1 := numberOf (RANK_VALUES (rank c0)) in
      let r2 := numberOf (RANK_VALUES (rank c1)) in
      let suited := Suit_eqb (suit c0) (suit c1) in
      if PrimFloat.eqb r1 r2 then Some ((r1 / 14) * 0.8 + 0.2)%float
      else
        let highCard := Math_max r1 r2 in
        let lowCard := Math_min r1 r2 in
        let score := 0%float in
        let score := (score + highCard / 14 * 0.5)%float in
        let score := (score + (lowCard / 14) * 0.1)%float in
        let score := if suited then (score + 0.1)%float else score in
        let diff := PrimFloat.abs (r1 - r2)%float in
        let score :=
          if PrimFloat.eqb diff 1 then (score + 0.1)%float
          else if PrimFloat.eqb diff 2 then (score + 0.05)%float
          else score in
        Some (Math_min score 1)
  | _, _ => None
  end.

(** The score as the specification words it, for comparison with the
    function above: pairs score [0.2 + 0.8 * (rank / 14)]; non-pairs score
    [0.5 * (highRank / 14) + 0.1 * (lowRank / 14)], plus 0.1 if suited,
    plus 0.1 if the ranks differ by 1, plus 0.05 if they differ by 2,
    capped at 1. *)
Definition specifiedStrength (c0 c1 : Card) : float :=
  let v0 := RANK_VALUES (rank c0) in
  let v1 := RANK_VALUES (rank c1) in
  if (v0 =? v1)%Z then (0.2 + 0.8 * (numberOf v0 / 14))%float
  else
    let highRank := numberOf (Z.max v0 v1) in
    let lowRank := numberOf (Z.min v0 v1) in
    let base := (0.5 * (highRank / 14) + 0.1 * (lowRank / 14))%float in
    let withSuit :=
      if Suit_eqb (suit c0) (suit c1) then (base + 0.1)%float else base in
    let withGap :=
      if (Z.abs (v0 - v1) =? 1)%Z then (withSuit + 0.1)%float
      else if (Z.abs (v0 - v1) =? 2)%Z then (withSuit + 0.05)%float
      else withSuit in
    if PrimFloat.ltb 1 withGap then 1%float else withGap.

(** [0 <= x <= 1] on binary64. *)
Definition inUnitInterval (x : float) : bool :=
  (PrimFloat.leb 0 x && PrimFloat.leb x 1)%bool.

(* ================================================================== *)
(** ** The opponent's choice of action (app.js lines 727-849) *)

(** What one run of [aiAction] draws: [trialDraws i] is the oracle of the
    shuffle in run [i] of [computeEquity], and [randomDraws k] is the value
    of the [k]-th call of [Math.random()] the policy itself makes. *)
Record AiOracle : Type := mkAiOracle {
  trialDraws : nat -> nat -> nat;
  randomDraws : nat -> float
}.

(** [a < b] on chip amounts. *)
Definition less (a b : Q) : bool := negb (Qle_bool b a).

(** [startingHandStrength(opp.cards)] on an array of the game. *)
Definition strengthOf (holeCards : list slot) : option float :=
  match allDefined holeCards with
  | Some cs => startingHandStrength cs
  | None => None
  end.

(** The first half of [aiAction()]: the [action] and the [raiseAmount] it
    settles on, or [None] when [computeEquity] throws. *)
Definition aiDecide (o : AiOracle) (s : GameState) : option (Action * Q) :=
  let opp := opponent s in
  let hero := player s in
  let toCall := Qmax 0 (currentBet hero - currentBet opp) in
  match computeEquity (trialDraws o) (cards opp) (board s) (deck s) 150 with
  | None => None
  | Some equity =>
  let callCost := toCall in
  let potAfterCall := pot s + callCost in
  let potOdds :=
    if positive callCost
    then (numberOfChips callCost / numberOfChips potAfterCall)%float
    else 0%float in
  let style := opponentType s in
  let bb := bigBlind s in
  let shortStack := less (stack opp) (10 * bb) in
  match stage s with
  | Preflop =>
      let randomFactor := randomDraws o 0 in
      match strengthOf (cards opp) with
      | None => None
      | Some strength =>
      let opens (minStrength maxRandom : float) (amount : Q) :=
        if (PrimFloat.leb minStrength strength
            && PrimFloat.ltb randomFactor maxRandom)%bool
        then Some (raise, amount) else Some (check, 0) in
      if Qeq_bool toCall 0 then
        match style with
        | tamayo =>
            opens 0.4%float 0.7%float
                  (bb * inject_Z (2 + Math_floor (randomDraws o 1 * 2)%float))
        | weinman => opens 0.5%float 0.5%float (bb * 2)
        | jorstad => opens 0.6%float 0.6%float (bb * 3)
        | aldemir => opens 0.55%float 0.7%float (bb * 3)
        | salas =>
            if shortStack then
              if PrimFloat.ltb 0.48 equity then Some (allin, 0)
              else Some (check, 0)
            else opens 0.55%float 0.6%float (bb * 3)
        end
      else
        let isSalas := match style with salas => true | _ => false end in
        let isTamayo := match style with tamayo => true | _ => false end in
        if (isSalas && shortStack)%bool then
          if PrimFloat.ltb (potOdds + 0.1) equity then Some (allin, 0)
          else Some (fold, 0)
        else if PrimFloat.ltb (potOdds + 0.1) equity then
          if (isTamayo && PrimFloat.ltb randomFactor 0.2)%bool
          then Some (raise, (currentBet hero - currentBet opp) + bb * 2)
          else Some (check, 0)
        else Some (fold, 0)
      end
  | _ =>
      let isTamayo := match style with tamayo => true | _ => false end in
      if positive toCall then
        if PrimFloat.ltb (potOdds + 0.05) equity then Some (check, 0)
        else if (isTamayo && PrimFloat.ltb 0.25 equity
                 && PrimFloat.ltb (randomDraws o 0) 0.3)%bool
        then Some (raise,
                   (currentBet hero - currentBet opp)
                   + inject_Z (Math_floor
                                 (numberOfChips bb * 2 * randomDraws o 1)%float))
        else Some (fold, 0)
      else
        if PrimFloat.ltb 0.6 equity then
          Some (raise,
                inject_Z (Math_floor
                            (numberOfChips bb * (1 + randomDraws o 0))%float))
        else if (PrimFloat.ltb 0.3 equity
                 && PrimFloat.ltb (randomDraws o 0) 0.4)%bool
        then Some (raise,
                   inject_Z (Math_floor
                               (numberOfChips bb * (1 + randomDraws o 1))%float))
        else Some (check, 0)
  end
  end.

(** [aiAction()] *)
Definition aiAction (o : AiOracle) (s : GameState) : Completion :=
  match aiDecide o s with
  | None => Thrown s
  | Some (action, raiseAmount) => aiExecute action raiseAmount s
  end.

(** A scheduled [aiAction] callback runs, drawing from [o]. *)
Definition aiCallback (o : AiOracle) (s : GameState) : GameState :=
  match aiTimers s with
  | O => s
  | S n => stateOf (aiAction o (withAiTimers n s))
  end.

(** Every run left in deck order, every [Math.random()] of the policy
    returning [u]. *)
Definition steady (u : float) : AiOracle :=
  mkAiOracle (fun _ => keepOrder) (fun _ => u).

(* ================================================================== *)
(** ** Vocabulary of the statements *)

(** *** Evaluator fixtures *)

(** The five ranks of the wheel and of the six-high straight, in any suits. *)
Definition wheel (s1 s2 s3 s4 s5 : Suit) : list Card :=
  [mkCard RA s1; mkCard R2 s2; mkCard R3 s3; mkCard R4 s4; mkCard R5 s5].

Definition sixHigh (s1 s2 s3 s4 s5 : Suit) : list Card :=
  [mkCard R6 s1; mkCard R2 s2; mkCard R3 s3; mkCard R4 s4; mkCard R5 s5].

Definition oneSuit (s1 s2 s3 s4 s5 : Suit) : bool :=
  Suit_eqb s1 s2 && Suit_eqb s1 s3 && Suit_eqb s1 s4 && Suit_eqb s1 s5.

(** All the orders in which an array can hold given elements. *)
Fixpoint insertAll {A : Type} (x : A) (l : list A) : list (list A) :=
  match l with
  | [] => [[x]]
  | y :: t => (x :: l) :: map (cons y) (insertAll x t)
  end.

Fixpoint orders {A : Type} (l : list A) : list (list A) :=
  match l with
  | [] => [[]]
  | x :: t => flat_map (insertAll x) (orders t)
  end.

(** *** A hand in progress *)

(** [deckNeeds] is the number of cards the streets still to come take from
    the deck: a burn card and three board cards, then twice a burn card
    and one board card. *)
Definition deckNeeds (st : Stage) : nat :=
  match st with
  | Preflop => 8
  | Flop => 4
  | Turn => 2
  | River | Showdown => 0
  end.

Definition noneUndefined (arr : list slot) : Prop := allDefined arr <> None.

(** During the betting: the chips in the pot and in the two stacks are
    [total], nobody has folded, every card dealt is a card, and the deck
    holds the cards the remaining streets need. *)
Record Betting (total : Q) (s : GameState) : Prop := mkBetting {
  betting_total : chipTotal s == total;
  betting_player_in : folded (player s) = false;
  betting_opponent_in : folded (opponent s) = false;
  betting_player_cards : noneUndefined (cards (player s));
  betting_opponent_cards : noneUndefined (cards (opponent s));
  betting_board : noneUndefined (board s);
  betting_deck : (deckNeeds (stage s) <= length (deck s))%nat;
  betting_stage : stage s <> Showdown
}.

(** After the award: the stage is ['showdown'] and the pot has been added
    to the stacks. *)
Definition Settled (total : Q) (s : GameState) : Prop :=
  stage s = Showdown /\ stackTotal s == total.

Definition HandInv (total : Q) (s : GameState) : Prop :=
  Betting total s \/ Settled total s.

(** *** The two outcomes of an action that is not a fold *)

Definition nextStage (st : Stage) : Stage :=
  match st with
  | Preflop => Flop
  | Flop => Turn
  | Turn => River
  | River | Showdown => Showdown
  end.

Definition boardCardsDealt (st : Stage) : nat :=
  match st with
  | Preflop => 3
  | Flop | Turn => 1
  | River | Showdown => 0
  end.

(** [Advanced s s']: from [s] to [s'] both bets were reset and the stage
    moved on, three board cards being dealt for the flop and one for the
    turn and for the river; when the new stage is a betting street the
    turn in [s'] is the button's. *)
Definition Advanced (s s' : GameState) : Prop :=
  currentBet (player s') = 0 /\ currentBet (opponent s') = 0
  /\ stage s' = nextStage (stage s)
  /\ length (board s') = (length (board s) + boardCardsDealt (stage s))%nat
  /\ (stage s' <> Showdown -> turn s' = button s).

(** [Switched who s s']: the stage and the board are as before and the
    turn is [who]'s. *)
Definition Switched (who : Seat) (s s' : GameState) : Prop :=
  stage s' = stage s /\ board s' = board s /\ turn s' = who.

(** *** The pool of the equity estimator *)

(** The pool of unseen cards as the specification words it: the full
    52-card set minus the hero's cards minus the known board. *)
Definition specifiedPool (heroCards knownBoard : list slot) : list Card :=
  filter (fun x => negb (slotIncludes heroCards x)
                   && negb (slotIncludes knownBoard x)) newDeck.

(** The pool of the estimate [aiAction] asks for (lines 733-734):
    [computeEquity(opp.cards, gameState.board.slice(), gameState.deck, 150)]. *)
Definition aiEquityPool (s : GameState) : list Card :=
  remainingOf (cards (opponent s)) (board s) (deck s).

(** No card occurs twice. *)
Fixpoint distinct (l : list Card) : bool :=
  match l with
  | [] => true
  | x :: rest => negb (includes rest x) && distinct rest
  end.

(** What holds of the cards during a hand: the deck has no duplicate and
    at most 48 cards, no card held or on the board is still in it, and the
    player's two cards are neither the opponent's nor on the board. *)
Record Unseen (s : GameState) : Prop := mkUnseen {
  unseen_nodup : NoDup (deck s);
  unseen_gone :
    forall x, In (Some x) (cards (player s))
              \/ In (Some x) (cards (opponent s))
              \/ In (Some x) (board s) -> ~ In x (deck s);
  unseen_apart :
    forall x, In (Some x) (cards (player s)) ->
              ~ In (Some x) (cards (opponent s)) /\ ~ In (Some x) (board s);
  unseen_two : exists x1 x2, cards (player s) = [Some x1; Some x2];
  unseen_length : (length (deck s) <= 48)%nat
}.

(** *** Sample runs

    All of them in an 'equal' match (10000 chips each, big blind 100)
    against the 'weinman' opponent, whose
    shuffles leave the deck in the order of [new Deck()]: the player is
    dealt the ace and king of clubs, the opponent the queen and jack. *)

(** The first hand, the opponent on the button, played to the river by
    checks: the player checks the big blind, the opponent calls, then the
    opponent, first to act on each later street, checks it through. *)
Definition checkedDown : list HandEvent :=
  [UserActs check 0; AiActs check 0; AiActs check 0; AiActs check 0;
   AiActs check 0].

(** The first hand with the opponent to act before the flop: the player
    has checked the big blind. *)
Definition opponentToAct : GameState :=
  play [UserActs check 0] (stateOf (startHand keepOrder (initState equal weinman))).

(** The player folds the first hand and clicks for the next: the second
    hand is dealt with the player on the button. *)
Definition secondHandDealt : GameState :=
  clickNextHand keepOrder
    (play [UserActs fold 0] (stateOf (initGame equal weinman keepOrder))).

(** The opponent acts first in it and checks the big blind. *)
Definition secondHandOpened : GameState :=
  play [AiActs check 0] secondHandDealt.

(** That second hand checked down to the river: the player calls and then,
    first to act on each later street, checks it through. *)
Definition secondHandCheckedDown : GameState :=
  play [UserActs check 0; UserActs check 0; UserActs check 0;
        UserActs check 0] secondHandOpened.

(** Equal stacks of 100 big blinds with the button on the opponent's seat,
    so that the hand [startHand] begins has the player on the button (as
    after a first hand that ended in a split pot). *)
Definition beforeSecondHand : GameState :=
  withButton seatOpponent (initState equal weinman).

(** A river state in which both players play the board, a royal flush in
    hearts, with an odd pot of 151 chips. *)
Definition tiedOddPot : GameState :=
  mkGameState weinman 100
    (mkPlayer [Some (mkCard R2 Spades); Some (mkCard R3 Spades)] 9925 0 false)
    (mkPlayer [Some (mkCard R2 Diamonds); Some (mkCard R3 Diamonds)] 9924 0
       false)
    seatPlayer []
    [Some (mkCard RA Hearts); Some (mkCard RK Hearts); Some (mkCard RQ Hearts);
     Some (mkCard RJ Hearts); Some (mkCard RT Hearts)]
    151 River [] seatPlayer true 0.

(* ================================================================== *)
(** ** The hand analysis (app.js lines 923-969) *)

(** The [advice] texts of [performAnalysis] (lines 935-949), in the order
    of the source: "Folding may be too tight; your equity was decent.",
    "Folding is reasonable with low equity.", "Good call based on
    equity.", "Checking is fine.", "Calling may be unprofitable based on
    pot odds.", "Aggressive play with strong equity." and "Bluff/semi-bluff;
    ensure you have fold equity." *)
Inductive Advice : Type :=
| FoldingTooTight | FoldingReasonable
| GoodCall | CheckingFine | CallingUnprofitable
| AggressiveWithEquity | BluffOrSemiBluff.

(** The [disguise] texts (lines 955-962): "You under-represented a strong
    hand (good for trapping).", "You represented strength while weak
    (bluffing).", "Your strong hand was evident; consider mixing in checks
    to disguise." and "Normal play." *)
Inductive Disguise : Type :=
| UnderRepresented | RepresentedStrength | StrengthEvident | NormalPlay.

(** What one block of the analysis text is made of. *)
Record AnalysisLine : Type := mkAnalysisLine {
  lineStage : Stage;
  lineAction : LoggedAction;
  lineBet : Q;
  lineEquity : float;
  lineAdvice : Advice;
  lineDisguise : Disguise
}.

(** The choice of [advice] from the logged action, its [bet] and [pot]
    and the estimate. *)
Definition adviceFor (action : LoggedAction) (betOf potOf : Q)
  (equity : float) : Advice :=
  match action with
  | logFold =>
      if PrimFloat.ltb 0.25 equity then FoldingTooTight
      else FoldingReasonable
  | logCall | logCheck =>
      let callCost :=
        match action with logCall => betOf | _ => 0 end in
      let potAfter := potOf + callCost in
      let potOdds :=
        if positive callCost
        then (numberOfChips callCost / numberOfChips potAfter)%float
        else 0%float in
      if PrimFloat.ltb (potOdds + 0.05) equity then GoodCall
      else if Qeq_bool callCost 0 then CheckingFine
      else CallingUnprofitable
  | logRaise | logAllin =>
      if PrimFloat.ltb 0.5 equity then AggressiveWithEquity
      else BluffOrSemiBluff
  end.

(** The choice of [disguise] from the category of the hand and the
    action. *)
Definition disguiseFor (cat : Z) (action : LoggedAction) : Disguise :=
  let passive :=
    match action with logCheck | logCall => true | _ => false end in
  let aggressive :=
    match action with logRaise | logAllin => true | _ => false end in
  if ((cat >=? 5)%Z && passive)%bool then UnderRepresented
  else if ((cat <=? 1)%Z && aggressive)%bool then RepresentedStrength
  else if ((cat >=? 5)%Z && aggressive)%bool then StrengthEvident
  else NormalPlay.

(** [evaluateHand] applied to an array of the game.  Its first loop reads
    [c.rank] of every element of the sorted copy (lines 75-77), so an
    [undefined] element throws a TypeError ([None]) whatever the length
    of the array. *)
Definition evaluateSlots (arr : list slot) : option HandRank :=
  match allDefined arr with
  | Some cs => Some (evaluateHand cs)
  | None => None
  end.

(** The loop of [performAnalysis] over the log, with the deck of the
    game; [rnd k] is the oracle of the [k]-th estimate it asks for.
    [None] when an estimate or an evaluation throws. *)
Fixpoint analyse (rnd : nat -> nat -> nat -> nat) (d : Deck)
  (log : list LogEntry) (k : nat) : option (list AnalysisLine) :=
  match log with
  | [] => Some []
  | ActionEntry st seatPlayer action betOf potOf bd cs :: rest =>
      match computeEquity (rnd k) cs bd d 100 with
      | None => None
      | Some equity =>
          let advice := adviceFor action betOf potOf equity in
          match evaluateSlots (cs ++ bd) with
          | None => None
          | Some evalRes =>
              let disguise := disguiseFor (category evalRes) action in
              match analyse rnd d rest (S k) with
              | None => None
              | Some lines =>
                  Some (mkAnalysisLine st action betOf equity advice disguise
                          :: lines)
              end
          end
      end
  | _ :: rest => analyse rnd d rest k
  end.

(** [performAnalysis()]: the blocks of the text it shows. *)
Definition performAnalysis (rnd : nat -> nat -> nat -> nat) (s : GameState)
  : option (list AnalysisLine) :=
  analyse rnd (deck s) (actionLog s) 0.

(* ================================================================== *)
(** ** The end of the match (app.js lines 380-388, 971-982) *)

(** [endTitle.textContent] as [showEnd] sets it: 'Victory!' or 'Defeat'. *)
Inductive EndTitle : Type := Victory | Defeat.

(** [showEnd()]: the title it shows. *)
Definition showEnd (s : GameState) : EndTitle :=
  if less (stack (opponent s)) (stack (player s)) then Victory else Defeat.

(** The click handler of [nextHandBtn] as far as the end screen goes: the
    title shown when a stack is empty, [None] when the next hand is
    started instead. *)
Definition nextHandScreen (s : GameState) : option EndTitle :=
  if Qle_bool (stack (player s)) 0 || Qle_bool (stack (opponent s)) 0
  then Some (showEnd s) else None.

(* ================================================================== *)
(** ** Vocabulary of the further properties *)

(** *** The deck *)

(** [n] calls of [deal()] in a row: what they return, first call first,
    and the deck they leave. *)
Fixpoint dealTimes (n : nat) (d : Deck) : list (option Card) * Deck :=
  match n with
  | O => ([], d)
  | S n' =>
      let '(vs, d') := dealTimes n' (afterDeal d) in (dealt d :: vs, d')
  end.

(** *** The evaluator on sorted ranks *)

(** Whether every card of the hand has the suit of the first one. *)
Definition sameSuit (hand : list Card) : bool :=
  match hand with
  | [] => true
  | c :: rest => forallb (fun d => Suit_eqb (suit d) (suit c)) rest
  end.

(** [counts] of [evaluate5], filled from the ranks alone. *)
Definition countsOf (rs : list Rank) : list (Rank * Z) :=
  fold_left (fun o r => bump Rank_eqb r o) rs [].

(** [evaluate5] as it reads a five-card hand: through the ranks of the
    sorted copy and through whether the five suits agree. *)
Definition evaluateRanks (rs : list Rank) (flush : bool) : HandRank :=
  let vals := map RANK_VALUES rs in
  let counts := countsOf rs in
  let straight := straightOf (unique vals) in
  let straightFlush :=
    match straight with
    | Some _ =>
        if flush then straightOf (sortDesc (fun v => v) (unique vals))
        else None
    | None => None
    end in
  match straightFlush with
  | Some sfHigh => mkHandRank 8 [some sfHigh]
  | None =>
  let keys := rankKeys counts in
  match find (fun r => (countOf counts r =? 4)%Z) keys with
  | Some quadsRank =>
      let kicker :=
        find (fun v => negb (v =? RANK_VALUES quadsRank)%Z) vals in
      mkHandRank 7 [some (RANK_VALUES quadsRank); kicker]
  | None =>
  let tripsRank := maxKey (fun r => (countOf counts r =? 3)%Z) keys in
  let pairRank :=
    match tripsRank with
    | Some t =>
        maxKey (fun r => negb (Rank_eqb r t) && (countOf counts r >=? 2)%Z) keys
    | None => None
    end in
  match tripsRank, pairRank with
  | Some t, Some p => mkHandRank 6 [some (RANK_VALUES t); some (RANK_VALUES p)]
  | _, _ =>
  if flush then
    mkHandRank 5 (map some (firstn 5 (sortDesc (fun v => v) vals)))
  else
  match straight with
  | Some straightHigh => mkHandRank 4 [some straightHigh]
  | None =>
  match tripsRank with
  | Some t =>
      let kickers := filter (fun v => negb (v =? RANK_VALUES t)%Z) vals in
      mkHandRank 3 (some (RANK_VALUES t) :: map some (firstn 2 kickers))
  | None =>
  let pairs :=
    sortDesc RANK_VALUES (filter (fun r => (countOf counts r =? 2)%Z) keys) in
  match pairs with
  | hp :: lp :: _ =>
      let highPair := RANK_VALUES hp in
      let lowPair := RANK_VALUES lp in
      let kickerVal :=
        find (fun v => negb (v =? highPair)%Z && negb (v =? lowPair)%Z) vals in
      mkHandRank 2 [some highPair; some lowPair; kickerVal]
  | [p] =>
      let pairVal := RANK_VALUES p in
      let kickers := firstn 3 (filter (fun v => negb (v =? pairVal)%Z) vals) in
      mkHandRank 1 (some pairVal :: map some kickers)
  | [] =>
  mkHandRank 0 (map some (firstn 5 vals))
  end end end end end end.

(** Sorted in descending order of the key. *)
Fixpoint descending {A : Type} (key : A -> Z) (l : list A) : Prop :=
  match l with
  | [] => True
  | x :: rest =>
      (match rest with [] => True | y :: _ => (key y <= key x)%Z end)
      /\ descending key rest
  end.

(** The arrays of [k] ranks in descending order, none above [bound]. *)
Fixpoint descLists (k : nat) (bound : Z) : list (list Rank) :=
  match k with
  | O => [[]]
  | S k' =>
      flat_map
        (fun r =>
           if (RANK_VALUES r <=? bound)%Z
           then map (cons r) (descLists k' (RANK_VALUES r))
           else [])
        RANKS
  end.

(** [P] on every sorted array of five ranks, with and without a flush. *)
Definition allFiveCardHands (P : list Rank -> bool -> HandRank -> bool)
  : bool :=
  forallb
    (fun rs => P rs true (evaluateRanks rs true)
               && P rs false (evaluateRanks rs false))
    (descLists 5 14).

(** The number of tie-break values of each category. *)
Definition arity (cat : Z) : nat :=
  match cat with
  | 8%Z | 4%Z => 1
  | 7%Z | 6%Z => 2
  | 3%Z | 2%Z => 3
  | 1%Z => 4
  | 5%Z | 0%Z => 5
  | _ => 0
  end%nat.

Definition isRankValue (v : jsnum) : bool :=
  match v with
  | Some z => (2 <=? z)%Z && (z <=? 14)%Z
  | None => false
  end.

(** A category from 0 to 8 with as many tie-break values as the category
    has, each a rank value. *)
Definition wellFormed (hr : HandRank) : bool :=
  (0 <=? category hr)%Z && (category hr <=? 8)%Z
  && (length (values hr) =? arity (category hr))%nat
  && forallb isRankValue (values hr).

(** *** Ranks as lists of numbers; selections of five *)

(** As many tie-break values as the category has, none of them
    [undefined]; the ["no hand yet"] value [{category: -1, values: []}]
    of [evaluateHand] has none. *)
Definition shaped (hr : HandRank) : bool :=
  (length (values hr) =? arity (category hr))%nat
  && forallb (fun v => match v with Some _ => true | None => false end)
             (values hr).

Definition numbers (hr : HandRank) : list Z :=
  map (fun v => match v with Some z => z | None => 0%Z end) (values hr).

(** Lexicographic comparison of two arrays of numbers. *)
Fixpoint Zlex (a b : list Z) : Z :=
  match a, b with
  | x :: a', y :: b' =>
      if (x >? y)%Z then 1%Z
      else if (x <? y)%Z then (-1)%Z
      else Zlex a' b'
  | _, _ => 0%Z
  end.

(** The step of the loop of [evaluateHand] over the combinations. *)
Definition keepBest (best : HandRank) (hand : list Card) : HandRank :=
  let evalResult := evaluate5 hand in
  if (category evalResult >? category best)%Z then evalResult
  else if (category evalResult =? category best)%Z then
    if isBetter (values evalResult) (values best) then evalResult
    else best
  else best.

(** [five] is made of cards of [cards], each taken at most as often as
    it is there. *)
Definition selection (five cards : list Card) : Prop :=
  exists rest, Permutation (five ++ rest) cards.

Inductive subseq {A : Type} : list A -> list A -> Prop :=
| subseq_nil : subseq [] []
| subseq_take (x : A) (c l : list A) : subseq c l -> subseq (x :: c) (x :: l)
| subseq_skip (x : A) (c l : list A) : subseq c l -> subseq c (x :: l).

(** [{category: -1, values: []}], the value [evaluateHand] starts from. *)
Definition noHand : HandRank := mkHandRank (-1) [].

(** *** The ranking of poker hands, as a reference

    Over the five rank values of a hand in descending order and whether
    the five suits agree, with the category numbers of the comment above
    [evaluateHand] (lines 66-68). *)

(** How many of the five cards have the value [v]. *)
Definition timesIn (vs : list Z) (v : Z) : Z :=
  Z.of_nat (length (filter (Z.eqb v) vs)).

(** Some value occurs exactly [n] times. *)
Definition hasGroupOf (n : Z) (vs : list Z) : bool :=
  existsb (fun v => (timesIn vs v =? n)%Z) vs.

(** The number of distinct values that occur exactly twice. *)
Definition pairsIn (vs : list Z) : nat :=
  length (unique (filter (fun v => (timesIn vs v =? 2)%Z) vs)).

(** The top of the straight: five consecutive values, or the wheel
    A-5-4-3-2 whose top is the five. *)
Definition straightTop (vs : list Z) : option Z :=
  match vs with
  | [a; b; c; d; e] =>
      if ((a - 1 =? b) && (b - 1 =? c) && (c - 1 =? d) && (d - 1 =? e))%Z
      then Some a
      else if ((a =? 14) && (b =? 5) && (c =? 4) && (d =? 3) && (e =? 2))%Z
      then Some 5%Z
      else None
  | _ => None
  end.

Definition isSome {A : Type} (o : option A) : bool :=
  match o with Some _ => true | None => false end.

Definition referenceCategory (vs : list Z) (flush : bool) : Z :=
  if isSome (straightTop vs) && flush then 8
  else if hasGroupOf 4 vs then 7
  else if hasGroupOf 3 vs && hasGroupOf 2 vs then 6
  else if flush then 5
  else if isSome (straightTop vs) then 4
  else if hasGroupOf 3 vs then 3
  else if (pairsIn vs =? 2)%nat then 2
  else if hasGroupOf 2 vs then 1
  else 0.

(** The tie-break values: the top of a straight; the five values of a
    flush or of a high-card hand; otherwise the distinct values, those
    that occur more often first and the larger first among those that
    occur equally often. *)
Definition referenceValues (vs : list Z) (flush : bool) : list Z :=
  match referenceCategory vs flush with
  | 8%Z | 4%Z =>
      match straightTop vs with Some top => [top] | None => [] end
  | 5%Z | 0%Z => vs
  | _ => unique (sortDesc (fun v => (100 * timesIn vs v + v)%Z) vs)
  end.

Definition referenceRank (vs : list Z) (flush : bool) : HandRank :=
  mkHandRank (referenceCategory vs flush)
             (map Some (referenceValues vs flush)).

Definition HandRank_eqb (a b : HandRank) : bool :=
  (category a =? category b)%Z
  && (length (values a) =? length (values b))%nat
  && forallb (fun p => match p with
                       | (Some x, Some y) => (x =? y)%Z
                       | (None, None) => true
                       | _ => false
                       end) (combine (values a) (values b)).

(** *** The starting-hand heuristic *)

(** Both cards are aces. *)
Definition pocketAces (c0 c1 : Card) : bool :=
  ((RANK_VALUES (rank c0) =? 14)%Z && (RANK_VALUES (rank c1) =? 14)%Z)%bool.

(** The score of a holding is 1 for two aces and below 1 for the rest. *)
Definition oneOnlyForAces (c0 c1 : Card) : bool :=
  match startingHandStrength [c0; c1] with
  | Some x =>
      if pocketAces c0 c1 then PrimFloat.eqb x 1 else PrimFloat.ltb x 1
  | None => false
  end.

(** *** Cards and chips on the table; a match *)

(** The cards that are somewhere on the table: the four hole cards, the
    board and what is left of the deck. *)
Definition cardsInPlay (s : GameState) : list slot :=
  cards (player s) ++ cards (opponent s) ++ board s ++ map Some (deck s).

Definition boardSize (st : Stage) : nat :=
  match st with
  | Preflop => 0
  | Flop => 3
  | Turn => 4
  | River | Showdown => 5
  end.

Definition deckSize (st : Stage) : nat :=
  match st with
  | Preflop => 48
  | Flop => 44
  | Turn => 42
  | River | Showdown => 40
  end.

(** What holds of the table from the first deal of a match on. *)
Record Table (s : GameState) : Prop := mkTable {
  table_holes :
    exists c1 c2 c3 c4,
      cards (player s) = [Some c1; Some c2]
      /\ cards (opponent s) = [Some c3; Some c4];
  table_board : noneUndefined (board s);
  table_distinct : NoDup (cardsInPlay s);
  table_street :
    exists street,
      street <> Showdown
      /\ (stage s = street \/ stage s = Showdown)
      /\ length (board s) = boardSize street
      /\ length (deck s) = deckSize street
}.

(** No chip count is negative. *)
Record Solvent (s : GameState) : Prop := mkSolvent {
  solvent_stacks : 0 <= stack (player s) /\ 0 <= stack (opponent s);
  solvent_bets : 0 <= currentBet (player s) /\ 0 <= currentBet (opponent s);
  solvent_pot : 0 <= pot s;
  solvent_blind : 0 <= bigBlind s
}.

(** An event whose chip amount is not negative, as the amounts of the
    game are: the raise slider has minimum 0, and the opponent's
    [raiseAmount] is computed from the big blind and the bet it faces by
    sums, products with factors that are not negative and [Math.floor]. *)
Definition sensible (e : HandEvent) : Prop :=
  match e with
  | UserActs _ r | AiActs _ r => 0 <= r
  | AiThrows => True
  end.

(** The events of a match: those of a hand, and the click on
    [nextHandBtn] with the oracle of the shuffle it may start. *)
Inductive MatchEvent : Type :=
| InHand (e : HandEvent)
| NextHand (rnd : nat -> nat).

Definition matchStep (e : MatchEvent) (s : GameState) : GameState :=
  match e with
  | InHand e => handStep e s
  | NextHand rnd => clickNextHand rnd s
  end.

Definition playMatch (events : list MatchEvent) (s : GameState) : GameState :=
  fold_left (fun s e => matchStep e s) events s.

Definition sensibleInMatch (e : MatchEvent) : Prop :=
  match e with
  | InHand e => sensible e
  | NextHand _ => True
  end.

(** The cards part of the invariant, without the link to the stage. *)
Definition Laid (s : GameState) : Prop :=
  noneUndefined (board s) /\ NoDup (cardsInPlay s).

(** *** The equity estimate *)

(** The cards one run of [computeEquity] takes from the pool: two for the
    sampled opponent and one for each missing board card. *)
Definition cardsPerRun (knownBoard : list slot) : nat :=
  2 + (5 - length knownBoard).

(** [(wins + ties / 2) / runs] *)
Definition equityOf (wins ties : Z) (runs : nat) : float :=
  ((numberOf wins + numberOf ties / 2) / numberOf (Z.of_nat runs))%float.

(** Half of [k], the value of [wins + ties / 2] when
    [k = 2 * wins + ties]. *)
Definition halfOf (k : nat) : float := (numberOf (Z.of_nat k) / 2)%float.

(** [wins + ties / 2] is computed exactly for every tally of up to
    [maxRuns] runs. *)
Definition talliesExact (maxRuns : nat) : bool :=
  forallb
    (fun w =>
       forallb
         (fun t =>
            PrimFloat.Leibniz.eqb
              (numberOf (Z.of_nat w) + numberOf (Z.of_nat t) / 2)%float
              (halfOf (2 * w + t)))
         (seq 0 (S (maxRuns - w))))
    (seq 0 (S maxRuns)).

(** Dividing it by the number of runs gives a number between 0 and 1. *)
Definition quotientsInUnitInterval (maxRuns : nat) : bool :=
  forallb
    (fun n =>
       forallb
         (fun k =>
            inUnitInterval (halfOf k / numberOf (Z.of_nat (S n)))%float)
         (seq 0 (S (2 * S n))))
    (seq 0 maxRuns).

(** *** The betting round *)

(** What is fixed when a hand starts: the opponent's style, the big blind
    and the button. *)
Definition seating (s : GameState) : Style * Q * Seat :=
  (opponentType s, bigBlind s, button s).

(** [who] is all in for less than the other player has bet, and nobody
    has folded. *)
Definition calledShort (who : Seat) (s : GameState) : Prop :=
  stack (seated who s) == 0
  /\ currentBet (seated who s) < currentBet (seated (other who) s)
  /\ 0 <= stack (seated (other who) s)
  /\ folded (player s) = false /\ folded (opponent s) = false.

(** An event that is not a fold and whose amount is not negative. *)
Definition playsOn (e : HandEvent) : Prop :=
  match e with
  | UserActs a r | AiActs a r => a <> fold /\ 0 <= r
  | AiThrows => True
  end.

(** [who]'s check or call leaves the two bets equal: they are equal
    already (a check), or [who] owes the difference and has the chips for
    it (a call that is not a call for less). *)
Definition closesBetting (who : Seat) (s : GameState) : Prop :=
  let mine := currentBet (seated who s) in
  let theirs := currentBet (seated (other who) s) in
  mine == theirs \/ (mine < theirs /\ theirs - mine <= stack (seated who s)).

(** The first hand of a 'big' match (15000 chips against 5000), dealt
    from the unshuffled deck: the player moves all in and the opponent
    calls with the 4950 chips it has left. *)
Definition calledForLess : GameState :=
  play [UserActs allin 0; AiActs check 0]
       (stateOf (initGame big weinman keepOrder)).

(** The second hand of the sample match on the river, the player to act. *)
Definition secondHandRiver : GameState :=
  play [UserActs check 0; UserActs check 0; UserActs check 0] secondHandOpened.

(** The second hand of the sample match on the river, the player facing a
    raise: the player has bet 100 and the opponent has raised 100 more. *)
Definition secondHandRiverRaised : GameState :=
  play [UserActs raise 100; AiActs raise 100] secondHandRiver.

(** The first hand of the sample match on the flop, the opponent to act. *)
Definition firstHandFlop : GameState :=
  play [UserActs check 0; AiActs check 0]
       (stateOf (initGame equal weinman keepOrder)).

(** What the player owes to match the opponent: [toCall] of
    [userAction]. *)
Definition owedByPlayer (s : GameState) : Q :=
  Qmax 0 (currentBet (opponent s) - currentBet (player s)).

(** The second hand of an 'equal' match, the player left with 4900 chips
    by the first: the opponent has opened with a raise of 6000 and the
    player owes 6050, more than the 4850 chips in the player's stack. *)
Definition facingABigRaise : GameState :=
  play [AiActs raise 6000]
    (clickNextHand keepOrder
       (play [UserActs raise 5000; AiActs raise 1000; UserActs fold 0]
             (stateOf (initGame equal weinman keepOrder)))).

(** The pot is kept and the log keeps its entries. *)
Definition grows (s s' : GameState) : Prop :=
  pot s' = pot s /\ incl (actionLog s) (actionLog s').

(** [toCall] of [aiAction]: what the opponent owes to match the player. *)
Definition owedByOpponent (s : GameState) : Q :=
  Qmax 0 (currentBet (player s) - currentBet (opponent s)).

(** The first hand of a 'short' match against 'salas', dealt from the
    unshuffled deck, with the opponent's stack cut to 900 chips, nine big
    blinds. *)
Definition shortStacked : GameState :=
  let s := stateOf (initGame short salas keepOrder) in
  withOpponent (withStack 900 (opponent s)) s.

(** *** The action log and the analysis *)

(** The entries of the log written by the player's actions. *)
Definition playerEntries (log : list LogEntry) : list LogEntry :=
  filter (fun e => match e with
                   | ActionEntry _ seatPlayer _ _ _ _ _ => true
                   | _ => false
                   end) log.

(** Every entry of the log holds the cards of its actor as they are now
    and a board that is part of the present one, empty if the entry was
    written before the flop. *)
Definition Logged (s : GameState) : Prop :=
  forall st who a b p bd cs,
    In (ActionEntry st who a b p bd cs) (actionLog s) ->
    cs = cards (seated who s) /\ incl bd (board s) /\ noneUndefined bd
    /\ (st = Preflop -> bd = []).

(** What a block of the analysis says of the entry it was written for. *)
Definition lineOf (e : LogEntry) (l : AnalysisLine) : Prop :=
  match e with
  | ActionEntry st _ a b p bd cs =>
      lineStage l = st /\ lineAction l = a /\ lineBet l = b
      /\ lineAdvice l = adviceFor a b p (lineEquity l)
      /\ exists hr, evaluateSlots (cs ++ bd) = Some hr
                    /\ lineDisguise l = disguiseFor (category hr) a
  | ShowdownEntry _ => False
  end.

(** *** A match that ends *)

(** A 'short' match decided in its first hand, dealt from the unshuffled
    deck: the player moves all in, the opponent calls and checks the
    streets down. *)
Definition allInFirstHand : list MatchEvent :=
  [InHand (UserActs allin 0); InHand (AiActs check 0);
   InHand (AiActs check 0); InHand (AiActs check 0);
   InHand (AiActs check 0)].

(* ================================================================== *)
(** * Properties *)

(** ** Equality tests *)

Lemma Suit_eqb_eq (a b : Suit) : Suit_eqb a b = true <-> a = b.
Proof. destruct a, b; simpl; split; intro H; congruence. Qed.

Lemma Rank_eqb_eq (a b : Rank) : Rank_eqb a b = true <-> a = b.
Proof.
  unfold Rank_eqb. rewrite Z.eqb_eq.
  destruct a, b; simpl; split; intro H; congruence.
Qed.

Lemma Card_eqb_eq (a b : Card) : Card_eqb a b = true <-> a = b.
Proof.
  unfold Card_eqb. rewrite andb_true_iff, Rank_eqb_eq, Suit_eqb_eq.
  destruct a, b; simpl; split.
  - intros [-> ->]; reflexivity.
  - intro H; inversion H; auto.
Qed.

(** ** The deck *)

Lemma pop_last {A : Type} (arr : list A) (x : A) :
  pop (arr ++ [x]) = (Some x, arr).
Proof.
  induction arr as [|a arr IH]; [reflexivity|].
  change ((a :: arr) ++ [x]) with (a :: (arr ++ [x])).
  cbn [pop]. rewrite IH.
  destruct (arr ++ [x]) eqn:E; [|reflexivity].
  now destruct arr.
Qed.

Lemma pop_nonempty {A : Type} (arr : list A) :
  (1 <= length arr)%nat ->
  exists x rest, arr = rest ++ [x] /\ pop arr = (Some x, rest).
Proof.
  intro H. destruct (exists_last (l := arr)) as (rest & x & ->).
  - destruct arr; simpl in H; [lia | discriminate].
  - exists x, rest. split; [reflexivity | apply pop_last].
Qed.

(** [deal] is [pop] on the [cards] array. *)
Lemma deal_is_pop (d : Deck) : deal d = (Returns (dealt d), afterDeal d).
Proof. unfold deal, dealt, afterDeal. destruct (pop d). reflexivity. Qed.

(** C5 (amended). [deal()] on an empty deck returns [undefined] and leaves
    the deck empty: no error is raised.  On a deck whose last card is [x]
    it returns [x] and leaves the cards before it. *)
Theorem deal_returns_last_or_undefined :
  deal [] = (Returns None, [])
  /\ forall (d : Deck) (x : Card), deal (d ++ [x]) = (Returns (Some x), d).
Proof.
  split; [reflexivity|].
  intros d x. unfold deal. now rewrite pop_last.
Qed.

(** C5, as claimed, fails: the call on the empty deck does not report
    [DeckExhausted]; it returns the value [undefined]. *)
Lemma deal_empty_raises_nothing :
  fst (deal []) <> Raises DeckExhausted /\ fst (deal []) = Returns None.
Proof. split; [discriminate | reflexivity]. Qed.

(** ** The evaluator *)

(** One hand of each category, from the straight flush down to the high
    card. *)
Example evaluate5_by_category :
  evaluate5 [mkCard R9 Hearts; mkCard RK Hearts; mkCard RT Hearts;
             mkCard RQ Hearts; mkCard RJ Hearts]
  = mkHandRank 8 [Some 13%Z]
  /\ evaluate5 [mkCard R6 Spades; mkCard R6 Hearts; mkCard R3 Clubs;
                mkCard R6 Diamonds; mkCard R6 Clubs]
     = mkHandRank 7 [Some 6%Z; Some 3%Z]
  /\ evaluate5 [mkCard R6 Spades; mkCard RT Hearts; mkCard R6 Clubs;
                mkCard RT Diamonds; mkCard R6 Hearts]
     = mkHandRank 6 [Some 6%Z; Some 10%Z]
  /\ evaluate5 [mkCard R6 Spades; mkCard RK Spades; mkCard R7 Spades;
                mkCard RA Spades; mkCard R3 Spades]
     = mkHandRank 5 [Some 14%Z; Some 13%Z; Some 7%Z; Some 6%Z; Some 3%Z]
  /\ evaluate5 [mkCard RT Spades; mkCard RA Hearts; mkCard RQ Spades;
                mkCard RK Diamonds; mkCard RJ Spades]
     = mkHandRank 4 [Some 14%Z]
  /\ evaluate5 [mkCard R6 Spades; mkCard RK Hearts; mkCard R6 Clubs;
                mkCard R6 Diamonds; mkCard R3 Clubs]
     = mkHandRank 3 [Some 6%Z; Some 13%Z; Some 3%Z]
  /\ evaluate5 [mkCard R6 Spades; mkCard RJ Hearts; mkCard R3 Spades;
                mkCard R3 Diamonds; mkCard RJ Clubs]
     = mkHandRank 2 [Some 11%Z; Some 3%Z; Some 6%Z]
  /\ evaluate5 [mkCard R6 Spades; mkCard RK Hearts; mkCard R6 Clubs;
                mkCard RA Diamonds; mkCard R3 Clubs]
     = mkHandRank 1 [Some 6%Z; Some 14%Z; Some 13%Z; Some 3%Z]
  /\ evaluate5 [mkCard R6 Spades; mkCard RK Hearts; mkCard R7 Clubs;
                mkCard RA Diamonds; mkCard R3 Clubs]
     = mkHandRank 0 [Some 14%Z; Some 13%Z; Some 7%Z; Some 6%Z; Some 3%Z].
Proof. repeat split; vm_compute; reflexivity. Qed.

(** Seven cards: the best of the 21 five-card subsets. *)
Example evaluateHand_best_of_seven :
  evaluateHand [mkCard RA Spades; mkCard RA Hearts; mkCard RK Spades;
                mkCard RK Hearts; mkCard RK Clubs; mkCard RA Clubs;
                mkCard R2 Clubs]
  = mkHandRank 6 [Some 14%Z; Some 13%Z]
  /\ length (combinations 5 [1; 2; 3; 4; 5; 6; 7]%Z) = 21%nat
  /\ evaluateHand [mkCard RA Spades; mkCard RK Spades] = mkHandRank (-1) [].
Proof. repeat split; vm_compute; reflexivity. Qed.

Lemma insertAll_In {A : Type} (x : A) (l1 l2 : list A) :
  In (l1 ++ x :: l2) (insertAll x (l1 ++ l2)).
Proof.
  induction l1 as [|y l1 IH]; simpl.
  - destruct l2; simpl; auto.
  - right. apply in_map. exact IH.
Qed.

Lemma orders_complete {A : Type} (l l' : list A) :
  Permutation l l' -> In l' (orders l).
Proof.
  revert l'. induction l as [|x t IH]; intros l' H.
  - apply Permutation_nil in H. subst. now left.
  - assert (Hin : In x l') by (eapply Permutation_in; [exact H | now left]).
    apply in_split in Hin. destruct Hin as (l1 & l2 & ->).
    apply Permutation_cons_app_inv in H.
    cbn [orders]. apply in_flat_map. exists (l1 ++ l2).
    split; [apply IH; exact H | apply insertAll_In].
Qed.

(** [evaluate5] and [evaluateHand] read their argument only through its
    sorted copy. *)
Lemma evaluate5_sorted (h h' : list Card) :
  sortDesc rankValue h = sortDesc rankValue h' -> evaluate5 h = evaluate5 h'.
Proof. unfold evaluate5. intros ->. reflexivity. Qed.

Lemma evaluateHand_sorted (h h' : list Card) :
  sortDesc rankValue h = sortDesc rankValue h' ->
  evaluateHand h = evaluateHand h'.
Proof. unfold evaluateHand. intros ->. reflexivity. Qed.

Lemma wheel_any_order (s1 s2 s3 s4 s5 : Suit) (hand : list Card) :
  Permutation (wheel s1 s2 s3 s4 s5) hand ->
  sortDesc rankValue hand = sortDesc rankValue (wheel s1 s2 s3 s4 s5).
Proof.
  intro H. apply orders_complete in H. vm_compute in H.
  repeat (destruct H as [<- | H]; [reflexivity|]). destruct H.
Qed.

Lemma sixHigh_any_order (s1 s2 s3 s4 s5 : Suit) (hand : list Card) :
  Permutation (sixHigh s1 s2 s3 s4 s5) hand ->
  sortDesc rankValue hand = sortDesc rankValue (sixHigh s1 s2 s3 s4 s5).
Proof.
  intro H. apply orders_complete in H. vm_compute in H.
  repeat (destruct H as [<- | H]; [reflexivity|]). destruct H.
Qed.

Lemma wheel_in_order (s1 s2 s3 s4 s5 : Suit) :
  evaluate5 (wheel s1 s2 s3 s4 s5)
  = (if oneSuit s1 s2 s3 s4 s5 then mkHandRank 8 [Some 5%Z]
     else mkHandRank 4 [Some 5%Z])
  /\ evaluateHand (wheel s1 s2 s3 s4 s5)
     = (if oneSuit s1 s2 s3 s4 s5 then mkHandRank 8 [Some 5%Z]
        else mkHandRank 4 [Some 5%Z]).
Proof. destruct s1, s2, s3, s4, s5; vm_compute; split; reflexivity. Qed.

Lemma sixHigh_in_order (s1 s2 s3 s4 s5 : Suit) :
  evaluate5 (sixHigh s1 s2 s3 s4 s5)
  = (if oneSuit s1 s2 s3 s4 s5 then mkHandRank 8 [Some 6%Z]
     else mkHandRank 4 [Some 6%Z])
  /\ evaluateHand (sixHigh s1 s2 s3 s4 s5)
     = (if oneSuit s1 s2 s3 s4 s5 then mkHandRank 8 [Some 6%Z]
        else mkHandRank 4 [Some 6%Z]).
Proof. destruct s1, s2, s3, s4, s5; vm_compute; split; reflexivity. Qed.

(** C6. The five cards A-2-3-4-5, in any order, evaluate to a straight
    (category 4) with tie-break vector [5] when their suits are mixed and
    to a straight flush (category 8) with tie-break vector [5] when they
    are all of one suit.  The six-high straight 6-5-4-3-2 evaluates
    likewise with vector [6], and [compareHands] puts the wheel below it,
    unless the wheel is a straight flush and the six-high straight is
    not. *)
Theorem wheel_evaluation
  (s1 s2 s3 s4 s5 t1 t2 t3 t4 t5 : Suit) (hand six : list Card) :
  Permutation (wheel s1 s2 s3 s4 s5) hand ->
  Permutation (sixHigh t1 t2 t3 t4 t5) six ->
  evaluate5 hand
  = (if oneSuit s1 s2 s3 s4 s5 then mkHandRank 8 [Some 5%Z]
     else mkHandRank 4 [Some 5%Z])
  /\ evaluate5 six
     = (if oneSuit t1 t2 t3 t4 t5 then mkHandRank 8 [Some 6%Z]
        else mkHandRank 4 [Some 6%Z])
  /\ compareHands hand six []
     = (if oneSuit s1 s2 s3 s4 s5 && negb (oneSuit t1 t2 t3 t4 t5)
        then 1%Z else (-1)%Z).
Proof.
  intros Hw H6.
  apply wheel_any_order in Hw. apply sixHigh_any_order in H6.
  destruct (wheel_in_order s1 s2 s3 s4 s5) as [W5 W7].
  destruct (sixHigh_in_order t1 t2 t3 t4 t5) as [S5 S7].
  split; [|split].
  - rewrite (evaluate5_sorted _ _ Hw). exact W5.
  - rewrite (evaluate5_sorted _ _ H6). exact S5.
  - unfold compareHands. rewrite !app_nil_r.
    rewrite (evaluateHand_sorted _ _ Hw), (evaluateHand_sorted _ _ H6).
    rewrite W7, S7.
    destruct (oneSuit s1 s2 s3 s4 s5), (oneSuit t1 t2 t3 t4 t5); reflexivity.
Qed.

Lemma wheel_evaluation_witness :
  let hand := [mkCard R2 Diamonds; mkCard RA Hearts; mkCard R3 Spades;
               mkCard R4 Spades; mkCard R5 Clubs] in
  let six := [mkCard R2 Clubs; mkCard R6 Hearts; mkCard R3 Diamonds;
              mkCard R4 Hearts; mkCard R5 Spades] in
  (Permutation (wheel Hearts Diamonds Spades Spades Clubs) hand
   /\ Permutation (sixHigh Hearts Clubs Diamonds Hearts Spades) six)
  /\ evaluate5 hand = mkHandRank 4 [Some 5%Z]
  /\ evaluate5 six = mkHandRank 4 [Some 6%Z]
  /\ compareHands hand six [] = (-1)%Z.
Proof.
  intros hand six.
  assert (H1 : Permutation (wheel Hearts Diamonds Spades Spades Clubs) hand)
    by apply perm_swap.
  assert (H2 : Permutation (sixHigh Hearts Clubs Diamonds Hearts Spades) six)
    by apply perm_swap.
  split; [split; assumption|].
  exact (wheel_evaluation Hearts Diamonds Spades Spades Clubs
           Hearts Clubs Diamonds Hearts Spades hand six H1 H2).
Defined.

Lemma js_gt_lt (a b : jsnum) : js_gt a b = js_lt b a.
Proof.
  destruct a as [x|], b as [y|]; simpl; try reflexivity.
  rewrite Z.gtb_ltb. reflexivity.
Qed.

Lemma js_gt_lt_excl (a b : jsnum) : js_gt a b = true -> js_lt a b = false.
Proof.
  destruct a as [x|], b as [y|]; simpl; try discriminate.
  rewrite Z.gtb_ltb, !Z.ltb_lt, Z.ltb_ge. lia.
Qed.

Lemma at_beyond (arr : list jsnum) (i : nat) :
  (length arr <= i)%nat -> at_ arr i = None.
Proof.
  intro H. unfold at_.
  destruct (nth_error arr i) eqn:E; [|reflexivity].
  apply nth_error_None in H. congruence.
Qed.

(** Past the end of either array the comparison loop finds no difference. *)
Lemma lexFrom_beyond (a b : list jsnum) (fuel i : nat) :
  (length a <= i \/ length b <= i)%nat -> lexFrom a b i fuel = 0%Z.
Proof.
  revert i. induction fuel as [|fuel IH]; intros i H; [reflexivity|].
  cbn [lexFrom].
  assert (Hg : js_gt (at_ a i) (at_ b i) = false /\
               js_lt (at_ a i) (at_ b i) = false).
  { destruct H as [H|H]; rewrite (at_beyond _ _ H);
      destruct (at_ a i), (at_ b i); simpl; auto. }
  destruct Hg as [-> ->]. apply IH. lia.
Qed.

Lemma lexFrom_antisym (a b : list jsnum) (k i n m : nat) :
  (Nat.min (length a) (length b) - i <= k)%nat ->
  (Nat.min (length a) (length b) - i <= n)%nat ->
  (Nat.min (length a) (length b) - i <= m)%nat ->
  lexFrom a b i n = (- lexFrom b a i m)%Z.
Proof.
  revert i n m. induction k as [|k IH]; intros i n m Hk Hn Hm.
  - rewrite !lexFrom_beyond by lia. reflexivity.
  - destruct n as [|n].
    { rewrite (lexFrom_beyond b a m i) by lia. reflexivity. }
    destruct m as [|m].
    { rewrite (lexFrom_beyond a b (S n) i) by lia. reflexivity. }
    cbn [lexFrom].
    rewrite (js_gt_lt (at_ b i) (at_ a i)).
    rewrite <- (js_gt_lt (at_ a i) (at_ b i)).
    destruct (js_gt (at_ a i) (at_ b i)) eqn:G.
    + rewrite (js_gt_lt_excl _ _ G). reflexivity.
    + destruct (js_lt (at_ a i) (at_ b i)); [reflexivity|].
      apply IH; lia.
Qed.

Lemma compareRanks_antisym (x y : HandRank) :
  compareRanks x y = (- compareRanks y x)%Z.
Proof.
  unfold compareRanks.
  rewrite !Z.gtb_ltb.
  destruct (Z.ltb_spec (category y) (category x)) as [H|H];
    destruct (Z.ltb_spec (category x) (category y)) as [H'|H'];
    try reflexivity; try lia.
  apply (lexFrom_antisym _ _ (length (values x))); lia.
Qed.

(** C7. [compareHands(A, B, board)] is the negation of
    [compareHands(B, A, board)], for all hands and boards (whatever their
    sizes and whether or not the cards are distinct); so it is 0 in one
    direction exactly when it is 0 in the other. *)
Theorem compareHands_antisymmetric (handA handB board : list Card) :
  compareHands handA handB board = (- compareHands handB handA board)%Z
  /\ (compareHands handA handB board = 0%Z
      <-> compareHands handB handA board = 0%Z).
Proof.
  assert (H : compareHands handA handB board
              = (- compareHands handB handA board)%Z)
    by apply compareRanks_antisym.
  split; [exact H|]. rewrite H. lia.
Qed.

(** ** The starting-hand heuristic *)

(** C8. On every two cards [startingHandStrength] returns the score the
    specification words, computed in binary64 in the order written, and
    that score lies between 0 and 1. *)
Theorem startingHandStrength_as_specified (c0 c1 : Card) :
  startingHandStrength [c0; c1] = Some (specifiedStrength c0 c1)
  /\ inUnitInterval (specifiedStrength c0 c1) = true.
Proof.
  destruct c0 as [r0 s0], c1 as [r1 s1].
  destruct r0, r1; destruct s0, s1; vm_compute; split; reflexivity.
Qed.

(** ** The betting state machine: chips *)

(** Reads the fields of the two records through their updates. *)
Ltac fields :=
  cbn [opponentType bigBlind player opponent button deck board pot stage actionLog turn
       awaitingUser aiTimers cards stack currentBet folded
       withCards withStack withCurrentBet withFolded withPlayer withOpponent
       withButton withDeck withBoard withPot withStage withActionLog withTurn
       withAwaitingUser withAiTimers seated withSeated stateOf resetBets
       fst snd] in *.

(** The same by call-by-value, for goals that run a whole handler. *)
Ltac run_fields :=
  cbv beta iota zeta delta
      [opponentType bigBlind player opponent button deck board pot stage actionLog turn
       awaitingUser aiTimers cards stack currentBet folded
       withCards withStack withCurrentBet withFolded withPlayer withOpponent
       withButton withDeck withBoard withPot withStage withActionLog withTurn
       withAwaitingUser withAiTimers seated withSeated stateOf resetBets
       fst snd other orb andThen
       startHand dealFromDeck postBlinds bet nextAction].

Lemma bet_chipTotal (who : Seat) (amount : Q) (s : GameState) :
  chipTotal (bet who amount s) == chipTotal s.
Proof. unfold chipTotal, bet. destruct who; fields; ring. Qed.

(** A bet moves chips from the stack to the pot and to [currentBet]; it
    touches nothing else. *)
Lemma bet_Betting (total : Q) (who : Seat) (amount : Q) (s : GameState) :
  Betting total s -> Betting total (bet who amount s).
Proof.
  intros [Ht Hp Ho Hcp Hco Hb Hd Hs].
  split; try (unfold bet; destruct who; fields; assumption).
  now rewrite bet_chipTotal.
Qed.

Lemma log_Betting (total : Q) (v : list LogEntry) (s : GameState) :
  Betting total s -> Betting total (withActionLog v s).
Proof. intros [Ht Hp Ho Hcp Hco Hb Hd Hs]. split; fields; assumption. Qed.

Lemma turn_Betting (total : Q) (v : Seat) (s : GameState) :
  Betting total s -> Betting total (withTurn v s).
Proof. intros [Ht Hp Ho Hcp Hco Hb Hd Hs]. split; fields; assumption. Qed.

Lemma awaiting_Betting (total : Q) (v : bool) (s : GameState) :
  Betting total s -> Betting total (withAwaitingUser v s).
Proof. intros [Ht Hp Ho Hcp Hco Hb Hd Hs]. split; fields; assumption. Qed.

Lemma timers_Betting (total : Q) (v : nat) (s : GameState) :
  Betting total s -> Betting total (withAiTimers v s).
Proof. intros [Ht Hp Ho Hcp Hco Hb Hd Hs]. split; fields; assumption. Qed.

Lemma resetBets_Betting (total : Q) (s : GameState) :
  Betting total s -> Betting total (resetBets s).
Proof. intros [Ht Hp Ho Hcp Hco Hb Hd Hs]. split; fields; assumption. Qed.

Create HintDb betting.

#[local] Hint Resolve bet_Betting log_Betting turn_Betting awaiting_Betting
  timers_Betting resetBets_Betting : betting.

Lemma nextAction_Betting (total : Q) (s : GameState) :
  Betting total s -> Betting total (stateOf (nextAction s)).
Proof.
  intro H. unfold nextAction.
  rewrite (betting_player_in _ _ H), (betting_opponent_in _ _ H).
  cbn [orb]. destruct (turn s); fields; auto with betting.
Qed.

Lemma allDefined_app (a b : list slot) :
  noneUndefined a -> noneUndefined b -> noneUndefined (a ++ b).
Proof.
  unfold noneUndefined. induction a as [|[x|] a IH]; intros Ha Hb; simpl in *.
  - exact Hb.
  - destruct (allDefined a) eqn:E; [|congruence].
    destruct (allDefined (a ++ b)) eqn:E'; [discriminate|].
    exfalso. apply IH; [discriminate | exact Hb | reflexivity].
  - congruence.
Qed.

Lemma compareSlots_defined (a b bd : list slot) :
  noneUndefined a -> noneUndefined b -> noneUndefined bd ->
  exists cmp, compareSlots a b bd = Some cmp.
Proof.
  unfold noneUndefined, compareSlots. intros Ha Hb Hbd.
  destruct (allDefined a); [|congruence].
  destruct (allDefined b); [|congruence].
  destruct (allDefined bd); [|congruence].
  eauto.
Qed.

(** The award adds the whole pot to the stacks and leaves [pot] as it is. *)
Lemma awardPot_stackTotal (w : option bool) (s : GameState) :
  stackTotal (awardPot w s) == chipTotal s /\ pot (awardPot w s) = pot s
  /\ stage (awardPot w s) = stage s.
Proof.
  unfold stackTotal, chipTotal, awardPot.
  destruct w as [[|]|]; fields; repeat split; try reflexivity; field.
Qed.

Lemma goToShowdown_settles (total : Q) (s : GameState) :
  chipTotal s == total ->
  (folded (player s) = true \/ folded (opponent s) = true
   \/ (noneUndefined (cards (player s)) /\ noneUndefined (cards (opponent s))
       /\ noneUndefined (board s))) ->
  Settled total (stateOf (goToShowdown s)).
Proof.
  intros Ht Hw. unfold goToShowdown.
  assert (Hwin : exists w, winnerOf (withStage Showdown s) = Some w).
  { unfold winnerOf. fields.
    destruct (folded (player s)); [eauto|].
    destruct (folded (opponent s)); [eauto|].
    destruct Hw as [Hw|[Hw|(Ha & Hb & Hc)]]; try discriminate.
    destruct (compareSlots_defined _ _ _ Ha Hb Hc) as [cmp ->].
    destruct (cmp >? 0)%Z; [eauto|]. destruct (cmp <? 0)%Z; eauto. }
  destruct Hwin as [w ->]. fields.
  destruct (awardPot_stackTotal w (withStage Showdown s)) as (Hst & _ & Hsg).
  split.
  - exact Hsg.
  - unfold stackTotal in *. fields. rewrite Hst. exact Ht.
Qed.

(** Dealing from a deck that holds enough cards. *)
Lemma dealToBoard_shape (s : GameState) :
  (1 <= length (deck s))%nat ->
  exists x rest,
    deck s = rest ++ [x]
    /\ dealToBoard s = withBoard (board s ++ [Some x]) (withDeck rest s).
Proof.
  intro H. destruct (pop_nonempty (deck s) H) as (x & rest & Hd & Hp).
  exists x, rest. split; [exact Hd|].
  unfold dealToBoard, dealFromDeck, dealt, afterDeal. rewrite Hp. reflexivity.
Qed.

Lemma burn_shape (s : GameState) :
  (1 <= length (deck s))%nat ->
  exists x rest, deck s = rest ++ [x] /\ burn s = withDeck rest s.
Proof.
  intro H. destruct (pop_nonempty (deck s) H) as (x & rest & Hd & Hp).
  exists x, rest. split; [exact Hd|].
  unfold burn, dealFromDeck, dealt, afterDeal. rewrite Hp. reflexivity.
Qed.

Lemma length_snoc {A : Type} (l : list A) (x : A) :
  length (l ++ [x]) = S (length l).
Proof. rewrite length_app. simpl. lia. Qed.

Lemma noneUndefined_snoc (b : list slot) (x : Card) :
  noneUndefined b -> noneUndefined (b ++ [Some x]).
Proof. intro H. apply allDefined_app; [exact H | discriminate]. Qed.

Lemma dealFlop_Betting (total : Q) (s : GameState) :
  Betting total s -> stage s = Preflop -> Betting total (dealFlop s).
Proof.
  intros [Ht Hp Ho Hcp Hco Hb Hd Hs] Hst. rewrite Hst in Hd. simpl in Hd.
  unfold dealFlop.
  destruct (burn_shape s) as (x0 & d0 & E0 & ->); [lia|].
  rewrite E0, length_snoc in Hd.
  destruct (dealToBoard_shape (withDeck d0 s)) as (x1 & d1 & E1 & ->);
    [fields; lia|]. fields. rewrite E1, length_snoc in Hd.
  destruct (dealToBoard_shape
              (withBoard (board s ++ [Some x1]) (withDeck d1 (withDeck d0 s))))
    as (x2 & d2 & E2 & ->); [fields; lia|]. fields.
  rewrite E2, length_snoc in Hd.
  match goal with
  | |- context [dealToBoard ?t] =>
      destruct (dealToBoard_shape t) as (x3 & d3 & E3 & ->); [fields; lia|]
  end.
  fields. rewrite E3, length_snoc in Hd.
  split; fields; try assumption.
  - repeat apply noneUndefined_snoc. exact Hb.
  - simpl. lia.
  - discriminate.
Qed.

Lemma dealOne_Betting (total : Q) (st : Stage) (s : GameState) :
  Betting total s -> (deckNeeds st + 2 <= length (deck s))%nat ->
  st <> Showdown -> Betting total (withStage st (dealToBoard (burn s))).
Proof.
  intros [Ht Hp Ho Hcp Hco Hb Hd Hs] Hn Hst.
  destruct (burn_shape s) as (x0 & d0 & E0 & ->); [lia|].
  rewrite E0, length_snoc in Hn.
  destruct (dealToBoard_shape (withDeck d0 s)) as (x1 & d1 & E1 & ->);
    [fields; lia|]. fields. rewrite E1, length_snoc in Hn.
  split; fields; try assumption.
  - apply noneUndefined_snoc. exact Hb.
  - lia.
Qed.

Lemma dealTurn_Betting (total : Q) (s : GameState) :
  Betting total s -> stage s = Flop -> Betting total (dealTurn s).
Proof.
  intros H Hst. apply dealOne_Betting; [exact H | | discriminate].
  pose proof (betting_deck _ _ H) as Hd. rewrite Hst in Hd. simpl in *. lia.
Qed.

Lemma dealRiver_Betting (total : Q) (s : GameState) :
  Betting total s -> stage s = Turn -> Betting total (dealRiver s).
Proof.
  intros H Hst. apply dealOne_Betting; [exact H | | discriminate].
  pose proof (betting_deck _ _ H) as Hd. rewrite Hst in Hd. simpl in *. lia.
Qed.

Lemma Betting_showable (total : Q) (s : GameState) :
  Betting total s ->
  folded (player s) = true \/ folded (opponent s) = true
  \/ (noneUndefined (cards (player s)) /\ noneUndefined (cards (opponent s))
      /\ noneUndefined (board s)).
Proof. intros [Ht Hp Ho Hcp Hco Hb Hd Hs]. auto. Qed.

Lemma goToShowdown_HandInv (total : Q) (s : GameState) :
  Betting total s -> HandInv total (stateOf (goToShowdown s)).
Proof.
  intro H. right. apply goToShowdown_settles.
  - apply H.
  - eapply Betting_showable; eassumption.
Qed.

Lemma goToShowdown_folded (s : GameState) :
  folded (player (stateOf (goToShowdown s))) = folded (player s)
  /\ folded (opponent (stateOf (goToShowdown s))) = folded (opponent s).
Proof.
  unfold goToShowdown. destruct (winnerOf (withStage Showdown s)) as [w|].
  - unfold awardPot. destruct w as [[|]|]; fields; auto.
  - fields. auto.
Qed.

(** With nobody folded, [nextAction] only hands the turn over. *)
Lemma nextAction_Settled (total : Q) (s : GameState) :
  folded (player s) = false -> folded (opponent s) = false ->
  Settled total s -> Settled total (stateOf (nextAction s)).
Proof.
  intros Hp Ho [H1 H2]. unfold nextAction. rewrite Hp, Ho. cbn [orb].
  destruct (turn s); split; fields; assumption.
Qed.

Lemma advanceOrSwitch_HandInv (total : Q) (s : GameState) :
  Betting total s -> HandInv total (stateOf (advanceOrSwitch s)).
Proof.
  intro H. unfold advanceOrSwitch.
  destruct (Qeq_bool (currentBet (player s)) (currentBet (opponent s))).
  - pose proof (resetBets_Betting _ _ H) as Hr.
    destruct (stage (resetBets s)) eqn:Hst; cbn [andThen].
    + left. apply nextAction_Betting, turn_Betting, dealFlop_Betting; assumption.
    + left. apply nextAction_Betting, turn_Betting, dealTurn_Betting; assumption.
    + left. apply nextAction_Betting, turn_Betting, dealRiver_Betting; assumption.
    + pose proof (goToShowdown_settles total (resetBets s)
                    (betting_total _ _ Hr) (Betting_showable _ _ Hr)) as Hg.
      destruct (goToShowdown_folded (resetBets s)) as [Fp Fo].
      rewrite (betting_player_in _ _ Hr) in Fp.
      rewrite (betting_opponent_in _ _ Hr) in Fo.
      right.
      destruct (goToShowdown (resetBets s)) as [s'|s'];
        cbn [andThen stateOf] in *; [|exact Hg].
      apply nextAction_Settled; fields; assumption.
    + exfalso. exact (betting_stage _ _ Hr Hst).
  - left. apply nextAction_Betting, turn_Betting. exact H.
Qed.

Lemma userAction_HandInv (total : Q) (a : Action) (r : Q) (s : GameState) :
  Betting total s -> HandInv total (stateOf (userAction a r s)).
Proof.
  intro H. apply (awaiting_Betting _ false) in H.
  unfold userAction. set (s1 := withAwaitingUser false s) in *.
  destruct a.
  - right. apply goToShowdown_settles.
    + destruct H as [Ht _ _ _ _ _ _ _]. unfold chipTotal in *. fields. exact Ht.
    + left. reflexivity.
  - destruct (positive _); apply advanceOrSwitch_HandInv; auto with betting.
  - left. apply nextAction_Betting. auto with betting.
  - left. apply nextAction_Betting. auto with betting.
Qed.

(** The tail of [aiAction] after a bet, a call or a check. *)
Lemma aiAdvanceOrSwitch_HandInv (total : Q) (s : GameState) :
  Betting total s -> HandInv total (stateOf (aiAdvanceOrSwitch s)).
Proof.
  intro H. unfold aiAdvanceOrSwitch.
  destruct (Qeq_bool _ _).
  - pose proof (resetBets_Betting _ _ H) as Hr. cbv zeta.
    destruct (stage (resetBets s)) eqn:Hst.
    + left. apply nextAction_Betting, turn_Betting.
      apply (dealFlop_Betting total (resetBets s) Hr Hst).
    + left. apply nextAction_Betting, turn_Betting.
      apply (dealTurn_Betting total (resetBets s) Hr Hst).
    + left. apply nextAction_Betting, turn_Betting.
      apply (dealRiver_Betting total (resetBets s) Hr Hst).
    + apply (goToShowdown_HandInv total (resetBets s) Hr).
    + exfalso. exact (betting_stage _ _ Hr Hst).
  - left. apply nextAction_Betting, turn_Betting. exact H.
Qed.

Lemma aiExecute_HandInv (total : Q) (a : Action) (r : Q) (s : GameState) :
  Betting total s -> HandInv total (stateOf (aiExecute a r s)).
Proof.
  intro H. unfold aiExecute.
  destruct a.
  - right. apply goToShowdown_settles.
    + destruct H as [Ht _ _ _ _ _ _ _]. unfold chipTotal in *. fields. exact Ht.
    + right. left. reflexivity.
  - destruct (positive _); apply aiAdvanceOrSwitch_HandInv; auto with betting.
  - apply aiAdvanceOrSwitch_HandInv; auto with betting.
  - apply aiAdvanceOrSwitch_HandInv; auto with betting.
Qed.

(** ** The hand starts from a full deck *)

Lemma length_setNth {A : Type} (i : nat) (x : A) (arr : list A) :
  length (setNth i x arr) = length arr.
Proof.
  revert i. induction arr as [|y arr IH]; intros [|i]; simpl; auto.
Qed.

Lemma length_swap {A : Type} (i j : nat) (arr : list A) :
  length (swap i j arr) = length arr.
Proof.
  unfold swap. destruct (nth_error arr i), (nth_error arr j);
    rewrite ?length_setNth; reflexivity.
Qed.

Lemma length_shuffleFrom {A : Type} (rnd : nat -> nat) (i : nat) (arr : list A) :
  length (shuffleFrom rnd i arr) = length arr.
Proof.
  revert arr. induction i as [|i IH]; intro arr; cbn [shuffleFrom];
    [reflexivity|].
  rewrite IH. apply length_swap.
Qed.

Lemma length_shuffle (rnd : nat -> nat) (d : Deck) :
  length (shuffle rnd d) = length d.
Proof. apply length_shuffleFrom. Qed.

Lemma dealt_last (d : Deck) (x : Card) : dealt (d ++ [x]) = Some x.
Proof. unfold dealt. now rewrite pop_last. Qed.

Lemma afterDeal_last (d : Deck) (x : Card) : afterDeal (d ++ [x]) = d.
Proof. unfold afterDeal. now rewrite pop_last. Qed.

Lemma last_four (d0 : Deck) :
  (4 <= length d0)%nat ->
  exists d x1 x2 x3 x4,
    d0 = (((d ++ [x4]) ++ [x3]) ++ [x2]) ++ [x1]
    /\ (length d + 4 = length d0)%nat.
Proof.
  intro H.
  destruct (pop_nonempty d0) as (x1 & d1 & -> & _); [lia|].
  rewrite length_snoc in H.
  destruct (pop_nonempty d1) as (x2 & d2 & -> & _); [lia|].
  rewrite length_snoc in H.
  destruct (pop_nonempty d2) as (x3 & d3 & -> & _); [lia|].
  rewrite length_snoc in H.
  destruct (pop_nonempty d3) as (x4 & d4 & -> & _); [lia|].
  exists d4, x1, x2, x3, x4. split; [reflexivity|].
  rewrite !length_snoc. lia.
Qed.

(** [startHand] leaves a hand in progress whose chips are the two stacks
    it found: the pot is reset to 0 before the blinds are posted. *)
Lemma startHand_Betting (rnd : nat -> nat) (s0 : GameState) :
  Betting (stackTotal s0) (stateOf (startHand rnd s0)).
Proof.
  unfold startHand, dealFromDeck. fields.
  destruct (last_four (shuffle rnd newDeck)) as (d & x1 & x2 & x3 & x4 & E & Hl).
  { rewrite length_shuffle. vm_compute. lia. }
  rewrite length_shuffle in Hl. change (length newDeck) with 52%nat in Hl.
  rewrite E. clear E.
  repeat (rewrite ?dealt_last, ?afterDeal_last; fields).
  apply nextAction_Betting, turn_Betting, log_Betting.
  split; unfold postBlinds, chipTotal, stackTotal, bet; fields;
    destruct (button s0); cbn [other]; fields;
    try reflexivity; try discriminate.
  - ring.
  - ring.
  - simpl. lia.
  - simpl. lia.
Qed.

Lemma handStep_HandInv (total : Q) (e : HandEvent) (s : GameState) :
  Betting total s -> HandInv total (handStep e s).
Proof.
  intro H. destruct e as [a r|a r|]; cbn [handStep].
  - unfold clickAction. destruct (awaitingUser s).
    + apply userAction_HandInv. exact H.
    + left. exact H.
  - unfold aiTimerFires. destruct (aiTimers s) as [|n] eqn:E.
    + left. exact H.
    + apply aiExecute_HandInv. auto with betting.
  - left. unfold aiTimerThrows. destruct (aiTimers s); auto with betting.
Qed.

Lemma inHand_HandInv (total : Q) (start s : GameState) :
  Betting total start -> inHand start s -> HandInv total s.
Proof.
  intros H0 Hr. induction Hr as [|s e Hr IH Hs].
  - left. exact H0.
  - destruct IH as [IH|[IH _]]; [|contradiction].
    apply handStep_HandInv. exact IH.
Qed.


(** The first hand of an 'equal' match, dealt from the unshuffled deck,
    played to the river by checks: the player checks the big blind, the
    opponent calls, and the opponent, first to act on each later street,
    checks it through. *)
Lemma checked_down_inHand :
  inHand (stateOf (startHand keepOrder (initState equal weinman)))
         (play checkedDown (stateOf (startHand keepOrder (initState equal weinman)))).
Proof.
  unfold checkedDown. cbn [play fold_left].
  repeat (apply hand_goes_on; [|vm_compute; discriminate]).
  apply hand_begins.
Defined.



(** The award is the end of the hand for [inHand], as it is for the
    specification, and C1 says nothing of what comes after it.  The code
    itself can go on: [advanceOrSwitch] calls [nextAction] after the
    showdown it reaches from the river, which re-enables the player's
    buttons when the player is on the button.  A fold clicked then makes
    [goToShowdown] award the same pot again, and the two stacks no longer
    sum to the starting sum. *)
Lemma buttons_live_after_showdown :
  let s := secondHandCheckedDown in
  let s' := play [UserActs fold 0] s in
  stage s = Showdown /\ awaitingUser s = true
  /\ pot s == 200 /\ stackTotal s == 20000
  /\ stackTotal s' == 20200.
Proof.
  intros s s'. split; [|split; [|split; [|split]]]; vm_compute; reflexivity.
Qed.

(** ** The preflop fold scenario *)

Lemma half_as_product (x : Q) : x / 2 == x * (1 # 2).
Proof. field. Qed.

Lemma Qmin_left (x y : Q) : x <= y -> Qmin x y == x.
Proof. intro H. apply Q.min_l. exact H. Qed.

Lemma nothing_to_call (mine theirs : Q) :
  theirs <= mine -> positive (Qmax 0 (theirs - mine)) = false.
Proof.
  intro H. unfold positive. apply negb_false_iff, Qle_bool_iff.
  apply Q.max_lub; lra.
Qed.

Lemma Qeq_bool_lt (x y : Q) : x < y -> Qeq_bool x y = false.
Proof.
  intro H. destruct (Qeq_bool x y) eqn:E; [|reflexivity].
  apply Qeq_bool_iff in E. lra.
Qed.

(** A fold by the player hands the whole pot to the opponent. *)
Lemma userAction_fold_effect (r : Q) (s : GameState) :
  let s' := stateOf (userAction fold r s) in
  stage s' = Showdown
  /\ stack (opponent s') = stack (opponent s) + pot s
  /\ stack (player s') = stack (player s)
  /\ pot s' = pot s.
Proof.
  unfold userAction, goToShowdown, winnerOf, awardPot. fields.
  repeat split; reflexivity.
Qed.

(** The state [startHand] leaves when it puts the player on the button:
    the player has posted the small blind and the opponent the big one. *)
Lemma startHand_player_on_button (rnd : nat -> nat) (s0 : GameState) :
  button s0 = seatOpponent ->
  let s1 := stateOf (startHand rnd s0) in
  button s1 = seatPlayer
  /\ stage s1 = Preflop
  /\ folded (player s1) = false /\ folded (opponent s1) = false
  /\ currentBet (player s1) = 0 + Qmin (bigBlind s0 / 2) (stack (player s0))
  /\ currentBet (opponent s1) = 0 + Qmin (bigBlind s0) (stack (opponent s0))
  /\ stack (player s1)
     = stack (player s0) - Qmin (bigBlind s0 / 2) (stack (player s0))
  /\ stack (opponent s1)
     = stack (opponent s0) - Qmin (bigBlind s0) (stack (opponent s0))
  /\ pot s1 = 0 + Qmin (bigBlind s0 / 2) (stack (player s0))
              + Qmin (bigBlind s0) (stack (opponent s0)).
Proof.
  destruct s0 as [ty bb [pc ps pb pf] [oc os ob ofd] btn dk bd pt st lg tn aw ai].
  cbn [button]. intros ->. run_fields.
  repeat split; reflexivity.
Qed.




(** ** The split pot *)

(** C10. On a showdown tie each stack grows by exactly [pot / 2]: the two
    gains sum to the pot, and when the pot is an odd number [2k + 1] of
    chips each gain is [k] chips and a half. *)
Theorem tie_splits_pot_in_halves (s : GameState) :
  folded (player s) = false -> folded (opponent s) = false ->
  compareSlots (cards (player s)) (cards (opponent s)) (board s) = Some 0%Z ->
  let s' := stateOf (goToShowdown s) in
  stack (player s') == stack (player s) + pot s / 2
  /\ stack (opponent s') == stack (opponent s) + pot s / 2
  /\ (stack (player s') - stack (player s))
     + (stack (opponent s') - stack (opponent s)) == pot s
  /\ forall k : Z,
       pot s == inject_Z (2 * k + 1) ->
       stack (player s') - stack (player s) == inject_Z k + (1 # 2)
       /\ stack (opponent s') - stack (opponent s) == inject_Z k + (1 # 2).
Proof.
  intros Hp Ho Hc. unfold goToShowdown, winnerOf. fields.
  rewrite Hp, Ho, Hc. cbn [Z.gtb Z.ltb Z.compare]. unfold awardPot. fields.
  split; [reflexivity|]. split; [reflexivity|]. split; [field|].
  intros k Hk. rewrite Hk, inject_Z_plus, inject_Z_mult.
  change (inject_Z 2) with 2. change (inject_Z 1) with 1.
  split; field.
Qed.

Lemma tie_splits_pot_in_halves_witness :
  let s := tiedOddPot in
  (folded (player s) = false /\ folded (opponent s) = false
   /\ compareSlots (cards (player s)) (cards (opponent s)) (board s)
      = Some 0%Z)
  /\ let s' := stateOf (goToShowdown s) in
     stack (player s') == stack (player s) + pot s / 2
     /\ stack (opponent s') == stack (opponent s) + pot s / 2
     /\ (stack (player s') - stack (player s))
        + (stack (opponent s') - stack (opponent s)) == pot s
     /\ forall k : Z,
          pot s == inject_Z (2 * k + 1) ->
          stack (player s') - stack (player s) == inject_Z k + (1 # 2)
          /\ stack (opponent s') - stack (opponent s) == inject_Z k + (1 # 2).
Proof.
  intro s.
  assert (H1 : folded (player s) = false) by reflexivity.
  assert (H2 : folded (opponent s) = false) by reflexivity.
  assert (H3 : compareSlots (cards (player s)) (cards (opponent s)) (board s)
               = Some 0%Z) by (vm_compute; reflexivity).
  split; [repeat split; assumption|].
  exact (tie_splits_pot_in_halves s H1 H2 H3).
Defined.

(** ** Street transitions and turn order *)

Lemma nextAction_frame (s : GameState) :
  folded (player s) = false -> folded (opponent s) = false ->
  let s' := stateOf (nextAction s) in
  player s' = player s /\ opponent s' = opponent s /\ stage s' = stage s
  /\ board s' = board s /\ turn s' = turn s /\ button s' = button s.
Proof.
  intros Hp Ho. unfold nextAction. rewrite Hp, Ho. cbn [orb].
  destruct (turn s) eqn:E; fields; rewrite ?E; repeat split; reflexivity.
Qed.

Lemma dealFlop_frame (s : GameState) :
  player (dealFlop s) = player s /\ opponent (dealFlop s) = opponent s
  /\ button (dealFlop s) = button s /\ stage (dealFlop s) = Flop
  /\ length (board (dealFlop s)) = (length (board s) + 3)%nat.
Proof.
  unfold dealFlop, dealToBoard, burn, dealFromDeck. fields.
  repeat split; try reflexivity.
  rewrite !length_app. simpl. lia.
Qed.

Lemma dealTurn_frame (s : GameState) :
  player (dealTurn s) = player s /\ opponent (dealTurn s) = opponent s
  /\ button (dealTurn s) = button s /\ stage (dealTurn s) = Turn
  /\ length (board (dealTurn s)) = (length (board s) + 1)%nat.
Proof.
  unfold dealTurn, dealToBoard, burn, dealFromDeck. fields.
  repeat split; try reflexivity.
  rewrite !length_app. simpl. lia.
Qed.

Lemma dealRiver_frame (s : GameState) :
  player (dealRiver s) = player s /\ opponent (dealRiver s) = opponent s
  /\ button (dealRiver s) = button s /\ stage (dealRiver s) = River
  /\ length (board (dealRiver s)) = (length (board s) + 1)%nat.
Proof.
  unfold dealRiver, dealToBoard, burn, dealFromDeck. fields.
  repeat split; try reflexivity.
  rewrite !length_app. simpl. lia.
Qed.

Lemma goToShowdown_frame (s : GameState) :
  let s' := stateOf (goToShowdown s) in
  stage s' = Showdown
  /\ currentBet (player s') = currentBet (player s)
  /\ currentBet (opponent s') = currentBet (opponent s)
  /\ board s' = board s /\ button s' = button s /\ turn s' = turn s.
Proof.
  unfold goToShowdown. destruct (winnerOf (withStage Showdown s)) as [w|].
  - unfold awardPot. destruct w as [[|]|]; fields; repeat split; reflexivity.
  - fields. repeat split; reflexivity.
Qed.

Lemma firstAfterDeal_is_button (s : GameState) : firstAfterDeal s = button s.
Proof. unfold firstAfterDeal. destruct (button s); reflexivity. Qed.

(** What [nextAction] returns after a deal or a change of turn, nobody
    having folded. *)
Lemma nextAction_after (t : GameState) (who : Seat) :
  folded (player t) = false -> folded (opponent t) = false ->
  let s' := stateOf (nextAction (withTurn who t)) in
  player s' = player t /\ opponent s' = opponent t /\ stage s' = stage t
  /\ board s' = board t /\ turn s' = who /\ button s' = button t.
Proof.
  intros Hp Ho.
  destruct (nextAction_frame (withTurn who t)) as (A & B & C & D & E & F);
    fields; auto.
  repeat split; assumption.
Qed.

(** The opponent's path: after any action but a fold, equal bets reset
    and advance, unequal bets give the player the turn. *)
Lemma aiAdvanceOrSwitch_outcome (s : GameState) :
  folded (player s) = false -> folded (opponent s) = false ->
  let s' := stateOf (aiAdvanceOrSwitch s) in
  (currentBet (player s) == currentBet (opponent s) -> Advanced s s')
  /\ (~ currentBet (player s) == currentBet (opponent s) ->
      Switched seatPlayer s s'
      /\ currentBet (player s') = currentBet (player s)
      /\ currentBet (opponent s') = currentBet (opponent s)).
Proof.
  intros Hp Ho. unfold aiAdvanceOrSwitch.
  destruct (Qeq_bool _ _) eqn:E.
  - split; [intros _ | intro N; apply Qeq_bool_iff in E; contradiction].
    cbv zeta. unfold Advanced.
    assert (Hs : stage (resetBets s) = stage s) by reflexivity.
    rewrite Hs. destruct (stage s) eqn:St; cbn [nextStage boardCardsDealt].
    + destruct (dealFlop_frame (resetBets s)) as (A & B & C & D & L).
      destruct (nextAction_after (dealFlop (resetBets s))
                  (firstAfterDeal (dealFlop (resetBets s))))
        as (A' & B' & C' & D' & E' & F');
        [rewrite A; exact Hp | rewrite B; exact Ho |].
      rewrite A', B', C', D', E', A, B, D, L, firstAfterDeal_is_button, C.
      repeat split; reflexivity.
    + destruct (dealTurn_frame (resetBets s)) as (A & B & C & D & L).
      destruct (nextAction_after (dealTurn (resetBets s))
                  (firstAfterDeal (dealTurn (resetBets s))))
        as (A' & B' & C' & D' & E' & F');
        [rewrite A; exact Hp | rewrite B; exact Ho |].
      rewrite A', B', C', D', E', A, B, D, L, firstAfterDeal_is_button, C.
      repeat split; reflexivity.
    + destruct (dealRiver_frame (resetBets s)) as (A & B & C & D & L).
      destruct (nextAction_after (dealRiver (resetBets s))
                  (firstAfterDeal (dealRiver (resetBets s))))
        as (A' & B' & C' & D' & E' & F');
        [rewrite A; exact Hp | rewrite B; exact Ho |].
      rewrite A', B', C', D', E', A, B, D, L, firstAfterDeal_is_button, C.
      repeat split; reflexivity.
    + destruct (goToShowdown_frame (resetBets s)) as (A & B & C & D & _).
      rewrite A, B, C, D. fields.
      repeat split; try reflexivity; try lia. intro N. contradiction.
    + destruct (nextAction_after (resetBets s) (firstAfterDeal (resetBets s)))
        as (A' & B' & C' & D' & E' & F'); [exact Hp | exact Ho |].
      rewrite A', B', C', D'. fields. rewrite St.
      repeat split; try reflexivity; try lia. intro N. contradiction.
  - split; [intro N; apply Qeq_bool_iff in N; congruence | intros _].
    destruct (nextAction_after s seatPlayer) as (A' & B' & C' & D' & E' & F');
      [exact Hp | exact Ho |].
    unfold Switched. rewrite A', B', C', D', E'. repeat split; reflexivity.
Qed.

(** The player's check or call: the same two outcomes, the turn going to
    the other seat when the bets differ. *)
Lemma advanceOrSwitch_outcome (s : GameState) :
  folded (player s) = false -> folded (opponent s) = false ->
  let s' := stateOf (advanceOrSwitch s) in
  (currentBet (player s) == currentBet (opponent s) -> Advanced s s')
  /\ (~ currentBet (player s) == currentBet (opponent s) ->
      Switched (other (turn s)) s s'
      /\ currentBet (player s') = currentBet (player s)
      /\ currentBet (opponent s') = currentBet (opponent s)).
Proof.
  intros Hp Ho. unfold advanceOrSwitch.
  destruct (Qeq_bool _ _) eqn:E.
  - split; [intros _ | intro N; apply Qeq_bool_iff in E; contradiction].
    cbv zeta. unfold Advanced.
    assert (Hs : stage (resetBets s) = stage s) by reflexivity.
    rewrite Hs. destruct (stage s) eqn:St;
      cbn [nextStage boardCardsDealt andThen].
    + destruct (dealFlop_frame (resetBets s)) as (A & B & C & D & L).
      destruct (nextAction_after (dealFlop (resetBets s))
                  (firstAfterDeal (dealFlop (resetBets s))))
        as (A' & B' & C' & D' & E' & F');
        [rewrite A; exact Hp | rewrite B; exact Ho |].
      rewrite A', B', C', D', E', A, B, D, L, firstAfterDeal_is_button, C.
      repeat split; reflexivity.
    + destruct (dealTurn_frame (resetBets s)) as (A & B & C & D & L).
      destruct (nextAction_after (dealTurn (resetBets s))
                  (firstAfterDeal (dealTurn (resetBets s))))
        as (A' & B' & C' & D' & E' & F');
        [rewrite A; exact Hp | rewrite B; exact Ho |].
      rewrite A', B', C', D', E', A, B, D, L, firstAfterDeal_is_button, C.
      repeat split; reflexivity.
    + destruct (dealRiver_frame (resetBets s)) as (A & B & C & D & L).
      destruct (nextAction_after (dealRiver (resetBets s))
                  (firstAfterDeal (dealRiver (resetBets s))))
        as (A' & B' & C' & D' & E' & F');
        [rewrite A; exact Hp | rewrite B; exact Ho |].
      rewrite A', B', C', D', E', A, B, D, L, firstAfterDeal_is_button, C.
      repeat split; reflexivity.
    + pose proof (goToShowdown_frame (resetBets s)) as (A & B & C & D & _).
      pose proof (goToShowdown_folded (resetBets s)) as (Fp & Fo).
      destruct (goToShowdown (resetBets s)) as [t|t]; cbn [andThen stateOf] in *.
      * destruct (nextAction_after t (firstAfterDeal t))
          as (A' & B' & C' & D' & E' & F');
          [rewrite Fp; exact Hp | rewrite Fo; exact Ho |].
        rewrite A', B', C', D', A, B, C, D. fields.
        repeat split; try reflexivity; try lia. intro N. contradiction.
      * rewrite A, B, C, D. fields.
        repeat split; try reflexivity; try lia. intro N. contradiction.
    + destruct (nextAction_after (resetBets s) (firstAfterDeal (resetBets s)))
        as (A' & B' & C' & D' & E' & F'); [exact Hp | exact Ho |].
      rewrite A', B', C', D'. fields. rewrite St.
      repeat split; try reflexivity; try lia. intro N. contradiction.
  - split; [intro N; apply Qeq_bool_iff in N; congruence | intros _].
    destruct (nextAction_after s (other (turn s)))
      as (A' & B' & C' & D' & E' & F'); [exact Hp | exact Ho |].
    unfold Switched. rewrite A', B', C', D', E'. repeat split; reflexivity.
Qed.

(** The opponent's actions other than a fold all end in one of the two
    outcomes of the specification. *)
Lemma aiExecute_advances_or_switches (a : Action) (r : Q) (s : GameState) :
  a <> fold -> folded (player s) = false -> folded (opponent s) = false ->
  let s' := stateOf (aiExecute a r s) in
  Advanced s s'
  \/ (Switched seatPlayer s s'
      /\ ~ currentBet (player s') == currentBet (opponent s')).
Proof.
  intros Ha Hp Ho. unfold aiExecute.
  destruct a; [contradiction| | |]; try destruct (positive _).
  all: match goal with
       | |- context [aiAdvanceOrSwitch ?t] =>
           destruct (aiAdvanceOrSwitch_outcome t) as [Eq Ne];
           [exact Hp | exact Ho |];
           destruct (Qeq_dec (currentBet (player t)) (currentBet (opponent t)))
             as [D|D];
           [left; exact (Eq D)
           | right; destruct (Ne D) as (Sw & Cp & Co);
             split; [exact Sw | rewrite Cp, Co; exact D]]
       end.
Qed.

(** The player's check or call does the same. *)
Lemma userAction_check_advances_or_switches (r : Q) (s : GameState) :
  folded (player s) = false -> folded (opponent s) = false ->
  let s' := stateOf (userAction check r s) in
  Advanced s s'
  \/ (Switched (other (turn s)) s s'
      /\ ~ currentBet (player s') == currentBet (opponent s')).
Proof.
  intros Hp Ho. unfold userAction. destruct (positive _).
  all: match goal with
       | |- context [advanceOrSwitch ?t] =>
           destruct (advanceOrSwitch_outcome t) as [Eq Ne];
           [exact Hp | exact Ho |];
           destruct (Qeq_dec (currentBet (player t)) (currentBet (opponent t)))
             as [D|D];
           [left; exact (Eq D)
           | right; destruct (Ne D) as (Sw & Cp & Co);
             split; [exact Sw | rewrite Cp, Co; exact D]]
       end.
Qed.

(** The player's raise and all-in never compare the bets: the stage and
    the board stay, the bets are not reset and the turn goes to the
    opponent, whether or not the bets are now equal. *)
Lemma userAction_raise_allin_only_switch (a : Action) (r : Q) (s : GameState) :
  a = raise \/ a = allin ->
  folded (player s) = false -> folded (opponent s) = false ->
  let s' := stateOf (userAction a r s) in
  Switched seatOpponent s s'
  /\ currentBet (opponent s') = currentBet (opponent s)
  /\ exists amount,
       currentBet (player s') = currentBet (player s) + amount
       /\ stack (player s') = stack (player s) - amount.
Proof.
  intros Ha Hp Ho. unfold userAction.
  destruct Ha as [-> | ->].
  all: match goal with
       | |- context [nextAction (withTurn seatOpponent ?t)] =>
           destruct (nextAction_after t seatOpponent)
             as (A & B & C & D & E & F); [exact Hp | exact Ho |];
           unfold Switched; rewrite A, B, C, D, E
       end.
  all: unfold bet; fields; repeat split; try reflexivity; eexists;
    split; reflexivity.
Qed.

(** Whatever the event, a move to the flop, the turn or the river hands
    the turn to the button. *)
Lemma street_transition_gives_button_the_turn (e : HandEvent) (s : GameState) :
  folded (player s) = false -> folded (opponent s) = false ->
  stage (handStep e s) <> stage s -> stage (handStep e s) <> Showdown ->
  turn (handStep e s) = button s.
Proof.
  intros Hp Ho Hst Hsd. destruct e as [a r|a r|]; cbn [handStep] in *.
  - unfold clickAction in *. destruct (awaitingUser s); [|contradiction].
    destruct a.
    + exfalso. apply Hsd. apply (userAction_fold_effect r s).
    + destruct (userAction_check_advances_or_switches r s Hp Ho)
        as [(_ & _ & _ & _ & T) | ((S1 & _) & _)]; [auto | contradiction].
    + destruct (userAction_raise_allin_only_switch allin r s) as ((S1 & _) & _);
        auto; contradiction.
    + destruct (userAction_raise_allin_only_switch raise r s) as ((S1 & _) & _);
        auto; contradiction.
  - unfold aiTimerFires in *. destruct (aiTimers s) as [|n]; [contradiction|].
    destruct a.
    + exfalso. apply Hsd. unfold aiExecute. apply goToShowdown_frame.
    + destruct (aiExecute_advances_or_switches check r (withAiTimers n s))
        as [(_ & _ & _ & _ & T) | ((S1 & _) & _)];
        try assumption; try discriminate; [auto | contradiction].
    + destruct (aiExecute_advances_or_switches allin r (withAiTimers n s))
        as [(_ & _ & _ & _ & T) | ((S1 & _) & _)];
        try assumption; try discriminate; [auto | contradiction].
    + destruct (aiExecute_advances_or_switches raise r (withAiTimers n s))
        as [(_ & _ & _ & _ & T) | ((S1 & _) & _)];
        try assumption; try discriminate; [auto | contradiction].
  - unfold aiTimerThrows in *. destruct (aiTimers s); contradiction.
Qed.

(** C2 (the code at the failing input). First hand of an 'equal' match,
    the opponent on the button: the player checks the big blind and the
    opponent's call equalises the bets.  The flop is dealt and the turn is
    set to the opponent, who is the button; the non-button player is the
    player. *)
Theorem flop_first_actor_is_the_button :
  let s := play [UserActs check 0; AiActs check 0]
             (stateOf (initGame equal weinman keepOrder)) in
  stage s = Flop /\ length (board s) = 3%nat
  /\ button s = seatOpponent /\ turn s = seatOpponent
  /\ turn s <> other (button s).
Proof.
  intro s. split; [|split; [|split; [|split]]].
  - vm_compute. reflexivity.
  - vm_compute. reflexivity.
  - vm_compute. reflexivity.
  - vm_compute. reflexivity.
  - vm_compute. discriminate.
Qed.

(** C4 (the code at the failing input). Second hand of an 'equal' match,
    the player on the button with 50 posted against the opponent's 100; the
    opponent has checked.  The player's raise of 0 puts in the 50 owed: the
    bets are equal at 100, and they are not reset, no flop is dealt, the
    stage is still the preflop and the turn goes to the opponent. *)
Theorem raise_to_equal_bets_does_not_advance :
  let s := secondHandOpened in
  let s' := play [UserActs raise 0] s in
  (stage s = Preflop /\ turn s = seatPlayer /\ awaitingUser s = true
   /\ currentBet (player s) == 50 /\ currentBet (opponent s) == 100)
  /\ (currentBet (player s') == 100 /\ currentBet (opponent s') == 100
      /\ stage s' = Preflop /\ board s' = [] /\ turn s' = seatOpponent).
Proof.
  intros s s'.
  split; [split; [|split; [|split; [|split]]]
         |split; [|split; [|split; [|split]]]];
    vm_compute; reflexivity.
Qed.

(** ** The opponent's callback *)

(** A run of the callback is one of the events of [handStep]: the action
    its first half chose, or the exception it threw. *)
Lemma aiCallback_is_an_event (o : AiOracle) (s : GameState) :
  exists e, aiCallback o s = handStep e s
            /\ (e = AiThrows \/ exists a r, e = AiActs a r).
Proof.
  unfold aiCallback, aiAction.
  destruct (aiTimers s) as [|n] eqn:E.
  - exists AiThrows. cbn [handStep]. unfold aiTimerThrows. rewrite E. auto.
  - destruct (aiDecide o (withAiTimers n s)) as [[a r]|] eqn:D.
    + exists (AiActs a r). cbn [handStep]. unfold aiTimerFires. rewrite E.
      split; [reflexivity | right; eauto].
    + exists AiThrows. cbn [handStep]. unfold aiTimerThrows. rewrite E. auto.
Qed.

Lemma aiDecide_ignores_timers (o : AiOracle) (n : nat) (s : GameState) :
  aiDecide o (withAiTimers n s) = aiDecide o s.
Proof. unfold aiDecide. fields. reflexivity. Qed.

Lemma aiCallback_decided (o : AiOracle) (a : Action) (r : Q) (s : GameState) :
  aiTimers s <> O -> aiDecide o s = Some (a, r) ->
  aiCallback o s = handStep (AiActs a r) s.
Proof.
  intros Ht Hd. unfold aiCallback, aiAction. cbn [handStep].
  unfold aiTimerFires. destruct (aiTimers s) as [|n]; [contradiction|].
  rewrite aiDecide_ignores_timers, Hd. reflexivity.
Qed.

(** The opponent's actions in the sample runs are ones its policy takes.
    With every run of the estimator left in deck order the queen and jack
    of clubs tie each time, an estimate of 0.5; the 'weinman' policy calls
    a bet of 50 into a pot of 150 on it (0.5 exceeds 50/200 + 0.1), and
    checks the big blind when its draw of 0.9 is not below 0.5. *)
Lemma opponent_calls_in_first_hand :
  aiTimers opponentToAct <> O
  /\ aiDecide (steady 0.9) opponentToAct = Some (check, 0)
  /\ positive (Qmax 0 (currentBet (player opponentToAct)
                       - currentBet (opponent opponentToAct))) = true.
Proof.
  split; [|split].
  - vm_compute. discriminate.
  - vm_compute. reflexivity.
  - vm_compute. reflexivity.
Qed.

Lemma opponent_checks_in_second_hand :
  aiTimers secondHandDealt <> O
  /\ aiDecide (steady 0.9) secondHandDealt = Some (check, 0)
  /\ aiTimers (stateOf (startHand keepOrder beforeSecondHand)) <> O
  /\ aiDecide (steady 0.9) (stateOf (startHand keepOrder beforeSecondHand))
     = Some (check, 0).
Proof.
  split; [|split; [|split]].
  - vm_compute. discriminate.
  - vm_compute. reflexivity.
  - vm_compute. discriminate.
  - vm_compute. reflexivity.
Qed.

(** ** The pool of the equity estimator *)

(** Three runs of the estimator for the opponent's queen and jack of clubs
    before the flop, each left unshuffled: the sampled hand is the two and
    three of spades and the board the four to the eight of spades, which
    both hands play, so every run is a tie.  No run at all divides 0 by 0,
    and a pool too small for a run throws. *)
Example computeEquity_runs :
  computeEquity (fun _ => keepOrder) (cards (opponent opponentToAct))
                (board opponentToAct) (deck opponentToAct) 3
  = Some 0.5%float
  /\ computeEquity (fun _ => keepOrder) (cards (opponent opponentToAct))
                   (board opponentToAct) (deck opponentToAct) 0
     = Some PrimFloat.nan
  /\ computeEquity (fun _ => keepOrder) (cards (opponent opponentToAct))
                   (board opponentToAct) [mkCard R2 Spades] 3
     = None.
Proof. repeat split; vm_compute; reflexivity. Qed.

Lemma slotIncludes_In (arr : list slot) (x : Card) :
  slotIncludes arr x = true <-> In (Some x) arr.
Proof.
  unfold slotIncludes. rewrite existsb_exists. split.
  - intros ([y|] & Hin & Heq); [|discriminate].
    apply Card_eqb_eq in Heq. subst. exact Hin.
  - intro Hin. exists (Some x). split; [exact Hin|]. now apply Card_eqb_eq.
Qed.

Lemma newDeck_complete (x : Card) : In x newDeck.
Proof. destruct x as [r s]. destruct r, s; vm_compute; tauto. Qed.

Lemma remainingOf_In (heroCards knownBoard : list slot) (d : Deck) (x : Card) :
  In x (remainingOf heroCards knownBoard d)
  <-> In x d /\ ~ In (Some x) heroCards /\ ~ In (Some x) knownBoard.
Proof.
  unfold remainingOf. rewrite filter_In, andb_true_iff, !negb_true_iff.
  rewrite <- !slotIncludes_In.
  destruct (slotIncludes heroCards x), (slotIncludes knownBoard x);
    intuition congruence.
Qed.

(** *** The shuffle permutes the deck *)

Lemma setNth_head_swap {A : Type} (i : nat) (a y : A) (t : list A) :
  nth_error t i = Some a -> Permutation (a :: setNth i y t) (y :: t).
Proof.
  revert i. induction t as [|z t IH]; intros [|i] H; simpl in *;
    try discriminate.
  - inversion H; subst. apply perm_swap.
  - apply IH in H.
    transitivity (z :: a :: setNth i y t); [apply perm_swap|].
    transitivity (z :: y :: t); [now apply perm_skip | apply perm_swap].
Qed.

Lemma swap_Permutation {A : Type} (i j : nat) (arr : list A) :
  Permutation (swap i j arr) arr.
Proof.
  unfold swap.
  destruct (nth_error arr i) as [a|] eqn:Ea; [|reflexivity].
  destruct (nth_error arr j) as [b|] eqn:Eb; [|reflexivity].
  revert i j Ea Eb. induction arr as [|y t IH]; intros [|i] [|j] Ea Eb;
    simpl in *; try discriminate.
  - inversion Ea; inversion Eb; subst. reflexivity.
  - inversion Ea; subst. now apply setNth_head_swap.
  - inversion Eb; subst. now apply setNth_head_swap.
  - apply perm_skip. now apply IH.
Qed.

Lemma shuffleFrom_Permutation {A : Type} (rnd : nat -> nat) (i : nat)
  (arr : list A) : Permutation (shuffleFrom rnd i arr) arr.
Proof.
  revert arr. induction i as [|i IH]; intro arr; cbn [shuffleFrom];
    [reflexivity|].
  rewrite IH. apply swap_Permutation.
Qed.

Lemma shuffle_Permutation (rnd : nat -> nat) (d : Deck) :
  Permutation (shuffle rnd d) d.
Proof. apply shuffleFrom_Permutation. Qed.

Lemma distinct_NoDup (l : list Card) : distinct l = true -> NoDup l.
Proof.
  induction l as [|x l IH]; simpl; intro H; [constructor|].
  apply andb_true_iff in H. destruct H as [H1 H2].
  constructor; [|auto].
  intro Hin. apply negb_true_iff in H1.
  assert (includes l x = true); [|congruence].
  unfold includes. apply existsb_exists. exists x. split; [exact Hin|].
  now apply Card_eqb_eq.
Qed.

Lemma newDeck_NoDup : NoDup newDeck.
Proof. apply distinct_NoDup. vm_compute. reflexivity. Qed.

Lemma shuffle_NoDup (rnd : nat -> nat) : NoDup (shuffle rnd newDeck).
Proof.
  eapply Permutation_NoDup; [|exact newDeck_NoDup].
  symmetry. apply shuffle_Permutation.
Qed.

(** *** No card in play is still in the deck *)

Lemma Unseen_same (s s' : GameState) :
  deck s' = deck s -> cards (player s') = cards (player s) ->
  cards (opponent s') = cards (opponent s) -> board s' = board s ->
  Unseen s -> Unseen s'.
Proof.
  intros Hd Hp Ho Hb [U1 U2 U3 U4 U5].
  split; rewrite ?Hd, ?Hp, ?Ho, ?Hb; assumption.
Qed.

Lemma pop_cases {A : Type} (arr : list A) :
  (arr = [] /\ pop arr = (None, []))
  \/ exists x rest, arr = rest ++ [x] /\ pop arr = (Some x, rest).
Proof.
  destruct arr as [|a arr]; [left; split; reflexivity | right].
  destruct (pop_nonempty (a :: arr)) as (x & rest & H1 & H2);
    [simpl; lia | eauto].
Qed.

Lemma NoDup_snoc {A : Type} (rest : list A) (x : A) :
  NoDup (rest ++ [x]) -> NoDup rest /\ ~ In x rest.
Proof.
  intro H.
  assert (H' : NoDup (x :: rest)).
  { eapply Permutation_NoDup; [|exact H].
    symmetry. apply Permutation_cons_append. }
  inversion H'; subst. split; assumption.
Qed.

Lemma Unseen_burn (s : GameState) : Unseen s -> Unseen (burn s).
Proof.
  intros [U1 U2 U3 U4 U5]. unfold burn, dealFromDeck, afterDeal. fields.
  destruct (pop_cases (deck s)) as [[E P] | (x & rest & E & P)];
    rewrite P; cbn [snd]; split; fields; try assumption.
  - constructor.
  - intros y _ [].
  - simpl. lia.
  - rewrite E in U1. apply NoDup_snoc in U1. apply U1.
  - intros y Hy Hin. apply (U2 y Hy). rewrite E. apply in_or_app. now left.
  - rewrite E, length_snoc in U5. lia.
Qed.

Lemma Unseen_dealToBoard (s : GameState) : Unseen s -> Unseen (dealToBoard s).
Proof.
  intros [U1 U2 U3 U4 U5].
  unfold dealToBoard, dealFromDeck, dealt, afterDeal. fields.
  destruct (pop_cases (deck s)) as [[E P] | (x & rest & E & P)];
    rewrite P; cbn [fst snd]; split; fields; try assumption.
  - constructor.
  - intros y _ [].
  - intros y Hy. destruct (U3 y Hy) as [H1 H2]. split; [exact H1|].
    intro Hin. apply in_app_or in Hin. destruct Hin as [Hin|[Hin|[]]];
      [auto | discriminate].
  - simpl. lia.
  - rewrite E in U1. apply NoDup_snoc in U1. apply U1.
  - rewrite E in U1. apply NoDup_snoc in U1. destruct U1 as [U1 Ux].
    intros y Hy Hin.
    assert (Hd : In y (deck s)) by (rewrite E; apply in_or_app; now left).
    destruct Hy as [Hy|[Hy|Hy]]; [apply (U2 y); auto | apply (U2 y); auto |].
    apply in_app_or in Hy. destruct Hy as [Hy|[Hy|[]]]; [apply (U2 y); auto|].
    inversion Hy; subst. contradiction.
  - intros y Hy. destruct (U3 y Hy) as [H1 H2]. split; [exact H1|].
    intro Hin. apply in_app_or in Hin. destruct Hin as [Hin|[Hin|[]]]; [auto|].
    inversion Hin; subst. apply (U2 y); [now left|].
    rewrite E. apply in_or_app. right. now left.
  - rewrite E, length_snoc in U5. lia.
Qed.

Lemma Unseen_withStage (st : Stage) (s : GameState) :
  Unseen s -> Unseen (withStage st s).
Proof. intro U. apply (Unseen_same s); try reflexivity. exact U. Qed.

Lemma Unseen_dealFlop (s : GameState) : Unseen s -> Unseen (dealFlop s).
Proof.
  intro U. unfold dealFlop. apply Unseen_withStage.
  now repeat apply Unseen_dealToBoard; apply Unseen_burn.
Qed.

Lemma Unseen_dealTurn (s : GameState) : Unseen s -> Unseen (dealTurn s).
Proof.
  intro U. unfold dealTurn. apply Unseen_withStage.
  now apply Unseen_dealToBoard, Unseen_burn.
Qed.

Lemma Unseen_dealRiver (s : GameState) : Unseen s -> Unseen (dealRiver s).
Proof.
  intro U. unfold dealRiver. apply Unseen_withStage.
  now apply Unseen_dealToBoard, Unseen_burn.
Qed.

Lemma Unseen_goToShowdown (s : GameState) :
  Unseen s -> Unseen (stateOf (goToShowdown s)).
Proof.
  intro U. apply (Unseen_same s); [| | | | exact U];
    unfold goToShowdown; destruct (winnerOf (withStage Showdown s)) as [w|];
    try (unfold awardPot; destruct w as [[|]|]); reflexivity.
Qed.

Lemma Unseen_nextAction (s : GameState) :
  Unseen s -> Unseen (stateOf (nextAction s)).
Proof.
  intro U. unfold nextAction.
  destruct (folded (player s) || folded (opponent s)).
  - now apply Unseen_goToShowdown.
  - destruct (turn s); apply (Unseen_same s); try reflexivity; exact U.
Qed.

Lemma Unseen_bet (who : Seat) (amount : Q) (s : GameState) :
  Unseen s -> Unseen (bet who amount s).
Proof.
  intro U. apply (Unseen_same s); [| | | | exact U];
    unfold bet; destruct who; reflexivity.
Qed.

Create HintDb unseen.

#[local] Hint Resolve Unseen_bet Unseen_nextAction Unseen_goToShowdown
  Unseen_dealFlop Unseen_dealTurn Unseen_dealRiver : unseen.

Lemma Unseen_withTurn (who : Seat) (s : GameState) :
  Unseen s -> Unseen (withTurn who s).
Proof. intro U. apply (Unseen_same s); try reflexivity. exact U. Qed.

Lemma Unseen_resetBets (s : GameState) : Unseen s -> Unseen (resetBets s).
Proof. intro U. apply (Unseen_same s); try reflexivity. exact U. Qed.

Lemma Unseen_withActionLog (v : list LogEntry) (s : GameState) :
  Unseen s -> Unseen (withActionLog v s).
Proof. intro U. apply (Unseen_same s); try reflexivity. exact U. Qed.

Lemma Unseen_withAwaitingUser (v : bool) (s : GameState) :
  Unseen s -> Unseen (withAwaitingUser v s).
Proof. intro U. apply (Unseen_same s); try reflexivity. exact U. Qed.

Lemma Unseen_withAiTimers (v : nat) (s : GameState) :
  Unseen s -> Unseen (withAiTimers v s).
Proof. intro U. apply (Unseen_same s); try reflexivity. exact U. Qed.

Lemma Unseen_withFolded_player (v : bool) (s : GameState) :
  Unseen s -> Unseen (withPlayer (withFolded v (player s)) s).
Proof. intro U. apply (Unseen_same s); try reflexivity. exact U. Qed.

Lemma Unseen_withFolded_opponent (v : bool) (s : GameState) :
  Unseen s -> Unseen (withOpponent (withFolded v (opponent s)) s).
Proof. intro U. apply (Unseen_same s); try reflexivity. exact U. Qed.

#[local] Hint Resolve Unseen_withTurn Unseen_resetBets Unseen_withActionLog
  Unseen_withAwaitingUser Unseen_withAiTimers Unseen_withFolded_player
  Unseen_withFolded_opponent : unseen.

Lemma Unseen_advanceOrSwitch (s : GameState) :
  Unseen s -> Unseen (stateOf (advanceOrSwitch s)).
Proof.
  intro U. unfold advanceOrSwitch.
  pose proof (Unseen_resetBets s U) as Ur.
  destruct (Qeq_bool _ _).
  - cbv zeta.
    destruct (stage (resetBets s)); cbn [andThen].
    + apply Unseen_nextAction, Unseen_withTurn, Unseen_dealFlop, Ur.
    + apply Unseen_nextAction, Unseen_withTurn, Unseen_dealTurn, Ur.
    + apply Unseen_nextAction, Unseen_withTurn, Unseen_dealRiver, Ur.
    + pose proof (Unseen_goToShowdown _ Ur) as Ug.
      destruct (goToShowdown (resetBets s)) as [t|t]; cbn [andThen stateOf] in *;
        [|exact Ug].
      apply Unseen_nextAction, Unseen_withTurn, Ug.
    + apply Unseen_nextAction, Unseen_withTurn, Ur.
  - apply Unseen_nextAction, Unseen_withTurn, U.
Qed.

Lemma Unseen_aiAdvanceOrSwitch (s : GameState) :
  Unseen s -> Unseen (stateOf (aiAdvanceOrSwitch s)).
Proof.
  intro U. unfold aiAdvanceOrSwitch.
  pose proof (Unseen_resetBets s U) as Ur.
  destruct (Qeq_bool _ _).
  - cbv zeta.
    destruct (stage (resetBets s)).
    + apply Unseen_nextAction, Unseen_withTurn, Unseen_dealFlop, Ur.
    + apply Unseen_nextAction, Unseen_withTurn, Unseen_dealTurn, Ur.
    + apply Unseen_nextAction, Unseen_withTurn, Unseen_dealRiver, Ur.
    + apply Unseen_goToShowdown, Ur.
    + apply Unseen_nextAction, Unseen_withTurn, Ur.
  - apply Unseen_nextAction, Unseen_withTurn, U.
Qed.

Lemma Unseen_userAction (a : Action) (r : Q) (s : GameState) :
  Unseen s -> Unseen (stateOf (userAction a r s)).
Proof.
  intro U. unfold userAction. destruct a; try destruct (positive _).
  - apply Unseen_goToShowdown. auto with unseen.
  - apply Unseen_advanceOrSwitch. auto with unseen.
  - apply Unseen_advanceOrSwitch. auto with unseen.
  - apply Unseen_nextAction. auto with unseen.
  - apply Unseen_nextAction. auto with unseen.
Qed.

Lemma Unseen_aiExecute (a : Action) (r : Q) (s : GameState) :
  Unseen s -> Unseen (stateOf (aiExecute a r s)).
Proof.
  intro U. unfold aiExecute. destruct a; try destruct (positive _).
  - apply Unseen_goToShowdown. auto with unseen.
  - apply Unseen_aiAdvanceOrSwitch. auto with unseen.
  - apply Unseen_aiAdvanceOrSwitch. auto with unseen.
  - apply Unseen_aiAdvanceOrSwitch. auto with unseen.
  - apply Unseen_aiAdvanceOrSwitch. auto with unseen.
Qed.

Lemma Unseen_handStep (e : HandEvent) (s : GameState) :
  Unseen s -> Unseen (handStep e s).
Proof.
  intro U. destruct e as [a r|a r|]; cbn [handStep].
  - unfold clickAction. destruct (awaitingUser s); [|exact U].
    now apply Unseen_userAction.
  - unfold aiTimerFires. destruct (aiTimers s); [exact U|].
    apply Unseen_aiExecute. auto with unseen.
  - unfold aiTimerThrows. destruct (aiTimers s); auto with unseen.
Qed.

Lemma startHand_Unseen (rnd : nat -> nat) (s0 : GameState) :
  Unseen (stateOf (startHand rnd s0)).
Proof.
  unfold startHand, dealFromDeck. fields.
  destruct (last_four (shuffle rnd newDeck)) as (d & x1 & x2 & x3 & x4 & E & Hl).
  { rewrite length_shuffle. vm_compute. lia. }
  rewrite length_shuffle in Hl. change (length newDeck) with 52%nat in Hl.
  pose proof (shuffle_NoDup rnd) as ND. rewrite E in ND.
  apply NoDup_snoc in ND. destruct ND as [ND N1].
  apply NoDup_snoc in ND. destruct ND as [ND N2].
  apply NoDup_snoc in ND. destruct ND as [ND N3].
  apply NoDup_snoc in ND. destruct ND as [ND N4].
  rewrite !in_app_iff in N1, N2, N3. simpl in N1, N2, N3.
  rewrite E. clear E.
  repeat (rewrite ?dealt_last, ?afterDeal_last; fields).
  apply Unseen_nextAction, Unseen_withTurn, Unseen_withActionLog.
  split; unfold postBlinds, bet; fields;
    destruct (button s0); cbn [other]; fields; try exact ND; try lia;
    try (eexists; eexists; reflexivity).
  all: intros x Hx; simpl in *.
  all: try (split; intro Hy).
  all: try intro Hd.
  all: repeat match goal with
         | H : _ \/ _ |- _ => destruct H
         | H : Some _ = Some _ |- _ => inversion H; clear H; subst
         | H : False |- _ => destruct H
         end.
  all: repeat rewrite in_app_iff in *; simpl in *; tauto.
Qed.

Lemma inHand_Unseen (start s : GameState) :
  Unseen start -> inHand start s -> Unseen s.
Proof.
  intros H0 Hr. induction Hr as [|s e Hr IH Hs]; [exact H0|].
  now apply Unseen_handStep.
Qed.

Lemma filter_all {A : Type} (f : A -> bool) (l : list A) :
  (forall x, In x l -> f x = true) -> filter f l = l.
Proof.
  induction l as [|a l IH]; intro H; [reflexivity|].
  simpl. rewrite (H a) by now left.
  f_equal. apply IH. intros x Hx. apply H. now right.
Qed.

Lemma slotIncludes_false (arr : list slot) (x : Card) :
  ~ In (Some x) arr -> slotIncludes arr x = false.
Proof.
  intro H. destruct (slotIncludes arr x) eqn:E; [|reflexivity].
  apply slotIncludes_In in E. contradiction.
Qed.

(** C3 (amended). The pool is taken from the deck object passed to
    [computeEquity], and [aiAction] passes the live dealing deck.  During a
    hand no card of the opponent or of the board is still in that deck, so
    the pool is the live deck as it stands: at most 48 cards, all of them in
    the pool of the specification, and without the player's two hole cards,
    which the pool of the specification contains. *)
Theorem equity_pool_is_the_live_deck (rnd : nat -> nat) (s0 s : GameState) :
  inHand (stateOf (startHand rnd s0)) s ->
  aiEquityPool s = deck s
  /\ incl (aiEquityPool s) (specifiedPool (cards (opponent s)) (board s))
  /\ (length (aiEquityPool s) <= 48)%nat
  /\ exists x1 x2,
       cards (player s) = [Some x1; Some x2]
       /\ ~ In x1 (aiEquityPool s) /\ ~ In x2 (aiEquityPool s)
       /\ In x1 (specifiedPool (cards (opponent s)) (board s))
       /\ In x2 (specifiedPool (cards (opponent s)) (board s)).
Proof.
  intro Hr.
  pose proof (inHand_Unseen _ s (startHand_Unseen rnd s0) Hr)
    as [U1 U2 U3 (x1 & x2 & U4) U5].
  assert (Hpool : aiEquityPool s = deck s).
  { unfold aiEquityPool, remainingOf. apply filter_all. intros x Hx.
    rewrite !slotIncludes_false; [reflexivity | |];
      intro Hin; apply (U2 x); auto. }
  assert (Hspec : forall x, ~ In (Some x) (cards (opponent s)) ->
                            ~ In (Some x) (board s) ->
                            In x (specifiedPool (cards (opponent s)) (board s))).
  { intros x Ho Hb. unfold specifiedPool. apply filter_In.
    split; [apply newDeck_complete|].
    now rewrite !slotIncludes_false. }
  split; [exact Hpool|]. rewrite Hpool.
  split; [|split; [exact U5|]].
  - intros x Hx. apply Hspec; intro Hin; apply (U2 x); auto.
  - exists x1, x2. split; [exact U4|].
    assert (H1 : In (Some x1) (cards (player s))) by (rewrite U4; now left).
    assert (H2 : In (Some x2) (cards (player s)))
      by (rewrite U4; right; now left).
    repeat split.
    + apply (U2 x1). now left.
    + apply (U2 x2). now left.
    + apply Hspec; apply (U3 x1 H1).
    + apply Hspec; apply (U3 x2 H2).
Qed.

Lemma opponent_to_act_inHand :
  inHand (stateOf (startHand keepOrder (initState equal weinman))) opponentToAct.
Proof.
  unfold opponentToAct. cbn [play fold_left].
  apply hand_goes_on; [apply hand_begins | vm_compute; discriminate].
Defined.

Lemma equity_pool_is_the_live_deck_witness :
  let s0 := initState equal weinman in
  let s := opponentToAct in
  inHand (stateOf (startHand keepOrder s0)) s
  /\ (aiEquityPool s = deck s
      /\ incl (aiEquityPool s) (specifiedPool (cards (opponent s)) (board s))
      /\ (length (aiEquityPool s) <= 48)%nat
      /\ exists x1 x2,
           cards (player s) = [Some x1; Some x2]
           /\ ~ In x1 (aiEquityPool s) /\ ~ In x2 (aiEquityPool s)
           /\ In x1 (specifiedPool (cards (opponent s)) (board s))
           /\ In x2 (specifiedPool (cards (opponent s)) (board s))).
Proof.
  intros s0 s. split; [exact opponent_to_act_inHand|].
  exact (equity_pool_is_the_live_deck keepOrder s0 s opponent_to_act_inHand).
Defined.

(** C3, as claimed, fails.  First hand of an 'equal' match dealt from the
    unshuffled deck; the player has checked and the opponent is to act, so
    [aiAction] asks for an estimate.  The pool has the 48 cards left in the
    live deck; the full set minus the opponent's two cards and the empty
    board has 50.  The ace of clubs, in the player's hand, is in the second
    pool and not in the first. *)
Lemma equity_pool_is_not_the_full_deck_remainder :
  let s := opponentToAct in
  turn s = seatOpponent /\ stage s = Preflop /\ board s = []
  /\ In (Some (mkCard RA Clubs)) (cards (player s))
  /\ length (aiEquityPool s) = 48%nat
  /\ length (specifiedPool (cards (opponent s)) (board s)) = 50%nat
  /\ includes (specifiedPool (cards (opponent s)) (board s)) (mkCard RA Clubs)
     = true
  /\ includes (aiEquityPool s) (mkCard RA Clubs) = false
  /\ aiEquityPool s <> specifiedPool (cards (opponent s)) (board s).
Proof.
  intro s.
  split; [|split; [|split; [|split; [|split; [|split; [|split; [|split]]]]]]].
  - vm_compute. reflexivity.
  - vm_compute. reflexivity.
  - vm_compute. reflexivity.
  - vm_compute. left. reflexivity.
  - vm_compute. reflexivity.
  - vm_compute. reflexivity.
  - vm_compute. reflexivity.
  - vm_compute. reflexivity.
  - intro H. apply (f_equal (@length Card)) in H. vm_compute in H.
    discriminate H.
Qed.

(* ================================================================== *)
(** * Further properties *)

(** ** The deck: dealing and shuffling *)

Lemma dealTimes_last (n : nat) :
  forall (front back : list Card),
    length back = n ->
    dealTimes n (front ++ back) = (map Some (rev back), front).
Proof.
  induction n as [|n IH]; intros front back L.
  - destruct back; [|discriminate]. rewrite app_nil_r. reflexivity.
  - destruct (exists_last (l := back)) as (b & x & ->).
    { destruct back; [discriminate | congruence]. }
    rewrite length_snoc in L. cbn [dealTimes].
    rewrite app_assoc, dealt_last, afterDeal_last, (IH front b) by lia.
    rewrite rev_app_distr. reflexivity.
Qed.

Lemma dealTimes_empty (n : nat) : dealTimes n [] = (repeat None n, []).
Proof.
  induction n as [|n IH]; [reflexivity|].
  cbn [dealTimes]. change (afterDeal []) with (@nil Card). rewrite IH.
  reflexivity.
Qed.

(** X4. Successive calls of [deal()] hand out the cards of the array from
    its end, last card first, and leave the cards before them; on an
    empty deck every call returns [undefined] and the deck stays empty. *)
Theorem deals_come_off_the_end (front back : list Card) (n : nat) :
  dealTimes (length back) (front ++ back) = (map Some (rev back), front)
  /\ dealTimes (length back + n) (front ++ back)
     = (map Some (rev back) ++ fst (dealTimes n front),
        snd (dealTimes n front))
  /\ dealTimes n [] = (repeat None n, []).
Proof.
  split; [apply dealTimes_last; reflexivity|].
  split; [|apply dealTimes_empty].
  revert front. induction back as [|x back IH] using rev_ind; intro front.
  - rewrite app_nil_r. cbn [length Nat.add rev map app].
    destruct (dealTimes n front). reflexivity.
  - rewrite length_snoc. cbn [Nat.add dealTimes].
    rewrite app_assoc, dealt_last, afterDeal_last, IH.
    rewrite rev_app_distr. reflexivity.
Qed.

(** X1. The shuffle only reorders: whatever the draws, [shuffleArray] and
    [Deck.shuffle] return the elements they were given, each as often as
    it was there, and an array of at most one element is left as it is. *)
Theorem shuffle_only_reorders {A : Type} (rnd : nat -> nat) (arr : list A)
  (d : Deck) :
  Permutation (shuffleArray rnd arr) arr
  /\ length (shuffleArray rnd arr) = length arr
  /\ Permutation (shuffle rnd d) d
  /\ shuffleArray rnd (@nil A) = []
  /\ (forall x : A, shuffleArray rnd [x] = [x]).
Proof.
  split; [apply shuffleFrom_Permutation|].
  split; [apply length_shuffleFrom|].
  split; [apply shuffle_Permutation|].
  split; reflexivity.
Qed.

(** X3. The deck a hand is dealt from, [new Deck()] shuffled, holds each
    of the 52 cards exactly once, whatever the draws of the shuffle. *)
Theorem shuffled_deck_is_a_full_deck (rnd : nat -> nat) :
  let d := shuffle rnd newDeck in
  length d = 52%nat /\ NoDup d /\ (forall c : Card, In c d)
  /\ length newDeck = (length SUITS * length RANKS)%nat.
Proof.
  cbv zeta. split; [rewrite length_shuffle; reflexivity|].
  split; [apply shuffle_NoDup|]. split; [|reflexivity].
  intro c. eapply Permutation_in; [symmetry; apply shuffle_Permutation|].
  apply newDeck_complete.
Qed.

Lemma setNth_app_l {A : Type} (i : nat) (x : A) (a b : list A) :
  (i < length a)%nat -> setNth i x (a ++ b) = setNth i x a ++ b.
Proof.
  revert i. induction a as [|y a IH]; intros i H; [simpl in H; lia|].
  destruct i as [|i]; [reflexivity|].
  cbn [app setNth]. rewrite IH by (simpl in H; lia). reflexivity.
Qed.

Lemma swap_app_l {A : Type} (i j : nat) (a b : list A) :
  (i < length a)%nat -> (j < length a)%nat ->
  swap i j (a ++ b) = swap i j a ++ b.
Proof.
  intros Hi Hj. unfold swap.
  rewrite !nth_error_app1 by assumption.
  destruct (nth_error a i); [|reflexivity].
  destruct (nth_error a j); [|reflexivity].
  rewrite setNth_app_l by assumption.
  rewrite setNth_app_l by (rewrite length_setNth; assumption).
  reflexivity.
Qed.

(** The draws at the indices above [i] do not touch the elements up to
    [i], and the draws up to [i] do not touch those above. *)
Lemma shuffleFrom_app_l {A : Type} (rnd : nat -> nat) (i : nat) :
  forall a b : list A,
    (i < length a)%nat ->
    shuffleFrom rnd i (a ++ b) = shuffleFrom rnd i a ++ b.
Proof.
  induction i as [|i IH]; intros a b H; [reflexivity|].
  cbn [shuffleFrom].
  assert (Hj : (rnd (S i) mod S (S i) < length a)%nat).
  { pose proof (Nat.mod_upper_bound (rnd (S i)) (S (S i))). lia. }
  rewrite swap_app_l by assumption.
  apply IH. rewrite length_swap. lia.
Qed.

Lemma shuffleFrom_ext {A : Type} (rnd rnd' : nat -> nat) (i : nat) :
  forall arr : list A,
    (forall k, (1 <= k <= i)%nat -> rnd k = rnd' k) ->
    shuffleFrom rnd i arr = shuffleFrom rnd' i arr.
Proof.
  induction i as [|i IH]; intros arr H; [reflexivity|].
  cbn [shuffleFrom]. rewrite (H (S i)) by lia.
  apply IH. intros k Hk. apply H. lia.
Qed.

Lemma nth_error_setNth {A : Type} (i k : nat) (x : A) (arr : list A) :
  nth_error (setNth i x arr) k
  = if (k =? i)%nat then
      (if (i <? length arr)%nat then Some x else None)
    else nth_error arr k.
Proof.
  revert i k. induction arr as [|y arr IH]; intros i k.
  - cbn [setNth length]. rewrite Nat.ltb_irrefl || idtac.
    destruct i, k; cbn [nth_error Nat.eqb Nat.ltb Nat.leb];
      try reflexivity; destruct (k =? i)%nat; reflexivity.
  - destruct i as [|i], k as [|k]; cbn [setNth nth_error]; try reflexivity.
    rewrite IH. cbn [Nat.eqb length].
    change (S i <? S (length arr))%nat with (i <? length arr)%nat.
    reflexivity.
Qed.

(** The swap at the last index puts the chosen element last. *)
Lemma swap_to_last {A : Type} (m j : nat) (arr : list A) (y : A) :
  length arr = S m -> nth_error arr j = Some y ->
  exists a, swap m j arr = a ++ [y] /\ length a = m.
Proof.
  intros L Hj.
  assert (Hlast : nth_error (swap m j arr) m = Some y).
  { unfold swap.
    destruct (nth_error arr m) as [x|] eqn:Em.
    - rewrite Hj. rewrite nth_error_setNth, length_setNth.
      destruct (Nat.eqb_spec m j) as [->|Ne].
      + assert (x = y) by congruence. subst x.
        assert (Hl : (j < length arr)%nat) by (apply nth_error_Some; congruence).
        apply Nat.ltb_lt in Hl. rewrite Hl. reflexivity.
      + rewrite nth_error_setNth, Nat.eqb_refl.
        assert (Hl : (m <? length arr)%nat = true)
          by (apply Nat.ltb_lt; lia).
        rewrite Hl. reflexivity.
    - apply nth_error_None in Em. lia. }
  pose proof (length_swap m j arr) as Ls. rewrite L in Ls.
  destruct (exists_last (l := swap m j arr)) as (a & z & E).
  { intro N. rewrite N in Ls. discriminate. }
  rewrite E in *. rewrite length_snoc in Ls.
  assert (La : length a = m) by lia.
  rewrite nth_error_app2 in Hlast by lia.
  rewrite La, Nat.sub_diag in Hlast. cbn [nth_error] in Hlast.
  exists a. split; [congruence | exact La].
Qed.

Lemma shuffleFrom_reaches {A : Type} (n : nat) :
  forall arr target : list A,
    length arr = S n -> Permutation arr target ->
    exists rnd, shuffleFrom rnd n arr = target.
Proof.
  induction n as [|n IH]; intros arr target L P.
  - exists (fun _ => 0%nat). cbn [shuffleFrom].
    destruct arr as [|x [|? ?]]; try discriminate.
    apply Permutation_length_1_inv in P. congruence.
  - assert (Lt : length target = S (S n))
      by (rewrite <- (Permutation_length P); exact L).
    destruct (exists_last (l := target)) as (t & y & E).
    { intro N. rewrite N in Lt. discriminate. }
    subst target.
    assert (Hy : In y arr).
    { apply (Permutation_in y (Permutation_sym P)).
      apply in_or_app. right. left. reflexivity. }
    destruct (In_nth_error _ _ Hy) as (j & Hj).
    assert (Hjl : (j < length arr)%nat) by (apply nth_error_Some; congruence).
    destruct (swap_to_last (S n) j arr y L Hj) as (a & Ea & La).
    assert (Pa : Permutation a t).
    { apply (Permutation_app_inv_r [y]).
      rewrite <- Ea.
      apply (Permutation_trans (swap_Permutation _ _ _) P). }
    destruct (IH a t La Pa) as (rnd' & Hr).
    exists (fun k => if (k =? S n)%nat then j else rnd' k).
    cbn [shuffleFrom]. rewrite Nat.eqb_refl.
    rewrite Nat.mod_small by lia.
    rewrite Ea, shuffleFrom_app_l by lia.
    rewrite (shuffleFrom_ext _ rnd').
    + rewrite Hr. reflexivity.
    + intros k Hk. destruct (Nat.eqb_spec k (S n)); [lia | reflexivity].
Qed.

(** X2. [Deck.shuffle] and [shuffleArray] can produce every order: for each
    rearrangement of the array there are draws of [Math.random] under which
    the Fisher-Yates loop returns exactly that rearrangement.  As the
    shuffle only reorders, the orders it can return are exactly the
    permutations of its input. *)
Theorem shuffle_reaches_every_order {A : Type} (arr target : list A)
    (P : Permutation arr target) :
  exists rnd, shuffleArray rnd arr = target.
Proof.
  unfold shuffleArray.
  destruct arr as [|x arr].
  - apply Permutation_nil in P. subst. exists (fun _ => 0%nat). reflexivity.
  - cbn [length]. rewrite Nat.sub_1_r. cbn [Nat.pred].
    apply shuffleFrom_reaches; [reflexivity | exact P].
Qed.

Lemma shuffle_reaches_every_order_witness :
  Permutation [1; 2; 3]%nat [3; 1; 2]%nat
  /\ exists rnd, shuffleArray rnd [1; 2; 3]%nat = [3; 1; 2]%nat.
Proof.
  assert (P : Permutation [1; 2; 3]%nat [3; 1; 2]%nat).
  { apply Permutation_sym. apply (Permutation_cons_append [1; 2]%nat 3%nat). }
  split; [exact P | exact (shuffle_reaches_every_order _ _ P)].
Defined.

(** ** The evaluator on five cards *)

Lemma length_insertDesc {A : Type} (key : A -> Z) (x : A) (l : list A) :
  length (insertDesc key x l) = S (length l).
Proof.
  induction l as [|y l IH]; [reflexivity|].
  cbn [insertDesc]. destruct (key y >? key x)%Z; cbn [length]; congruence.
Qed.

Lemma length_sortDesc {A : Type} (key : A -> Z) (l : list A) :
  length (sortDesc key l) = length l.
Proof.
  induction l as [|x l IH]; [reflexivity|].
  unfold sortDesc in *. cbn [fold_right length].
  rewrite length_insertDesc. congruence.
Qed.

Lemma insertDesc_Permutation {A : Type} (key : A -> Z) (x : A) (l : list A) :
  Permutation (x :: l) (insertDesc key x l).
Proof.
  induction l as [|y l IH]; [reflexivity|].
  cbn [insertDesc]. destruct (key y >? key x)%Z; [|reflexivity].
  rewrite perm_swap. apply perm_skip. exact IH.
Qed.

Lemma sortDesc_Permutation {A : Type} (key : A -> Z) (l : list A) :
  Permutation l (sortDesc key l).
Proof.
  induction l as [|x l IH]; [reflexivity|].
  unfold sortDesc in *. cbn [fold_right].
  rewrite <- insertDesc_Permutation. apply perm_skip. exact IH.
Qed.

Lemma insertDesc_map {A B : Type} (f : A -> B) (key : B -> Z) (x : A)
  (l : list A) :
  map f (insertDesc (fun a => key (f a)) x l) = insertDesc key (f x) (map f l).
Proof.
  induction l as [|y l IH]; [reflexivity|].
  cbn [insertDesc map]. destruct (key (f y) >? key (f x))%Z; cbn [map];
    congruence.
Qed.

Lemma sortDesc_map {A B : Type} (f : A -> B) (key : B -> Z) (l : list A) :
  map f (sortDesc (fun a => key (f a)) l) = sortDesc key (map f l).
Proof.
  induction l as [|x l IH]; [reflexivity|].
  unfold sortDesc in *. cbn [fold_right map].
  rewrite insertDesc_map. congruence.
Qed.

Lemma insertDesc_descending {A : Type} (key : A -> Z) (x : A) (l : list A) :
  descending key l -> descending key (insertDesc key x l).
Proof.
  induction l as [|y l IH]; intro H.
  - simpl. auto.
  - cbn [insertDesc]. destruct (Z.gtb_spec (key y) (key x)) as [G|G].
    + destruct H as [H1 H2]. specialize (IH H2).
      split; [|exact IH].
      destruct l as [|z l]; cbn [insertDesc] in *.
      * lia.
      * destruct (key z >? key x)%Z; lia.
    + split; [lia | exact H].
Qed.

Lemma sortDesc_descending {A : Type} (key : A -> Z) (l : list A) :
  descending key (sortDesc key l).
Proof.
  induction l as [|x l IH]; [exact I|].
  unfold sortDesc in *. cbn [fold_right].
  apply insertDesc_descending. exact IH.
Qed.

(** A sorted array is its own sorted copy. *)
Lemma insertDesc_head {A : Type} (key : A -> Z) (x : A) (l : list A) :
  (match l with [] => True | y :: _ => (key y <= key x)%Z end) ->
  insertDesc key x l = x :: l.
Proof.
  destruct l as [|y l]; [reflexivity|].
  intro H. cbn [insertDesc].
  destruct (Z.gtb_spec (key y) (key x)); [lia | reflexivity].
Qed.

Lemma sortDesc_of_descending {A : Type} (key : A -> Z) (l : list A) :
  descending key l -> sortDesc key l = l.
Proof.
  induction l as [|x l IH]; [reflexivity|].
  intros [H1 H2]. unfold sortDesc in *. cbn [fold_right].
  rewrite (IH H2). apply insertDesc_head. exact H1.
Qed.

Lemma fold_left_map {A B C : Type} (f : C -> B -> C) (g : A -> B)
  (l : list A) (c : C) :
  fold_left (fun o a => f o (g a)) l c = fold_left f (map g l) c.
Proof.
  revert c. induction l as [|x l IH]; intro c; [reflexivity|].
  cbn [fold_left map]. apply IH.
Qed.

Lemma five_cards (hand : list Card) :
  length hand = 5%nat ->
  exists c1 c2 c3 c4 c5, hand = [c1; c2; c3; c4; c5].
Proof.
  destruct hand as [|c1 [|c2 [|c3 [|c4 [|c5 [|c6 t]]]]]]; try discriminate.
  intros _. now exists c1, c2, c3, c4, c5.
Qed.

(** With five cards the flush test passes exactly when the five suits
    agree, and the cards of the flush suit are then all five. *)
Lemma flush_of_five (c1 c2 c3 c4 c5 : Card) :
  let hand := [c1; c2; c3; c4; c5] in
  let suits := fold_left (fun o c => bump Suit_eqb (suit c) o) hand [] in
  existsb (fun kv => (snd kv >=? 5)%Z) suits = sameSuit hand
  /\ (sameSuit hand = true ->
      filter (fun c =>
                match find (fun s => (suitCountOf suits s >=? 5)%Z)
                           (suitKeys suits) with
                | Some s => Suit_eqb (suit c) s
                | None => false
                end) hand = hand).
Proof.
  destruct c1 as [r1 s1], c2 as [r2 s2], c3 as [r3 s3], c4 as [r4 s4],
           c5 as [r5 s5].
  destruct s1, s2, s3, s4, s5; vm_compute; split;
    solve [reflexivity | discriminate].
Qed.

Lemma evaluate5_by_ranks (hand0 : list Card) :
  length hand0 = 5%nat ->
  evaluate5 hand0
  = evaluateRanks (map rank (sortDesc rankValue hand0))
                  (sameSuit (sortDesc rankValue hand0)).
Proof.
  intro L.
  assert (Hd := sortDesc_descending rankValue hand0).
  unfold evaluate5, evaluateRanks, countsOf. cbv zeta.
  rewrite <- (length_sortDesc rankValue) in L.
  remember (sortDesc rankValue hand0) as hand eqn:E. clear E.
  destruct (five_cards hand L) as (c1 & c2 & c3 & c4 & c5 & ->).
  destruct (flush_of_five c1 c2 c3 c4 c5) as [F1 F2]. cbv zeta in F1, F2.
  rewrite F1.
  rewrite <- !(fold_left_map (fun o r => bump Rank_eqb r o) rank).
  rewrite !map_map. cbv beta.
  change (fun x : Card => RANK_VALUES (rank x)) with rankValue.
  rewrite <- (sortDesc_map rankValue (fun v => v)). cbv beta.
  change (fun a : Card => rankValue a) with rankValue.
  destruct (sameSuit [c1; c2; c3; c4; c5]) eqn:S.
  - rewrite (F2 eq_refl).
    rewrite !(sortDesc_of_descending rankValue _ Hd).
    rewrite <- !firstn_map, !map_map. reflexivity.
  - reflexivity.
Qed.

Lemma descending_map {A B : Type} (f : A -> B) (key : B -> Z) (l : list A) :
  descending (fun a => key (f a)) l -> descending key (map f l).
Proof.
  induction l as [|x l IH]; [auto|].
  intros [H1 H2]. split; [|exact (IH H2)].
  destruct l; [exact I | exact H1].
Qed.

Lemma Rank_in_RANKS (r : Rank) : In r RANKS.
Proof. destruct r; simpl; tauto. Qed.

Lemma descLists_complete (k : nat) :
  forall (bound : Z) (rs : list Rank),
    length rs = k -> descending RANK_VALUES rs ->
    match rs with [] => True | r :: _ => (RANK_VALUES r <= bound)%Z end ->
    In rs (descLists k bound).
Proof.
  induction k as [|k IH]; intros bound rs L D B.
  - destruct rs; [now left | discriminate].
  - destruct rs as [|r rs]; [discriminate|].
    cbn [descLists]. apply in_flat_map. exists r.
    split; [apply Rank_in_RANKS|].
    destruct (Z.leb_spec (RANK_VALUES r) bound); [|lia].
    apply in_map. apply IH.
    + simpl in L. lia.
    + apply D.
    + destruct D as [D _]. destruct rs; [exact I | exact D].
Qed.

Lemma RANK_VALUES_max (r : Rank) : (RANK_VALUES r <= 14)%Z.
Proof. destruct r; simpl; lia. Qed.

Lemma every_five_card_hand (P : list Rank -> bool -> HandRank -> bool) :
  allFiveCardHands P = true ->
  forall hand0 : list Card,
    length hand0 = 5%nat ->
    P (map rank (sortDesc rankValue hand0))
      (sameSuit (sortDesc rankValue hand0)) (evaluate5 hand0) = true.
Proof.
  intros H hand0 L. rewrite (evaluate5_by_ranks hand0 L).
  unfold allFiveCardHands in H. rewrite forallb_forall in H.
  assert (Hin : In (map rank (sortDesc rankValue hand0)) (descLists 5 14)).
  { apply descLists_complete.
    - rewrite length_map, length_sortDesc. exact L.
    - apply descending_map. apply (sortDesc_descending rankValue).
    - destruct (map rank (sortDesc rankValue hand0)); [exact I|].
      apply RANK_VALUES_max. }
  specialize (H _ Hin). apply andb_true_iff in H. destruct H as [Ht Hf].
  destruct (sameSuit (sortDesc rankValue hand0)); assumption.
Qed.

Lemma evaluate5_wellFormed (hand0 : list Card) :
  length hand0 = 5%nat -> wellFormed (evaluate5 hand0) = true.
Proof.
  apply (every_five_card_hand (fun _ _ hr => wellFormed hr)).
  vm_compute. reflexivity.
Qed.

(** ** The comparison of ranks; the best five of the cards *)

Lemma at_cons (x : jsnum) (a : list jsnum) (i : nat) :
  at_ (x :: a) (S i) = at_ a i.
Proof. reflexivity. Qed.

Lemma lexFrom_shift (x y : jsnum) (a b : list jsnum) (fuel i : nat) :
  lexFrom (x :: a) (y :: b) (S i) fuel = lexFrom a b i fuel.
Proof.
  revert i. induction fuel as [|fuel IH]; intro i; [reflexivity|].
  cbn [lexFrom]. rewrite !at_cons, IH. reflexivity.
Qed.

Lemma betterFrom_lexFrom (a b : list jsnum) (fuel i : nat) :
  betterFrom a b i fuel = (lexFrom a b i fuel =? 1)%Z.
Proof.
  revert i. induction fuel as [|fuel IH]; intro i; [reflexivity|].
  cbn [betterFrom lexFrom].
  destruct (js_gt (at_ a i) (at_ b i)); [reflexivity|].
  destruct (js_lt (at_ a i) (at_ b i)); [reflexivity|]. apply IH.
Qed.

Lemma lexFrom_Zlex (za zb : list Z) :
  lexFrom (map Some za) (map Some zb) 0 (length (map Some za)) = Zlex za zb.
Proof.
  revert zb. induction za as [|x za IH]; intro zb; [reflexivity|].
  destruct zb as [|y zb].
  - cbn [map length]. apply lexFrom_beyond. right. simpl. lia.
  - cbn [map length lexFrom Zlex]. unfold at_ at 1 2 3 4. cbn [nth_error js_gt js_lt].
    destruct (x >? y)%Z; [reflexivity|].
    destruct (x <? y)%Z; [reflexivity|].
    rewrite lexFrom_shift. apply IH.
Qed.

Lemma shaped_values (hr : HandRank) :
  shaped hr = true ->
  values hr = map Some (numbers hr)
  /\ length (numbers hr) = arity (category hr).
Proof.
  unfold shaped, numbers. intro H. apply andb_true_iff in H.
  destruct H as [L D]. apply Nat.eqb_eq in L.
  rewrite length_map. split; [|exact L]. clear L.
  induction (values hr) as [|v l IH]; [reflexivity|].
  cbn [forallb] in D. apply andb_true_iff in D. destruct D as [D1 D2].
  destruct v; [|discriminate]. cbn [map]. f_equal. apply IH. exact D2.
Qed.

Lemma compareRanks_Zlex (a b : HandRank) :
  shaped a = true -> shaped b = true ->
  compareRanks a b
  = (if (category a >? category b)%Z then 1
     else if (category a <? category b)%Z then -1
     else Zlex (numbers a) (numbers b))%Z.
Proof.
  intros Ha Hb. unfold compareRanks.
  destruct (shaped_values a Ha) as [Ea _].
  destruct (shaped_values b Hb) as [Eb _].
  rewrite Ea, Eb, lexFrom_Zlex. reflexivity.
Qed.

Lemma Zlex_range (a b : list Z) :
  Zlex a b = 1%Z \/ Zlex a b = 0%Z \/ Zlex a b = (-1)%Z.
Proof.
  revert b. induction a as [|x a IH]; intro b; [auto|].
  destruct b as [|y b]; [auto|]. cbn [Zlex].
  destruct (x >? y)%Z; [auto|]. destruct (x <? y)%Z; auto.
Qed.

Lemma Zlex_refl (a : list Z) : Zlex a a = 0%Z.
Proof.
  induction a as [|x a IH]; [reflexivity|]. cbn [Zlex].
  rewrite Z.gtb_ltb, Z.ltb_irrefl. exact IH.
Qed.

Lemma Zlex_eq (a b : list Z) :
  length a = length b -> Zlex a b = 0%Z -> a = b.
Proof.
  revert b. induction a as [|x a IH]; intros [|y b] L H; try discriminate;
    [reflexivity|].
  cbn [Zlex] in H. rewrite Z.gtb_ltb in H.
  destruct (Z.ltb_spec y x); [discriminate|].
  destruct (Z.ltb_spec x y); [discriminate|].
  f_equal; [lia|]. apply IH; [simpl in L; lia | exact H].
Qed.

Lemma Zlex_trans (a b c : list Z) :
  length a = length b -> length b = length c ->
  (0 <= Zlex a b)%Z -> (0 <= Zlex b c)%Z ->
  (0 <= Zlex a c)%Z
  /\ (Zlex a b = 1%Z \/ Zlex b c = 1%Z -> Zlex a c = 1%Z).
Proof.
  revert b c. induction a as [|x a IH]; intros [|y b] [|z c] L1 L2 H1 H2;
    try discriminate.
  - simpl. split; [lia | intros [?|?]; discriminate].
  - cbn [Zlex] in *. rewrite !Z.gtb_ltb in *.
    destruct (Z.ltb_spec y x), (Z.ltb_spec x y), (Z.ltb_spec z y),
             (Z.ltb_spec y z), (Z.ltb_spec z x), (Z.ltb_spec x z);
      try lia; try (split; [lia | intros; reflexivity]).
    apply IH with (b := b); simpl in *; lia.
Qed.

Lemma compareRanks_range (a b : HandRank) :
  compareRanks a b = 1%Z \/ compareRanks a b = 0%Z
  \/ compareRanks a b = (-1)%Z.
Proof.
  unfold compareRanks.
  destruct (category a >? category b)%Z; [auto|].
  destruct (category a <? category b)%Z; [auto|].
  generalize (length (values a)) 0%nat. intros fuel.
  induction fuel as [|fuel IH]; intro i; [auto|].
  cbn [lexFrom]. destruct (js_gt _ _); [auto|]. destruct (js_lt _ _); auto.
Qed.

Lemma compareRanks_refl (a : HandRank) : compareRanks a a = 0%Z.
Proof.
  generalize (compareRanks_antisym a a). lia.
Qed.

Lemma compareRanks_trans (a b c : HandRank) :
  shaped a = true -> shaped b = true -> shaped c = true ->
  (0 <= compareRanks a b)%Z -> (0 <= compareRanks b c)%Z ->
  (0 <= compareRanks a c)%Z
  /\ (compareRanks a b = 1%Z \/ compareRanks b c = 1%Z ->
      compareRanks a c = 1%Z).
Proof.
  intros Ha Hb Hc.
  rewrite (compareRanks_Zlex a b Ha Hb), (compareRanks_Zlex b c Hb Hc),
          (compareRanks_Zlex a c Ha Hc).
  destruct (shaped_values a Ha) as [_ La].
  destruct (shaped_values b Hb) as [_ Lb].
  destruct (shaped_values c Hc) as [_ Lc].
  rewrite !Z.gtb_ltb.
  destruct (Z.ltb_spec (category b) (category a)),
           (Z.ltb_spec (category a) (category b)),
           (Z.ltb_spec (category c) (category b)),
           (Z.ltb_spec (category b) (category c)),
           (Z.ltb_spec (category c) (category a)),
           (Z.ltb_spec (category a) (category c));
    try lia; try (intros; split; [lia | intros; reflexivity]).
  assert (E1 : category a = category b) by lia.
  assert (E2 : category b = category c) by lia.
  apply Zlex_trans; congruence.
Qed.

Lemma compareRanks_eq (a b : HandRank) :
  shaped a = true -> shaped b = true -> compareRanks a b = 0%Z -> a = b.
Proof.
  intros Ha Hb. rewrite (compareRanks_Zlex a b Ha Hb).
  destruct (shaped_values a Ha) as [Ea La].
  destruct (shaped_values b Hb) as [Eb Lb].
  rewrite Z.gtb_ltb.
  destruct (Z.ltb_spec (category b) (category a)); [discriminate|].
  destruct (Z.ltb_spec (category a) (category b)); [discriminate|].
  intro Hz. assert (E : category a = category b) by lia.
  apply Zlex_eq in Hz; [|congruence].
  destruct a as [ca va], b as [cb vb]. cbn [category values] in *.
  subst cb. f_equal. rewrite Ea, Eb. unfold numbers in *.
  cbn [values] in *. congruence.
Qed.

Lemma wellFormed_shaped (hr : HandRank) :
  wellFormed hr = true -> shaped hr = true.
Proof.
  unfold wellFormed, shaped. rewrite !andb_true_iff.
  intros [[_ L] V]. split; [exact L|].
  rewrite forallb_forall in *. intros v Hv. specialize (V v Hv).
  destruct v; [reflexivity | discriminate].
Qed.

(** *** The combinations *)

Lemma combinations_length {A : Type} (k : nat) (l c : list A) :
  In c (combinations k l) -> length c = k.
Proof.
  revert k c. induction l as [|x l IH]; intros k c H.
  - destruct k; simpl in H; [|contradiction].
    destruct H as [<-|[]]. reflexivity.
  - destruct k as [|k].
    + simpl in H. destruct H as [<-|[]]. reflexivity.
    + cbn [combinations] in H. apply in_app_or in H. destruct H as [H|H].
      * apply in_map_iff in H. destruct H as (c' & <- & H).
        simpl. f_equal. apply (IH k). exact H.
      * apply (IH (S k)). exact H.
Qed.

Lemma combinations_subseq {A : Type} (l c : list A) :
  subseq c l -> In c (combinations (length c) l).
Proof.
  induction 1 as [|x c l H IH|x c l H IH].
  - now left.
  - cbn [length combinations]. apply in_or_app. left.
    apply in_map. exact IH.
  - destruct c as [|y c].
    + simpl. now left.
    + cbn [length combinations] in *. apply in_or_app. right. exact IH.
Qed.

Lemma subseq_combinations {A : Type} (k : nat) (l c : list A) :
  In c (combinations k l) -> subseq c l.
Proof.
  revert k c. induction l as [|x l IH]; intros k c H.
  - destruct k; simpl in H; [|contradiction].
    destruct H as [<-|[]]. constructor.
  - destruct k as [|k].
    + simpl in H. destruct H as [<-|[]]. apply subseq_skip.
      clear IH. induction l; constructor; assumption.
    + cbn [combinations] in H. apply in_app_or in H. destruct H as [H|H].
      * apply in_map_iff in H. destruct H as (c' & <- & H).
        apply subseq_take. apply (IH k). exact H.
      * apply subseq_skip. apply (IH (S k)). exact H.
Qed.

Lemma subseq_selection {A : Type} (c l : list A) :
  subseq c l -> exists rest, Permutation (c ++ rest) l.
Proof.
  induction 1 as [|x c l H [rest IH]|x c l H [rest IH]].
  - exists []. reflexivity.
  - exists rest. simpl. apply perm_skip. exact IH.
  - exists (x :: rest). rewrite <- Permutation_middle.
    apply perm_skip. exact IH.
Qed.

Lemma selection_subseq {A : Type} (l : list A) :
  forall five rest : list A,
    Permutation (five ++ rest) l ->
    exists c, subseq c l /\ Permutation c five.
Proof.
  induction l as [|x l IH]; intros five rest H.
  - apply Permutation_sym, Permutation_nil in H.
    apply app_eq_nil in H. destruct H as [-> _].
    exists []. split; constructor.
  - assert (Hin : In x (five ++ rest))
      by (eapply Permutation_in; [symmetry; exact H | now left]).
    apply in_app_or in Hin. destruct Hin as [Hin|Hin].
    + apply in_split in Hin. destruct Hin as (f1 & f2 & ->).
      assert (H' : Permutation ((f1 ++ f2) ++ rest) l).
      { apply Permutation_cons_inv with (a := x).
        rewrite <- H. rewrite <- !app_assoc. simpl.
        apply Permutation_middle. }
      destruct (IH _ _ H') as (c & Hc & Pc).
      exists (x :: c). split; [apply subseq_take; exact Hc|].
      rewrite <- Permutation_middle. apply perm_skip. exact Pc.
    + apply in_split in Hin. destruct Hin as (r1 & r2 & ->).
      assert (H' : Permutation (five ++ (r1 ++ r2)) l).
      { apply Permutation_cons_inv with (a := x).
        rewrite <- H. rewrite !app_assoc. apply Permutation_middle. }
      destruct (IH _ _ H') as (c & Hc & Pc).
      exists c. split; [apply subseq_skip; exact Hc | exact Pc].
Qed.

(** *** [evaluate5] does not depend on the order of its five cards *)

Lemma descending_Permutation_eq (l l' : list Z) :
  descending (fun v => v) l -> descending (fun v => v) l' ->
  Permutation l l' -> l = l'.
Proof.
  revert l'. induction l as [|x l IH]; intros l' D D' P.
  - apply Permutation_nil in P. now subst.
  - destruct l' as [|y l'].
    { apply Permutation_sym, Permutation_nil in P. discriminate. }
    assert (Hmax : forall (m : list Z) (a : Z),
               descending (fun v => v) (a :: m) ->
               forall b, In b (a :: m) -> (b <= a)%Z).
    { clear. induction m as [|c m IHm]; intros a Dm b Hb.
      - destruct Hb as [<-|[]]. lia.
      - destruct Hb as [<-|Hb]; [lia|].
        destruct Dm as [Dm1 Dm2]. specialize (IHm c Dm2 b Hb). lia. }
    assert (x = y).
    { assert (x <= y)%Z
        by (apply (Hmax l' y D'); eapply Permutation_in; [exact P | now left]).
      assert (y <= x)%Z
        by (apply (Hmax l x D); eapply Permutation_in;
            [symmetry; exact P | now left]).
      lia. }
    subst y. f_equal. apply IH.
    + apply D.
    + apply D'.
    + eapply Permutation_cons_inv. exact P.
Qed.

Lemma RANK_VALUES_inj (a b : Rank) : RANK_VALUES a = RANK_VALUES b -> a = b.
Proof. destruct a, b; simpl; intro H; congruence. Qed.

Lemma map_inj {A B : Type} (f : A -> B) (l l' : list A) :
  (forall a b, f a = f b -> a = b) -> map f l = map f l' -> l = l'.
Proof.
  intro Hf. revert l'. induction l as [|x l IH]; intros [|y l'] H;
    try discriminate; [reflexivity|].
  simpl in H. inversion H. f_equal; auto.
Qed.

Lemma sorted_ranks_Permutation (h h' : list Card) :
  Permutation h h' ->
  map rank (sortDesc rankValue h) = map rank (sortDesc rankValue h').
Proof.
  intro P. apply (map_inj RANK_VALUES); [apply RANK_VALUES_inj|].
  rewrite !map_map.
  change (fun x : Card => RANK_VALUES (rank x)) with rankValue.
  apply descending_Permutation_eq.
  - apply (descending_map rankValue (fun v => v)).
    apply (sortDesc_descending rankValue).
  - apply (descending_map rankValue (fun v => v)).
    apply (sortDesc_descending rankValue).
  - apply Permutation_map.
    rewrite <- (sortDesc_Permutation rankValue h).
    rewrite <- (sortDesc_Permutation rankValue h'). exact P.
Qed.

Lemma sameSuit_spec (h : list Card) :
  sameSuit h = true <-> forall a b, In a h -> In b h -> suit a = suit b.
Proof.
  destruct h as [|c h]; cbn [sameSuit].
  - split; [intros _ a b []| reflexivity].
  - rewrite forallb_forall. split.
    + intros H a b Ha Hb.
      assert (Hc : forall d, In d (c :: h) -> suit d = suit c).
      { intros d [<-|Hd]; [reflexivity|]. apply Suit_eqb_eq. auto. }
      rewrite (Hc a Ha), (Hc b Hb). reflexivity.
    + intros H d Hd. apply Suit_eqb_eq. apply H; [now right | now left].
Qed.

Lemma sameSuit_Permutation (h h' : list Card) :
  Permutation h h' -> sameSuit h = sameSuit h'.
Proof.
  intro P.
  destruct (sameSuit h) eqn:E, (sameSuit h') eqn:E'; try reflexivity.
  - rewrite sameSuit_spec in E.
    assert (X : sameSuit h' = true).
    { apply sameSuit_spec. intros a b Ha Hb.
      apply E; eapply Permutation_in; try eassumption; symmetry; exact P. }
    congruence.
  - rewrite sameSuit_spec in E'.
    assert (X : sameSuit h = true).
    { apply sameSuit_spec. intros a b Ha Hb.
      apply E'; eapply Permutation_in; eassumption. }
    congruence.
Qed.

Lemma evaluate5_Permutation (h h' : list Card) :
  length h = 5%nat -> Permutation h h' -> evaluate5 h = evaluate5 h'.
Proof.
  intros L P.
  assert (L' : length h' = 5%nat)
    by (rewrite <- (Permutation_length P); exact L).
  rewrite (evaluate5_by_ranks h L), (evaluate5_by_ranks h' L').
  rewrite (sorted_ranks_Permutation h h' P).
  rewrite (sameSuit_Permutation (sortDesc rankValue h) (sortDesc rankValue h')).
  - reflexivity.
  - rewrite <- (sortDesc_Permutation rankValue h).
    rewrite <- (sortDesc_Permutation rankValue h'). exact P.
Qed.

(** *** [evaluateHand] keeps a best combination *)

Lemma keepBest_compare (best : HandRank) (hand : list Card) :
  keepBest best hand
  = if (compareRanks (evaluate5 hand) best =? 1)%Z then evaluate5 hand
    else best.
Proof.
  unfold keepBest, compareRanks, isBetter. cbv zeta.
  rewrite betterFrom_lexFrom.
  destruct (Z.gtb_spec (category (evaluate5 hand)) (category best));
    [reflexivity|].
  destruct (Z.ltb_spec (category (evaluate5 hand)) (category best)).
  - destruct (Z.eqb_spec (category (evaluate5 hand)) (category best));
      [lia | reflexivity].
  - destruct (Z.eqb_spec (category (evaluate5 hand)) (category best));
      [reflexivity | lia].
Qed.

Lemma evaluateHand_fold (cards : list Card) :
  evaluateHand cards
  = fold_left keepBest (combinations 5 (sortDesc rankValue cards))
              (mkHandRank (-1) []).
Proof. reflexivity. Qed.

Lemma fold_keepBest (combs : list (list Card)) (init : HandRank) :
  shaped init = true ->
  (forall c, In c combs -> length c = 5%nat) ->
  let best := fold_left keepBest combs init in
  shaped best = true
  /\ (best = init \/ exists c, In c combs /\ best = evaluate5 c)
  /\ (0 <= compareRanks best init)%Z
  /\ (forall c, In c combs -> (0 <= compareRanks best (evaluate5 c))%Z).
Proof.
  revert init. induction combs as [|h combs IH]; intros init Hi Hl; cbv zeta.
  - cbn [fold_left]. rewrite compareRanks_refl.
    repeat split; auto; try lia. intros c [].
  - cbn [fold_left].
    assert (Hh : shaped (evaluate5 h) = true).
    { apply wellFormed_shaped, evaluate5_wellFormed, Hl. now left. }
    assert (Hk : shaped (keepBest init h) = true).
    { rewrite keepBest_compare. destruct (_ =? 1)%Z; assumption. }
    destruct (IH (keepBest init h) Hk) as (S & M & G & A).
    { intros c Hc. apply Hl. now right. }
    cbv zeta in *.
    set (best := fold_left keepBest combs (keepBest init h)) in *.
    assert (K : (0 <= compareRanks (keepBest init h) init)%Z
                /\ (0 <= compareRanks (keepBest init h) (evaluate5 h))%Z).
    { rewrite keepBest_compare.
      destruct (Z.eqb_spec (compareRanks (evaluate5 h) init) 1) as [E|E].
      - rewrite compareRanks_refl. lia.
      - rewrite compareRanks_refl.
        generalize (compareRanks_antisym init (evaluate5 h)).
        destruct (compareRanks_range (evaluate5 h) init) as [?|[?|?]]; lia. }
    destruct K as [K1 K2].
    split; [exact S|]. split; [|split].
    + destruct M as [M|(c & Hc & M)].
      * rewrite M, keepBest_compare.
        destruct (_ =? 1)%Z; [right; exists h; split; [now left | reflexivity]
                             | now left].
      * right. exists c. split; [now right | exact M].
    + apply (compareRanks_trans best (keepBest init h) init); assumption.
    + intros c [<-|Hc]; [|apply A; exact Hc].
      apply (compareRanks_trans best (keepBest init h) (evaluate5 h));
        assumption.
Qed.

Lemma evaluateHand_spec (cards : list Card) :
  let r := evaluateHand cards in
  shaped r = true
  /\ (r = noHand
      \/ exists c, In c (combinations 5 (sortDesc rankValue cards))
                   /\ r = evaluate5 c)
  /\ (forall c, In c (combinations 5 (sortDesc rankValue cards)) ->
                (0 <= compareRanks r (evaluate5 c))%Z).
Proof.
  cbv zeta. rewrite evaluateHand_fold.
  destruct (fold_keepBest (combinations 5 (sortDesc rankValue cards)) noHand)
    as (S & M & _ & A).
  - reflexivity.
  - intros c Hc. apply (combinations_length 5 _ _ Hc).
  - cbv zeta in *. auto.
Qed.

Lemma combinations_short {A : Type} (k : nat) (l : list A) :
  (length l < k)%nat -> combinations k l = [].
Proof.
  revert k. induction l as [|x l IH]; intros k H.
  - destruct k; [simpl in H; lia | reflexivity].
  - destruct k as [|k]; [simpl in H; lia|].
    cbn [combinations]. simpl in H.
    rewrite (IH k) by lia. rewrite (IH (S k)) by lia. reflexivity.
Qed.

Lemma subseq_firstn {A : Type} (k : nat) (l : list A) : subseq (firstn k l) l.
Proof.
  revert k. induction l as [|x l IH]; intro k.
  - destruct k; constructor.
  - destruct k as [|k]; cbn [firstn].
    + apply subseq_skip. apply (IH 0%nat).
    + apply subseq_take. apply IH.
Qed.

Lemma noHand_below (hand : list Card) :
  length hand = 5%nat -> compareRanks noHand (evaluate5 hand) = (-1)%Z.
Proof.
  intro L. generalize (evaluate5_wellFormed hand L).
  unfold wellFormed. rewrite !andb_true_iff, Z.leb_le.
  intros [[[H _] _] _]. unfold compareRanks, noHand. cbn [category].
  destruct (Z.gtb_spec (-1) (category (evaluate5 hand))); [lia|].
  destruct (Z.ltb_spec (-1) (category (evaluate5 hand))); [reflexivity | lia].
Qed.

Lemma evaluateHand_attained (cards : list Card) :
  (5 <= length cards)%nat ->
  exists c, In c (combinations 5 (sortDesc rankValue cards))
            /\ evaluateHand cards = evaluate5 c.
Proof.
  intro L. destruct (evaluateHand_spec cards) as (_ & M & A). cbv zeta in *.
  destruct M as [M|M]; [|exact M]. exfalso.
  set (c0 := firstn 5 (sortDesc rankValue cards)).
  assert (L0 : length c0 = 5%nat).
  { unfold c0. rewrite length_firstn, length_sortDesc. lia. }
  assert (H0 : In c0 (combinations 5 (sortDesc rankValue cards))).
  { rewrite <- L0. apply combinations_subseq. apply subseq_firstn. }
  specialize (A c0 H0). rewrite M, (noHand_below c0 L0) in A. lia.
Qed.

Lemma selection_combination (five cards : list Card) :
  selection five cards ->
  exists c, In c (combinations (length five) (sortDesc rankValue cards))
            /\ Permutation c five.
Proof.
  intros [rest P].
  rewrite (sortDesc_Permutation rankValue cards) in P.
  destruct (selection_subseq _ _ _ P) as (c & Hc & Pc).
  exists c. split; [|exact Pc].
  rewrite <- (Permutation_length Pc). apply combinations_subseq. exact Hc.
Qed.

Lemma combination_selection (c cards : list Card) :
  In c (combinations 5 (sortDesc rankValue cards)) -> selection c cards.
Proof.
  intro H. apply subseq_combinations in H.
  destruct (subseq_selection _ _ H) as [rest P].
  exists rest. rewrite P. symmetry. apply sortDesc_Permutation.
Qed.

Lemma evaluateHand_dominates (five cards : list Card) :
  selection five cards -> length five = 5%nat ->
  (0 <= compareRanks (evaluateHand cards) (evaluate5 five))%Z.
Proof.
  intros S L. destruct (selection_combination five cards S) as (c & Hc & Pc).
  rewrite L in Hc.
  destruct (evaluateHand_spec cards) as (_ & _ & A). cbv zeta in A.
  rewrite <- (evaluate5_Permutation c five); [apply A; exact Hc| |exact Pc].
  apply (combinations_length 5 _ _ Hc).
Qed.

Lemma evaluateHand_five (five : list Card) :
  length five = 5%nat -> evaluateHand five = evaluate5 five.
Proof.
  intro L. destruct (evaluateHand_attained five) as (c & Hc & E); [lia|].
  assert (Lc := combinations_length 5 _ _ Hc).
  rewrite E. apply (evaluate5_Permutation _ _ Lc).
  apply subseq_combinations in Hc.
  destruct (subseq_selection _ _ Hc) as [rest P].
  assert (R : rest = []).
  { apply Permutation_length in P.
    rewrite length_app, length_sortDesc in P.
    destruct rest; [reflexivity | simpl in P; lia]. }
  subst rest. rewrite app_nil_r in P. rewrite P.
  symmetry. apply sortDesc_Permutation.
Qed.

Lemma evaluateHand_short (cards : list Card) :
  (length cards < 5)%nat -> evaluateHand cards = noHand.
Proof.
  intro L. rewrite evaluateHand_fold, combinations_short; [reflexivity|].
  rewrite length_sortDesc. exact L.
Qed.

Lemma evaluateHand_Permutation (cards cards' : list Card) :
  Permutation cards cards' -> evaluateHand cards = evaluateHand cards'.
Proof.
  assert (Half : forall a b : list Card,
             Permutation a b ->
             (0 <= compareRanks (evaluateHand a) (evaluateHand b))%Z).
  { intros a b P.
    destruct (Nat.lt_ge_cases (length b) 5) as [Lb|Lb].
    - rewrite (evaluateHand_short b Lb), (evaluateHand_short a).
      + rewrite compareRanks_refl. lia.
      + rewrite (Permutation_length P). exact Lb.
    - destruct (evaluateHand_attained b Lb) as (c & Hc & ->).
      apply evaluateHand_dominates.
      + destruct (combination_selection c b Hc) as [rest Pr].
        exists rest. rewrite Pr. symmetry. exact P.
      + apply (combinations_length 5 _ _ Hc). }
  intro P.
  assert (H1 := Half cards cards' P).
  assert (H2 := Half cards' cards (Permutation_sym P)).
  apply compareRanks_eq.
  - apply evaluateHand_spec.
  - apply evaluateHand_spec.
  - rewrite (compareRanks_antisym (evaluateHand cards')) in H2. lia.
Qed.

(** ** The evaluator against the rules of poker *)

Lemma HandRank_eqb_eq (a b : HandRank) : HandRank_eqb a b = true -> a = b.
Proof.
  destruct a as [ca va], b as [cb vb]. unfold HandRank_eqb.
  cbn [category values]. rewrite !andb_true_iff, Z.eqb_eq, Nat.eqb_eq.
  intros [[-> L] H]. f_equal.
  revert vb L H. induction va as [|x va IH]; intros [|y vb] L H;
    try discriminate; [reflexivity|].
  cbn [combine forallb] in H. apply andb_true_iff in H. destruct H as [H1 H2].
  f_equal.
  - destruct x, y; try discriminate; [|reflexivity].
    apply Z.eqb_eq in H1. congruence.
  - apply IH; [simpl in L; lia | exact H2].
Qed.

Lemma evaluate5_reference (hand : list Card) :
  length hand = 5%nat ->
  evaluate5 hand
  = referenceRank (map rankValue (sortDesc rankValue hand)) (sameSuit hand).
Proof.
  intro L. apply HandRank_eqb_eq.
  rewrite (sameSuit_Permutation hand (sortDesc rankValue hand))
    by apply sortDesc_Permutation.
  replace (map rankValue (sortDesc rankValue hand))
    with (map RANK_VALUES (map rank (sortDesc rankValue hand)))
    by (rewrite map_map; reflexivity).
  apply (every_five_card_hand
           (fun rs flush hr =>
              HandRank_eqb hr (referenceRank (map RANK_VALUES rs) flush)));
    [|exact L].
  vm_compute. reflexivity.
Qed.

(** ** The evaluator: what it returns *)

(** X5. [evaluateHand] on fewer than five cards finds no combination and
    returns category -1 with no values.  So [compareHands] calls two such
    hands a tie, and lets such a hand lose to any hand of five cards or
    more. *)
Theorem fewer_than_five_cards_make_no_hand
  (cards handA handB board : list Card) :
  ((length cards < 5)%nat -> evaluateHand cards = mkHandRank (-1) [])
  /\ ((length (handA ++ board) < 5)%nat ->
      ((length (handB ++ board) < 5)%nat ->
       compareHands handA handB board = 0%Z)
      /\ ((5 <= length (handB ++ board))%nat ->
          compareHands handA handB board = (-1)%Z)).
Proof.
  split; [apply evaluateHand_short|].
  intro La. unfold compareHands. cbv zeta.
  rewrite (evaluateHand_short _ La). split.
  - intro Lb. rewrite (evaluateHand_short _ Lb). reflexivity.
  - intro Lb. destruct (evaluateHand_attained _ Lb) as (c & Hc & ->).
    apply noHand_below. apply (combinations_length 5 _ _ Hc).
Qed.

Lemma fewer_than_five_cards_make_no_hand_witness :
  let hole := [mkCard RA Spades; mkCard RA Hearts] in
  let low := [mkCard R2 Clubs; mkCard R3 Diamonds] in
  let flop := [mkCard R7 Clubs; mkCard R8 Diamonds; mkCard R9 Hearts] in
  evaluateHand hole = mkHandRank (-1) []
  /\ compareHands hole low [] = 0%Z
  /\ compareHands hole (low ++ flop) [] = (-1)%Z.
Proof.
  intros hole low flop.
  destruct (fewer_than_five_cards_make_no_hand hole hole low [])
    as [H1 H2].
  destruct (fewer_than_five_cards_make_no_hand hole hole (low ++ flop) [])
    as [_ H3].
  split; [apply H1; simpl; lia|]. split.
  - apply H2; simpl; lia.
  - apply H3; simpl; lia.
Defined.

(** X6. [evaluate5] ranks every five cards as poker does.  With the five
    rank values in descending order and the flush test reduced to "the
    five suits agree", its result is the category of the reference
    ranking (8 straight flush, 7 four of a kind, 6 full house, 5 flush,
    4 straight, 3 three of a kind, 2 two pair, 1 one pair, 0 high card)
    with the tie-break values of that category: the top of the straight
    (5 for the wheel), the five values of a flush or of a high-card hand,
    and otherwise the distinct values, most frequent first and larger
    first among equally frequent ones. *)
Theorem evaluate5_ranks_as_poker_does (hand : list Card) :
  length hand = 5%nat ->
  evaluate5 hand
  = referenceRank (map rankValue (sortDesc rankValue hand)) (sameSuit hand).
Proof. apply evaluate5_reference. Qed.

Lemma evaluate5_ranks_as_poker_does_witness :
  let hand := [mkCard R9 Hearts; mkCard RK Clubs; mkCard R9 Spades;
               mkCard RK Hearts; mkCard R4 Diamonds] in
  length hand = 5%nat
  /\ evaluate5 hand
     = referenceRank (map rankValue (sortDesc rankValue hand)) (sameSuit hand)
  /\ referenceRank (map rankValue (sortDesc rankValue hand)) (sameSuit hand)
     = mkHandRank 2 [Some 13%Z; Some 9%Z; Some 4%Z].
Proof.
  intro hand. split; [reflexivity|]. split.
  - exact (evaluate5_ranks_as_poker_does hand eq_refl).
  - vm_compute. reflexivity.
Defined.

(** X7. [evaluateHand] on five cards or more returns a rank that is well
    formed: a category from 0 to 8, as many tie-break values as the
    category has (1 for straights, 2 for four of a kind and full house, 3
    for three of a kind and two pair, 4 for one pair, 5 for flush and
    high card), each a rank value from 2 to 14 and none [undefined]. *)
Theorem evaluateHand_is_well_formed (cards : list Card) :
  (5 <= length cards)%nat ->
  let r := evaluateHand cards in
  (0 <= category r <= 8)%Z
  /\ length (values r) = arity (category r)
  /\ (forall v, In v (values r) -> exists z, v = Some z /\ (2 <= z <= 14)%Z).
Proof.
  intro L. cbv zeta.
  destruct (evaluateHand_attained cards L) as (c & Hc & ->).
  pose proof (evaluate5_wellFormed c (combinations_length 5 _ _ Hc)) as W.
  unfold wellFormed in W. rewrite !andb_true_iff in W.
  destruct W as [[[W1 W2] W3] W4].
  apply Z.leb_le in W1, W2. apply Nat.eqb_eq in W3.
  rewrite forallb_forall in W4.
  split; [lia|]. split; [exact W3|].
  intros v Hv. specialize (W4 v Hv). destruct v as [z|]; [|discriminate].
  exists z. unfold isRankValue in W4. apply andb_true_iff in W4.
  destruct W4 as [A B]. apply Z.leb_le in A, B. split; [reflexivity | lia].
Qed.

Lemma evaluateHand_is_well_formed_witness :
  let cards := [mkCard R9 Hearts; mkCard RK Clubs; mkCard R9 Spades;
                mkCard RK Hearts; mkCard R4 Diamonds; mkCard RK Spades;
                mkCard R2 Clubs] in
  (5 <= length cards)%nat
  /\ evaluateHand cards = mkHandRank 6 [Some 13%Z; Some 9%Z]
  /\ (let r := evaluateHand cards in
      (0 <= category r <= 8)%Z
      /\ length (values r) = arity (category r)
      /\ (forall v, In v (values r) ->
                    exists z, v = Some z /\ (2 <= z <= 14)%Z)).
Proof.
  intro cards.
  assert (L : (5 <= length cards)%nat) by (simpl; lia).
  split; [exact L|]. split; [vm_compute; reflexivity|].
  exact (evaluateHand_is_well_formed cards L).
Defined.

(** X8. The order of the cards does not matter: [evaluateHand] returns the
    same rank for the same cards in any order, and so does [evaluate5]
    for five cards; [compareHands] depends on each hand only through the
    cards it makes with the board, whichever of them are hole cards and
    in whatever order. *)
Theorem evaluation_ignores_the_order_of_the_cards
  (cards cards' handA handB board handA' handB' board' : list Card) :
  Permutation cards cards' ->
  Permutation (handA ++ board) (handA' ++ board') ->
  Permutation (handB ++ board) (handB' ++ board') ->
  evaluateHand cards = evaluateHand cards'
  /\ (length cards = 5%nat -> evaluate5 cards = evaluate5 cards')
  /\ compareHands handA handB board = compareHands handA' handB' board'.
Proof.
  intros P Pa Pb. split; [apply evaluateHand_Permutation; exact P|].
  split; [intro L; apply evaluate5_Permutation; assumption|].
  unfold compareHands. cbv zeta.
  rewrite (evaluateHand_Permutation _ _ Pa), (evaluateHand_Permutation _ _ Pb).
  reflexivity.
Qed.

Lemma evaluation_ignores_the_order_of_the_cards_witness :
  let a := mkCard RA Spades in
  let k := mkCard RK Hearts in
  let q := mkCard RQ Clubs in
  let j := mkCard RJ Clubs in
  let bd := [mkCard R2 Hearts; mkCard R7 Clubs; mkCard R9 Diamonds] in
  Permutation [a; k; q] [k; a; q]
  /\ evaluateHand [a; k; q] = evaluateHand [k; a; q]
  /\ compareHands [a; k] [q; j] bd = compareHands [k; a] [j; q] bd.
Proof.
  intros a k q j bd.
  assert (P : Permutation [a; k; q] [k; a; q]) by apply perm_swap.
  assert (Pa : Permutation ([a; k] ++ bd) ([k; a] ++ bd)) by apply perm_swap.
  assert (Pb : Permutation ([q; j] ++ bd) ([j; q] ++ bd)) by apply perm_swap.
  destruct (evaluation_ignores_the_order_of_the_cards
              [a; k; q] [k; a; q] [a; k] [q; j] bd [k; a] [j; q] bd P Pa Pb)
    as (H1 & _ & H3).
  split; [exact P|]. split; [exact H1 | exact H3].
Defined.

(** X9. [evaluateHand] returns the rank of the best five cards: with five
    cards or more its result is the rank [evaluate5] gives some five of
    them, and no five of them rank higher. *)
Theorem evaluateHand_is_the_best_five (cards : list Card) :
  (5 <= length cards)%nat ->
  (exists five,
      selection five cards /\ length five = 5%nat
      /\ evaluateHand cards = evaluate5 five)
  /\ (forall five,
         selection five cards -> length five = 5%nat ->
         evaluateHand five = evaluate5 five
         /\ compareHands five cards [] <> 1%Z).
Proof.
  intro L. split.
  - destruct (evaluateHand_attained cards L) as (c & Hc & E).
    exists c. split; [apply combination_selection; exact Hc|].
    split; [apply (combinations_length 5 _ _ Hc) | exact E].
  - intros five S L5. split; [apply evaluateHand_five; exact L5|].
    unfold compareHands. cbv zeta. rewrite !app_nil_r.
    rewrite (evaluateHand_five five L5).
    pose proof (evaluateHand_dominates five cards S L5) as D.
    rewrite compareRanks_antisym in D. lia.
Qed.

Lemma evaluateHand_is_the_best_five_witness :
  let trips := [mkCard RK Clubs; mkCard RK Hearts; mkCard RK Spades] in
  let nines := [mkCard R9 Hearts; mkCard R9 Spades] in
  let cards := trips ++ [mkCard R4 Diamonds] ++ nines ++ [mkCard R2 Clubs] in
  (5 <= length cards)%nat
  /\ selection (trips ++ nines) cards
  /\ evaluateHand cards = evaluate5 (trips ++ nines)
  /\ compareHands (trips ++ nines) cards [] <> 1%Z.
Proof.
  intros trips nines cards.
  assert (L : (5 <= length cards)%nat) by (simpl; lia).
  assert (S : selection (trips ++ nines) cards).
  { exists [mkCard R4 Diamonds; mkCard R2 Clubs]. unfold cards.
    rewrite <- !app_assoc. apply Permutation_app_head.
    simpl. apply perm_trans with
      (l' := [mkCard R9 Hearts; mkCard R4 Diamonds; mkCard R9 Spades;
              mkCard R2 Clubs]).
    - apply perm_skip. apply perm_swap.
    - apply perm_swap. }
  split; [exact L|]. split; [exact S|]. split; [vm_compute; reflexivity|].
  destruct (evaluateHand_is_the_best_five cards L) as [_ H].
  exact (proj2 (H (trips ++ nines) S eq_refl)).
Defined.

(** X10. [compareHands] orders the hands over a board: every hand ties with
    itself, the result is 1, 0 or -1, and "at least as good as" is
    transitive, strictly so when either step is strict. *)
Theorem compareHands_is_an_order (handA handB handC board : list Card) :
  compareHands handA handA board = 0%Z
  /\ (compareHands handA handB board = 1%Z
      \/ compareHands handA handB board = 0%Z
      \/ compareHands handA handB board = (-1)%Z)
  /\ ((0 <= compareHands handA handB board)%Z ->
      (0 <= compareHands handB handC board)%Z ->
      (0 <= compareHands handA handC board)%Z
      /\ (compareHands handA handB board = 1%Z
          \/ compareHands handB handC board = 1%Z ->
          compareHands handA handC board = 1%Z)).
Proof.
  unfold compareHands. cbv zeta.
  split; [apply compareRanks_refl|]. split; [apply compareRanks_range|].
  apply compareRanks_trans; apply evaluateHand_spec.
Qed.

Lemma compareHands_is_an_order_witness :
  let aces := [mkCard RA Spades; mkCard RA Hearts] in
  let kings := [mkCard RK Spades; mkCard RK Hearts] in
  let low := [mkCard R3 Clubs; mkCard R4 Diamonds] in
  let bd := [mkCard R2 Hearts; mkCard R7 Clubs; mkCard R9 Diamonds;
             mkCard RJ Clubs; mkCard RQ Diamonds] in
  compareHands aces kings bd = 1%Z /\ compareHands kings low bd = 1%Z
  /\ compareHands aces low bd = 1%Z.
Proof.
  intros aces kings low bd.
  assert (H1 : compareHands aces kings bd = 1%Z) by (vm_compute; reflexivity).
  assert (H2 : compareHands kings low bd = 1%Z) by (vm_compute; reflexivity).
  split; [exact H1|]. split; [exact H2|].
  destruct (compareHands_is_an_order aces kings low bd) as (_ & _ & T).
  apply T; [rewrite H1; lia | rewrite H2; lia | now left].
Defined.

(** ** The starting-hand heuristic: symmetry and the cap *)

(** X13. [startingHandStrength] reads the first two cards only and does not
    depend on their order; it throws exactly when there are fewer than two
    cards.  Two aces score 1 and every other holding scores strictly less,
    so the closing [Math.min(score, 1)] never changes a score. *)
Theorem startingHandStrength_is_symmetric (c0 c1 : Card) (rest : list Card) :
  startingHandStrength (c0 :: c1 :: rest) = startingHandStrength [c1; c0]
  /\ oneOnlyForAces c0 c1 = true
  /\ (forall cards : list Card,
        startingHandStrength cards = None <-> (length cards < 2)%nat).
Proof.
  split; [|split].
  - change (startingHandStrength (c0 :: c1 :: rest))
      with (startingHandStrength [c0; c1]).
    destruct c0 as [r0 s0], c1 as [r1 s1].
    destruct r0, r1; destruct s0, s1; vm_compute; reflexivity.
  - destruct c0 as [r0 s0], c1 as [r1 s1].
    destruct r0, r1; destruct s0, s1; vm_compute; reflexivity.
  - intros [|a [|b cards]]; cbn [length]; split; intro H;
      try reflexivity; try lia; try (cbn in H; lia).
    exfalso. revert H. unfold startingHandStrength. cbn [nth_error].
    cbv zeta.
    destruct (PrimFloat.eqb _ _); discriminate.
Qed.

(** ** Cards and chips throughout a match *)

Lemma Table_same (s s' : GameState) :
  cards (player s') = cards (player s) ->
  cards (opponent s') = cards (opponent s) ->
  board s' = board s -> deck s' = deck s ->
  stage s' = stage s -> Table s -> Table s'.
Proof.
  intros Hp Ho Hb Hd Hs [T5 T6 T7 T8].
  split; unfold cardsInPlay in *; rewrite ?Hp, ?Ho, ?Hb, ?Hd, ?Hs;
    assumption.
Qed.

Lemma Table_withTurn (v : Seat) (s : GameState) :
  Table s -> Table (withTurn v s).
Proof. apply Table_same; reflexivity. Qed.

Lemma Table_withAwaitingUser (v : bool) (s : GameState) :
  Table s -> Table (withAwaitingUser v s).
Proof. apply Table_same; reflexivity. Qed.

Lemma Table_withAiTimers (v : nat) (s : GameState) :
  Table s -> Table (withAiTimers v s).
Proof. apply Table_same; reflexivity. Qed.

Lemma Table_withActionLog (v : list LogEntry) (s : GameState) :
  Table s -> Table (withActionLog v s).
Proof. apply Table_same; reflexivity. Qed.

Lemma Table_withFolded_player (v : bool) (s : GameState) :
  Table s -> Table (withPlayer (withFolded v (player s)) s).
Proof. apply Table_same; reflexivity. Qed.

Lemma Table_withFolded_opponent (v : bool) (s : GameState) :
  Table s -> Table (withOpponent (withFolded v (opponent s)) s).
Proof. apply Table_same; reflexivity. Qed.

Lemma Table_resetBets (s : GameState) : Table s -> Table (resetBets s).
Proof. apply Table_same; reflexivity. Qed.

Lemma Table_bet (who : Seat) (amount : Q) (s : GameState) :
  Table s -> Table (bet who amount s).
Proof. apply Table_same; unfold bet; destruct who; reflexivity. Qed.

Lemma Table_awardPot (w : option bool) (s : GameState) :
  Table s -> Table (awardPot w s).
Proof.
  apply Table_same; unfold awardPot; destruct w as [[|]|]; reflexivity.
Qed.

Lemma Table_withStage_Showdown (s : GameState) :
  Table s -> Table (withStage Showdown s).
Proof.
  intros [T5 T6 T7 (street & S1 & S2 & S3 & S4)].
  split; unfold cardsInPlay in *; fields; try assumption.
  exists street. repeat split; auto.
Qed.

Lemma Table_goToShowdown (s : GameState) :
  Table s -> Table (stateOf (goToShowdown s)).
Proof.
  intro T. apply Table_withStage_Showdown in T. unfold goToShowdown.
  destruct (winnerOf (withStage Showdown s)) as [w|]; fields; [|exact T].
  apply Table_withActionLog, Table_awardPot. exact T.
Qed.

Lemma Table_nextAction (s : GameState) :
  Table s -> Table (stateOf (nextAction s)).
Proof.
  intro T. unfold nextAction.
  destruct (folded (player s) || folded (opponent s)).
  - apply Table_goToShowdown. exact T.
  - destruct (turn s); fields.
    + apply Table_withAwaitingUser. exact T.
    + apply Table_withAiTimers, Table_withAwaitingUser. exact T.
Qed.

(** *** Dealing *)

Lemma cardsInPlay_dealt (p o b : list slot) (rest : list Card) (x : Card) :
  Permutation (p ++ o ++ (b ++ [Some x]) ++ map Some rest)
              (p ++ o ++ b ++ map Some (rest ++ [x])).
Proof.
  apply Permutation_app_head, Permutation_app_head.
  rewrite <- app_assoc. apply Permutation_app_head.
  rewrite map_app. simpl. apply Permutation_cons_append.
Qed.

Lemma cardsInPlay_burnt (p o b : list slot) (rest : list Card) (x : Card) :
  Permutation (Some x :: p ++ o ++ b ++ map Some rest)
              (p ++ o ++ b ++ map Some (rest ++ [x])).
Proof.
  rewrite map_app. simpl. rewrite !app_assoc.
  rewrite <- Permutation_cons_append. reflexivity.
Qed.

Lemma Laid_burn (s : GameState) :
  (1 <= length (deck s))%nat -> Laid s ->
  Laid (burn s) /\ board (burn s) = board s
  /\ S (length (deck (burn s))) = length (deck s)
  /\ player (burn s) = player s /\ opponent (burn s) = opponent s.
Proof.
  intros L [B N].
  destruct (burn_shape s L) as (x & rest & E & ->). fields.
  repeat split; try reflexivity; unfold cardsInPlay in *; fields.
  - exact B.
  - rewrite E in N. rewrite <- cardsInPlay_burnt in N.
    inversion N; assumption.
  - rewrite E, length_snoc. reflexivity.
Qed.

Lemma Laid_dealToBoard (s : GameState) :
  (1 <= length (deck s))%nat -> Laid s ->
  Laid (dealToBoard s)
  /\ length (board (dealToBoard s)) = S (length (board s))
  /\ S (length (deck (dealToBoard s))) = length (deck s)
  /\ player (dealToBoard s) = player s
  /\ opponent (dealToBoard s) = opponent s.
Proof.
  intros L [B N].
  destruct (dealToBoard_shape s L) as (x & rest & E & ->). fields.
  repeat split; try reflexivity; unfold cardsInPlay in *; fields.
  - apply noneUndefined_snoc. exact B.
  - rewrite E in N. rewrite cardsInPlay_dealt. exact N.
  - apply length_snoc.
  - rewrite E, length_snoc. reflexivity.
Qed.

Lemma Table_Laid (s : GameState) : Table s -> Laid s.
Proof. intros [T5 T6 T7 T8]. split; assumption. Qed.

Lemma Table_dealt (s s' : GameState) (street : Stage) :
  Table s -> Laid s' ->
  player s' = player s -> opponent s' = opponent s ->
  street <> Showdown -> stage s' = street ->
  length (board s') = boardSize street -> length (deck s') = deckSize street ->
  Table s'.
Proof.
  intros [T5 T6 T7 T8] [B N] Hp Ho Hst Hs Hb Hd.
  split; rewrite ?Hp, ?Ho; try assumption.
  exists street. auto.
Qed.

Lemma Table_street_of (s : GameState) :
  Table s -> stage s <> Showdown ->
  length (board s) = boardSize (stage s)
  /\ length (deck s) = deckSize (stage s).
Proof.
  intros [T5 T6 T7 (street & S1 & [S2|S2] & S3 & S4)] H;
    [subst street; auto | contradiction].
Qed.

Lemma Table_dealFlop (s : GameState) :
  Table s -> stage s = Preflop -> Table (dealFlop s).
Proof.
  intros T Hs.
  destruct (Table_street_of s T) as [Lb Ld]; [congruence|].
  rewrite Hs in Lb, Ld. simpl in Lb, Ld.
  unfold dealFlop.
  destruct (Laid_burn s) as (L0 & B0 & D0 & P0 & O0);
    [lia | apply Table_Laid; exact T |].
  set (s0 := burn s) in *.
  destruct (Laid_dealToBoard s0) as (L1 & B1 & D1 & P1 & O1);
    [lia | exact L0 |].
  set (s1 := dealToBoard s0) in *.
  destruct (Laid_dealToBoard s1) as (L2 & B2 & D2 & P2 & O2);
    [lia | exact L1 |].
  set (s2 := dealToBoard s1) in *.
  destruct (Laid_dealToBoard s2) as (L3 & B3 & D3 & P3 & O3);
    [lia | exact L2 |].
  set (s3 := dealToBoard s2) in *.
  clearbody s3. clearbody s2. clearbody s1. clearbody s0.
  apply (Table_dealt s (withStage Flop s3) Flop T); fields;
    cbn [boardSize deckSize];
    try congruence; try discriminate; try reflexivity; try lia.
  destruct L3 as [B N]. split; unfold cardsInPlay in *; fields; assumption.
Qed.

Lemma Table_dealOne (s : GameState) (street : Stage) :
  Table s -> street <> Showdown ->
  boardSize street = S (length (board s)) ->
  (deckSize street + 2 = length (deck s))%nat ->
  Table (withStage street (dealToBoard (burn s))).
Proof.
  intros T Hst Hb Hd.
  destruct (Laid_burn s) as (L0 & B0 & D0 & P0 & O0);
    [lia | apply Table_Laid; exact T |].
  set (s0 := burn s) in *.
  destruct (Laid_dealToBoard s0) as (L1 & B1 & D1 & P1 & O1);
    [lia | exact L0 |].
  set (s1 := dealToBoard s0) in *.
  clearbody s1. clearbody s0.
  apply (Table_dealt s (withStage street s1) street T); fields;
    try congruence; try reflexivity; try lia.
  destruct L1 as [B N]. split; unfold cardsInPlay in *; fields; assumption.
Qed.

Lemma Table_dealTurn (s : GameState) :
  Table s -> stage s = Flop -> Table (dealTurn s).
Proof.
  intros T Hs.
  destruct (Table_street_of s T) as [Lb Ld]; [congruence|].
  rewrite Hs in Lb, Ld. simpl in Lb, Ld.
  apply Table_dealOne; [exact T | discriminate | simpl; lia | simpl; lia].
Qed.

Lemma Table_dealRiver (s : GameState) :
  Table s -> stage s = Turn -> Table (dealRiver s).
Proof.
  intros T Hs.
  destruct (Table_street_of s T) as [Lb Ld]; [congruence|].
  rewrite Hs in Lb, Ld. simpl in Lb, Ld.
  apply Table_dealOne; [exact T | discriminate | simpl; lia | simpl; lia].
Qed.

(** *** The handlers *)

Lemma Table_advanceOrSwitch (s : GameState) :
  Table s -> Table (stateOf (advanceOrSwitch s)).
Proof.
  intro T. unfold advanceOrSwitch.
  destruct (Qeq_bool (currentBet (player s)) (currentBet (opponent s))).
  - pose proof (Table_resetBets s T) as Tr. cbv zeta.
    destruct (stage (resetBets s)) eqn:Hst; cbn [andThen].
    + apply Table_nextAction, Table_withTurn, Table_dealFlop; assumption.
    + apply Table_nextAction, Table_withTurn, Table_dealTurn; assumption.
    + apply Table_nextAction, Table_withTurn, Table_dealRiver; assumption.
    + pose proof (Table_goToShowdown _ Tr) as Tg.
      destruct (goToShowdown (resetBets s)) as [s'|s'];
        cbn [andThen stateOf] in *; [|exact Tg].
      apply Table_nextAction, Table_withTurn. exact Tg.
    + apply Table_nextAction, Table_withTurn. exact Tr.
  - apply Table_nextAction, Table_withTurn. exact T.
Qed.

Lemma Table_aiAdvanceOrSwitch (s : GameState) :
  Table s -> Table (stateOf (aiAdvanceOrSwitch s)).
Proof.
  intro T. unfold aiAdvanceOrSwitch.
  destruct (Qeq_bool _ _).
  - pose proof (Table_resetBets s T) as Tr. cbv zeta.
    destruct (stage (resetBets s)) eqn:Hst.
    + apply Table_nextAction, Table_withTurn.
      apply (Table_dealFlop (resetBets s) Tr Hst).
    + apply Table_nextAction, Table_withTurn.
      apply (Table_dealTurn (resetBets s) Tr Hst).
    + apply Table_nextAction, Table_withTurn.
      apply (Table_dealRiver (resetBets s) Tr Hst).
    + apply (Table_goToShowdown (resetBets s) Tr).
    + apply Table_nextAction, Table_withTurn. exact Tr.
  - apply Table_nextAction, Table_withTurn. exact T.
Qed.

Lemma Table_userAction (a : Action) (r : Q) (s : GameState) :
  Table s -> Table (stateOf (userAction a r s)).
Proof.
  intro T. apply (Table_withAwaitingUser false) in T.
  unfold userAction. set (s1 := withAwaitingUser false s) in *.
  destruct a.
  - apply Table_goToShowdown, Table_withActionLog, Table_withFolded_player.
    exact T.
  - destruct (positive _); apply Table_advanceOrSwitch, Table_withActionLog;
      [apply Table_bet|]; assumption.
  - apply Table_nextAction, Table_withTurn, Table_withActionLog, Table_bet.
    exact T.
  - apply Table_nextAction, Table_withTurn, Table_withActionLog, Table_bet.
    exact T.
Qed.

Lemma Table_aiExecute (a : Action) (r : Q) (s : GameState) :
  Table s -> Table (stateOf (aiExecute a r s)).
Proof.
  intro T. unfold aiExecute.
  destruct a.
  - apply Table_goToShowdown, Table_withActionLog, Table_withFolded_opponent.
    exact T.
  - destruct (positive _); apply Table_aiAdvanceOrSwitch, Table_withActionLog;
      [apply Table_bet|]; assumption.
  - apply Table_aiAdvanceOrSwitch, Table_withActionLog, Table_bet. exact T.
  - apply Table_aiAdvanceOrSwitch, Table_withActionLog, Table_bet. exact T.
Qed.

Lemma Table_handStep (e : HandEvent) (s : GameState) :
  Table s -> Table (handStep e s).
Proof.
  intro T. destruct e as [a r|a r|]; cbn [handStep] in *.
  - unfold clickAction. destruct (awaitingUser s); [|exact T].
    apply Table_userAction; assumption.
  - unfold aiTimerFires. destruct (aiTimers s) as [|n]; [exact T|].
    apply Table_aiExecute. apply Table_withAiTimers. exact T.
  - unfold aiTimerThrows. destruct (aiTimers s); [exact T|].
    apply Table_withAiTimers. exact T.
Qed.

Lemma NoDup_map_Some {A : Type} (l : list A) :
  NoDup l <-> NoDup (map Some l).
Proof.
  induction l as [|x l IH]; simpl; split; intro H; try constructor;
    inversion H; subst.
  - rewrite in_map_iff. intros (y & Hy & Hin). congruence.
  - apply IH. assumption.
  - intro Hin. apply (in_map Some) in Hin. contradiction.
  - apply IH. assumption.
Qed.

Lemma NoDup_four_last (d : list Card) (x1 x2 x3 x4 : Card) :
  NoDup ((((d ++ [x4]) ++ [x3]) ++ [x2]) ++ [x1]) ->
  NoDup ([Some x1; Some x2] ++ [Some x3; Some x4] ++ [] ++ map Some d).
Proof.
  intro N.
  assert (P : Permutation ((((d ++ [x4]) ++ [x3]) ++ [x2]) ++ [x1])
                          (x1 :: x2 :: x3 :: x4 :: d)).
  { rewrite <- !Permutation_cons_append. reflexivity. }
  rewrite P in N.
  change ([Some x1; Some x2] ++ [Some x3; Some x4] ++ [] ++ map Some d)
    with (map Some (x1 :: x2 :: x3 :: x4 :: d)).
  apply -> (NoDup_map_Some (x1 :: x2 :: x3 :: x4 :: d)). exact N.
Qed.

(** [startHand] lays the table whatever state it finds. *)
Lemma startHand_Table (rnd : nat -> nat) (s0 : GameState) :
  Table (stateOf (startHand rnd s0)).
Proof.
  unfold startHand, dealFromDeck. fields.
  destruct (last_four (shuffle rnd newDeck)) as (d & x1 & x2 & x3 & x4 & E & Hl).
  { rewrite length_shuffle. vm_compute. lia. }
  rewrite length_shuffle in Hl. change (length newDeck) with 52%nat in Hl.
  pose proof (shuffle_NoDup rnd) as ND. rewrite E in ND.
  apply NoDup_four_last in ND.
  rewrite E. clear E.
  repeat (rewrite ?dealt_last, ?afterDeal_last; fields).
  apply Table_nextAction, Table_withTurn, Table_withActionLog.
  split; unfold postBlinds, bet, cardsInPlay; fields;
    destruct (button s0); cbn [other]; fields;
    try exact ND; try discriminate;
    try (exists x1, x2, x3, x4; split; reflexivity);
    try (exists Preflop; repeat split;
         [discriminate | now left | simpl; lia]).
Qed.

Lemma Table_matchStep (e : MatchEvent) (s : GameState) :
  Table s -> Table (matchStep e s).
Proof.
  destruct e as [e|rnd]; cbn [matchStep].
  - apply Table_handStep.
  - intro T. unfold clickNextHand.
    destruct (Qle_bool (stack (player s)) 0 || Qle_bool (stack (opponent s)) 0);
      [exact T | apply startHand_Table].
Qed.

Lemma Table_playMatch (events : list MatchEvent) (s : GameState) :
  Table s -> Table (playMatch events s).
Proof.
  revert s. induction events as [|e events IH]; intros s T; [exact T|].
  cbn [playMatch fold_left]. apply IH. apply Table_matchStep. exact T.
Qed.

(** *** Chips *)

Lemma Solvent_same (s s' : GameState) :
  stack (player s') = stack (player s) ->
  stack (opponent s') = stack (opponent s) ->
  currentBet (player s') = currentBet (player s) ->
  currentBet (opponent s') = currentBet (opponent s) ->
  pot s' = pot s -> bigBlind s' = bigBlind s -> Solvent s -> Solvent s'.
Proof.
  intros H1 H2 H3 H4 H5 H6 [S1 S2 S3 S4].
  split; rewrite ?H1, ?H2, ?H3, ?H4, ?H5, ?H6; assumption.
Qed.

Lemma Qmin_bounds (a st : Q) :
  0 <= a -> 0 <= st -> 0 <= Qmin a st /\ Qmin a st <= st.
Proof.
  intros Ha Hst. split; [apply Q.min_glb; assumption | apply Q.le_min_r].
Qed.

Lemma Solvent_bet (who : Seat) (amount : Q) (s : GameState) :
  0 <= amount -> Solvent s -> Solvent (bet who amount s).
Proof.
  intros Ha [[T1 T1'] [T2 T2'] T3 T4].
  unfold bet.
  destruct who; fields;
    [destruct (Qmin_bounds amount _ Ha T1) as [M1 M2]
    | destruct (Qmin_bounds amount _ Ha T1') as [M1 M2]];
    split; fields; try assumption;
    try (split; try assumption; lra); lra.
Qed.

Lemma Solvent_resetBets (s : GameState) : Solvent s -> Solvent (resetBets s).
Proof.
  intros [S1 S2 S3 S4]. split; fields; try assumption.
  split; apply Qle_refl.
Qed.

Lemma Solvent_awardPot (w : option bool) (s : GameState) :
  Solvent s -> Solvent (awardPot w s).
Proof.
  intros [[T1 T1'] T2 T3 T4].
  assert (Hh : 0 <= pot s / 2).
  { rewrite half_as_product. lra. }
  unfold awardPot. destruct w as [[|]|]; split;
    fields; try assumption; split; try assumption; lra.
Qed.

Lemma Solvent_goToShowdown (s : GameState) :
  Solvent s -> Solvent (stateOf (goToShowdown s)).
Proof.
  intro T. unfold goToShowdown.
  destruct (winnerOf (withStage Showdown s)) as [w|]; fields.
  - apply (Solvent_same (awardPot w (withStage Showdown s)));
      try reflexivity.
    apply Solvent_awardPot. apply (Solvent_same s); try reflexivity. exact T.
  - apply (Solvent_same s); try reflexivity. exact T.
Qed.

Lemma Solvent_nextAction (s : GameState) :
  Solvent s -> Solvent (stateOf (nextAction s)).
Proof.
  intro T. unfold nextAction.
  destruct (folded (player s) || folded (opponent s)).
  - apply Solvent_goToShowdown. exact T.
  - destruct (turn s); fields; apply (Solvent_same s); try reflexivity;
      exact T.
Qed.

Lemma Solvent_deals (s : GameState) :
  Solvent s ->
  Solvent (dealFlop s) /\ Solvent (dealTurn s) /\ Solvent (dealRiver s).
Proof.
  intro T. repeat split; apply (Solvent_same s); try reflexivity; try exact T.
Qed.

Lemma Solvent_then_turn (who : Seat) (s : GameState) :
  Solvent s -> Solvent (stateOf (nextAction (withTurn who s))).
Proof.
  intro T. apply Solvent_nextAction.
  apply (Solvent_same s); try reflexivity. exact T.
Qed.

Lemma Solvent_advanceOrSwitch (s : GameState) :
  Solvent s -> Solvent (stateOf (advanceOrSwitch s)).
Proof.
  intro T. unfold advanceOrSwitch.
  destruct (Qeq_bool (currentBet (player s)) (currentBet (opponent s))).
  - pose proof (Solvent_resetBets s T) as Tr. cbv zeta.
    destruct (Solvent_deals _ Tr) as (D1 & D2 & D3).
    destruct (stage (resetBets s)) eqn:Hst; cbn [andThen];
      try (apply Solvent_then_turn; assumption).
    pose proof (Solvent_goToShowdown _ Tr) as Tg.
    destruct (goToShowdown (resetBets s)) as [s'|s'];
      cbn [andThen stateOf] in *; [|exact Tg].
    apply Solvent_then_turn. exact Tg.
  - apply Solvent_then_turn. exact T.
Qed.

Lemma Solvent_aiAdvanceOrSwitch (s : GameState) :
  Solvent s -> Solvent (stateOf (aiAdvanceOrSwitch s)).
Proof.
  intro T. unfold aiAdvanceOrSwitch.
  destruct (Qeq_bool _ _).
  - pose proof (Solvent_resetBets s T) as Tr. cbv zeta.
    destruct (Solvent_deals _ Tr) as (D1 & D2 & D3).
    destruct (stage (resetBets s)) eqn:Hst;
      try (apply Solvent_then_turn; assumption).
    apply (Solvent_goToShowdown (resetBets s) Tr).
  - apply Solvent_then_turn. exact T.
Qed.

Lemma toCall_nonneg (a b : Q) : 0 <= Qmax 0 (a - b).
Proof. apply Q.le_max_l. Qed.

Lemma Solvent_logged (e : LogEntry) (s : GameState) :
  Solvent s -> Solvent (withActionLog (actionLog s ++ [e]) s).
Proof. apply Solvent_same; reflexivity. Qed.

Lemma Solvent_userAction (a : Action) (r : Q) (s : GameState) :
  0 <= r -> Solvent s -> Solvent (stateOf (userAction a r s)).
Proof.
  intros Hr T.
  assert (T1 : Solvent (withAwaitingUser false s))
    by (apply (Solvent_same s); try reflexivity; exact T).
  unfold userAction. set (s1 := withAwaitingUser false s) in *.
  pose proof (toCall_nonneg (currentBet (opponent s1)) (currentBet (player s1)))
    as Hc.
  destruct a.
  - apply Solvent_goToShowdown.
    apply (Solvent_same s1); try reflexivity. exact T1.
  - destruct (positive _); apply Solvent_advanceOrSwitch, Solvent_logged;
      [apply Solvent_bet|]; assumption.
  - apply Solvent_then_turn, Solvent_logged, Solvent_bet; [apply T1 | exact T1].
  - apply Solvent_then_turn, Solvent_logged, Solvent_bet; [|exact T1].
    generalize Hc Hr. generalize (Qmax 0 (currentBet (opponent s1)
                                          - currentBet (player s1))).
    intros; lra.
Qed.

Lemma Solvent_aiExecute (a : Action) (r : Q) (s : GameState) :
  0 <= r -> Solvent s -> Solvent (stateOf (aiExecute a r s)).
Proof.
  intros Hr T. unfold aiExecute.
  pose proof (toCall_nonneg (currentBet (player s)) (currentBet (opponent s)))
    as Hc.
  destruct a.
  - apply Solvent_goToShowdown.
    apply (Solvent_same s); try reflexivity. exact T.
  - destruct (positive _); apply Solvent_aiAdvanceOrSwitch, Solvent_logged;
      [apply Solvent_bet|]; assumption.
  - apply Solvent_aiAdvanceOrSwitch, Solvent_logged, Solvent_bet;
      [apply T | exact T].
  - apply Solvent_aiAdvanceOrSwitch, Solvent_logged, Solvent_bet; [|exact T].
    generalize Hc Hr. generalize (Qmax 0 (currentBet (player s)
                                          - currentBet (opponent s))).
    intros; lra.
Qed.

Lemma Solvent_handStep (e : HandEvent) (s : GameState) :
  sensible e -> Solvent s -> Solvent (handStep e s).
Proof.
  intros He T. destruct e as [a r|a r|]; cbn [handStep sensible] in *.
  - unfold clickAction. destruct (awaitingUser s); [|exact T].
    apply Solvent_userAction; assumption.
  - unfold aiTimerFires. destruct (aiTimers s) as [|n]; [exact T|].
    apply Solvent_aiExecute; [exact He|].
    apply (Solvent_same s); try reflexivity. exact T.
  - unfold aiTimerThrows. destruct (aiTimers s); [exact T|].
    apply (Solvent_same s); try reflexivity. exact T.
Qed.

Lemma startHand_Solvent (rnd : nat -> nat) (s0 : GameState) :
  0 <= stack (player s0) -> 0 <= stack (opponent s0) -> 0 <= bigBlind s0 ->
  Solvent (stateOf (startHand rnd s0)).
Proof.
  intros Hp Ho Hb.
  unfold startHand, dealFromDeck. fields.
  apply Solvent_then_turn.
  assert (Hsb : 0 <= bigBlind s0 / 2) by (rewrite half_as_product; lra).
  destruct (Qmin_bounds (bigBlind s0 / 2) (stack (player s0)) Hsb Hp) as [A1 A2].
  destruct (Qmin_bounds (bigBlind s0) (stack (player s0)) Hb Hp) as [A3 A4].
  destruct (Qmin_bounds (bigBlind s0 / 2) (stack (opponent s0)) Hsb Ho)
    as [A5 A6].
  destruct (Qmin_bounds (bigBlind s0) (stack (opponent s0)) Hb Ho) as [A7 A8].
  split; unfold postBlinds, bet; fields;
    destruct (button s0); cbn [other]; fields;
    try exact Hb; try (split; lra); lra.
Qed.

Lemma Solvent_matchStep (e : MatchEvent) (s : GameState) :
  sensibleInMatch e -> Solvent s -> Solvent (matchStep e s).
Proof.
  destruct e as [e|rnd]; cbn [matchStep sensibleInMatch].
  - apply Solvent_handStep.
  - intros _ T. unfold clickNextHand.
    destruct (Qle_bool (stack (player s)) 0 || Qle_bool (stack (opponent s)) 0);
      [exact T | apply startHand_Solvent; apply T].
Qed.

Lemma Solvent_playMatch (events : list MatchEvent) (s : GameState) :
  Forall sensibleInMatch events -> Solvent s -> Solvent (playMatch events s).
Proof.
  revert s. induction events as [|e events IH]; intros s F T; [exact T|].
  inversion F as [|? ? F1 F2]; subst. cbn [playMatch fold_left].
  apply IH; [exact F2|]. apply Solvent_matchStep; assumption.
Qed.

Lemma initGame_Solvent (scenario : Scenario) (oppType : Style)
  (rnd : nat -> nat) :
  Solvent (stateOf (initGame scenario oppType rnd)).
Proof.
  unfold initGame. apply startHand_Solvent; destruct scenario; vm_compute;
    discriminate.
Qed.

(** ** The equity estimator *)

Lemma allDefined_None_l (a b : list slot) :
  allDefined a = None -> allDefined (a ++ b) = None.
Proof.
  induction a as [|[x|] a IH]; simpl; intro H; try discriminate;
    [|reflexivity].
  destruct (allDefined a); [discriminate|]. now rewrite IH.
Qed.

Lemma allDefined_None_r (a b : list slot) :
  allDefined b = None -> allDefined (a ++ b) = None.
Proof.
  intro H. induction a as [|[x|] a IH]; simpl; [exact H | | reflexivity].
  now rewrite IH.
Qed.

Lemma fillBoard_defined (available : list Card) (fuel : nat) :
  forall (j : nat) (board : list slot),
    noneUndefined board -> (j + fuel <= length available)%nat ->
    noneUndefined (fillBoard available j fuel board).
Proof.
  induction fuel as [|fuel IH]; intros j board B L; [exact B|].
  cbn [fillBoard]. apply IH; [|lia].
  destruct (nth_error available j) as [x|] eqn:E.
  - apply noneUndefined_snoc. exact B.
  - apply nth_error_None in E. lia.
Qed.

Lemma fillBoard_undefined (available : list Card) (fuel : nat) :
  forall (j : nat) (board : list slot),
    allDefined board = None ->
    allDefined (fillBoard available j fuel board) = None.
Proof.
  induction fuel as [|fuel IH]; intros j board B; [exact B|].
  cbn [fillBoard]. apply IH. apply allDefined_None_l. exact B.
Qed.

Lemma fillBoard_short (available : list Card) (fuel : nat) :
  forall (j : nat) (board : list slot),
    (j <= length available)%nat -> (length available < j + fuel)%nat ->
    allDefined (fillBoard available j fuel board) = None.
Proof.
  induction fuel as [|fuel IH]; intros j board L1 L2; [lia|].
  cbn [fillBoard].
  destruct (nth_error available j) as [x|] eqn:E.
  - assert (j < length available)%nat
      by (apply nth_error_Some; congruence).
    apply IH; lia.
  - apply fillBoard_undefined. apply allDefined_None_r. reflexivity.
Qed.

Lemma length_shuffleArray {A : Type} (rnd : nat -> nat) (arr : list A) :
  length (shuffleArray rnd arr) = length arr.
Proof. apply length_shuffleFrom. Qed.

(** A run of the sampling loop completes when the pool holds the cards it
    takes, and throws when it does not. *)
Lemma equityTrial_defined (rnd : nat -> nat) (playerCards knownBoard : list slot)
  (remaining : list Card) :
  noneUndefined playerCards -> noneUndefined knownBoard ->
  (cardsPerRun knownBoard <= length remaining)%nat ->
  exists cmp, equityTrial rnd playerCards knownBoard remaining = Some cmp.
Proof.
  unfold cardsPerRun. intros P B L. unfold equityTrial. cbv zeta.
  pose proof (length_shuffleArray rnd remaining) as La.
  set (available := shuffleArray rnd remaining) in *.
  apply compareSlots_defined; [exact P | |].
  - destruct available as [|x [|y t]]; simpl in La; try lia.
    simpl. discriminate.
  - apply fillBoard_defined; [exact B | lia].
Qed.

Lemma equityTrial_throws (rnd : nat -> nat) (playerCards knownBoard : list slot)
  (remaining : list Card) :
  (length remaining < cardsPerRun knownBoard)%nat ->
  equityTrial rnd playerCards knownBoard remaining = None.
Proof.
  unfold cardsPerRun. intro L. unfold equityTrial, compareSlots. cbv zeta.
  pose proof (length_shuffleArray rnd remaining) as La.
  set (available := shuffleArray rnd remaining) in *.
  destruct (allDefined playerCards); [|reflexivity].
  destruct (Nat.lt_ge_cases (length available) 2) as [L2|L2].
  - destruct available as [|x [|y t]]; simpl in L2; try lia; reflexivity.
  - destruct (allDefined [nth_error available 0; nth_error available 1]);
      [|reflexivity].
    rewrite fillBoard_short; [reflexivity | lia | lia].
Qed.

Lemma equityLoop_defined (rnd : nat -> nat -> nat)
  (playerCards knownBoard : list slot) (remaining : list Card) (fuel : nat) :
  (forall r, exists cmp,
        equityTrial r playerCards knownBoard remaining = Some cmp) ->
  forall (i : nat) (wins ties : Z),
    (0 <= wins)%Z -> (0 <= ties)%Z ->
    exists w t,
      equityLoop rnd playerCards knownBoard remaining i fuel wins ties
      = Some (w, t)
      /\ (0 <= w)%Z /\ (0 <= t)%Z
      /\ (w + t <= wins + ties + Z.of_nat fuel)%Z.
Proof.
  intro D. induction fuel as [|fuel IH]; intros i wins ties Hw Ht.
  - exists wins, ties. cbn [equityLoop]. repeat split; try assumption. lia.
  - cbn [equityLoop]. destruct (D (rnd i)) as [cmp ->].
    destruct (cmp >? 0)%Z; [|destruct (cmp =? 0)%Z].
    + destruct (IH (S i) (wins + 1)%Z ties) as (w & t & E & A & B & C);
        try lia. exists w, t. repeat split; try assumption. lia.
    + destruct (IH (S i) wins (ties + 1)%Z) as (w & t & E & A & B & C);
        try lia. exists w, t. repeat split; try assumption. lia.
    + destruct (IH (S i) wins ties) as (w & t & E & A & B & C);
        try lia. exists w, t. repeat split; try assumption. lia.
Qed.

Lemma equityLoop_tally (rnd : nat -> nat -> nat)
  (playerCards knownBoard : list slot) (remaining : list Card) (fuel : nat) :
  forall (i : nat) (wins ties w t : Z),
    (0 <= wins)%Z -> (0 <= ties)%Z ->
    equityLoop rnd playerCards knownBoard remaining i fuel wins ties
    = Some (w, t) ->
    (0 <= w)%Z /\ (0 <= t)%Z /\ (w + t <= wins + ties + Z.of_nat fuel)%Z.
Proof.
  induction fuel as [|fuel IH]; intros i wins ties w t Hw Ht E.
  - cbn [equityLoop] in E. inversion E; subst. lia.
  - cbn [equityLoop] in E.
    destruct (equityTrial (rnd i) playerCards knownBoard remaining) as [cmp|];
      [|discriminate].
    destruct (cmp >? 0)%Z; [|destruct (cmp =? 0)%Z];
      apply IH in E; lia.
Qed.

Lemma equityOf_in_unit_interval (maxRuns runs : nat) (w t : Z) :
  talliesExact maxRuns = true -> quotientsInUnitInterval maxRuns = true ->
  (1 <= runs <= maxRuns)%nat ->
  (0 <= w)%Z -> (0 <= t)%Z -> (w + t <= Z.of_nat runs)%Z ->
  inUnitInterval (equityOf w t runs) = true.
Proof.
  unfold talliesExact, quotientsInUnitInterval. intros H1 H2 R Hw Ht Hs.
  rewrite forallb_forall in H1, H2.
  destruct runs as [|n]; [lia|].
  assert (E : (numberOf w + numberOf t / 2)%float
              = halfOf (2 * Z.to_nat w + Z.to_nat t)).
  { specialize (H1 (Z.to_nat w)). rewrite forallb_forall in H1.
    assert (Hin : In (Z.to_nat w) (seq 0 (S maxRuns))) by (apply in_seq; lia).
    specialize (H1 Hin (Z.to_nat t)). rewrite !Z2Nat.id in H1 by assumption.
    apply FloatAxioms.Leibniz.eqb_spec. apply H1. apply in_seq. lia. }
  unfold equityOf. rewrite E.
  specialize (H2 n). rewrite forallb_forall in H2.
  apply H2; apply in_seq; lia.
Qed.

Lemma tallies_checked :
  talliesExact 200 = true /\ quotientsInUnitInterval 200 = true.
Proof. split; vm_compute; reflexivity. Qed.

Lemma allDefined_In (arr : list slot) :
  In None arr -> allDefined arr = None.
Proof.
  induction arr as [|[x|] arr IH]; simpl; intro H; [destruct H | | reflexivity].
  destruct H as [H|H]; [discriminate|]. now rewrite IH.
Qed.

(** X11. With at least one run, [computeEquity] returns a number when the
    pool holds the cards a run takes (two for the sampled opponent and one
    for each missing board card) and the hero's and the board's cards are
    all there; with a smaller pool the first run reads an [undefined] card
    and the call throws. *)
Theorem computeEquity_needs_a_full_run
  (rnd : nat -> nat -> nat) (playerCards knownBoard : list slot) (d : Deck)
  (runs : nat) :
  (1 <= runs)%nat ->
  (noneUndefined playerCards -> noneUndefined knownBoard ->
   (cardsPerRun knownBoard
    <= length (remainingOf playerCards knownBoard d))%nat ->
   exists e, computeEquity rnd playerCards knownBoard d runs = Some e)
  /\ ((length (remainingOf playerCards knownBoard d)
       < cardsPerRun knownBoard)%nat ->
      computeEquity rnd playerCards knownBoard d runs = None).
Proof.
  intro R. split.
  - intros P B L. unfold computeEquity. cbv zeta.
    destruct (equityLoop_defined rnd playerCards knownBoard
                (remainingOf playerCards knownBoard d) runs) with
      (i := 0%nat) (wins := 0%Z) (ties := 0%Z) as (w & t & -> & _);
      try lia; [|eauto].
    intro r. apply equityTrial_defined; assumption.
  - intro L. unfold computeEquity. cbv zeta.
    destruct runs as [|n]; [lia|]. cbn [equityLoop].
    rewrite equityTrial_throws by exact L. reflexivity.
Qed.

Lemma computeEquity_needs_a_full_run_witness :
  let hero := [Some (mkCard RQ Clubs); Some (mkCard RJ Clubs)] in
  (1 <= 3)%nat
  /\ (exists e, computeEquity (fun _ => keepOrder) hero [] newDeck 3 = Some e)
  /\ computeEquity (fun _ => keepOrder) hero [] (firstn 6 newDeck) 3 = None.
Proof.
  intro hero.
  destruct (computeEquity_needs_a_full_run (fun _ => keepOrder) hero []
              newDeck 3) as [H _]; [lia|].
  destruct (computeEquity_needs_a_full_run (fun _ => keepOrder) hero []
              (firstn 6 newDeck) 3) as [_ H']; [lia|].
  split; [lia|]. split.
  - apply H; [discriminate | discriminate | vm_compute; lia].
  - apply H'. vm_compute. lia.
Defined.

(** X12. For 1 to 200 runs the estimate [computeEquity] returns is a
    number between 0 and 1.  Asked for no run at all it divides 0 by 0 and
    returns NaN, whatever the cards and the deck. *)
Theorem computeEquity_is_a_probability
  (rnd : nat -> nat -> nat) (playerCards knownBoard : list slot) (d : Deck)
  (runs : nat) (e : float) :
  computeEquity rnd playerCards knownBoard d runs = Some e ->
  ((1 <= runs <= 200)%nat -> inUnitInterval e = true)
  /\ (runs = 0%nat -> e = PrimFloat.nan /\ inUnitInterval e = false).
Proof.
  intro H. split.
  - intro R. revert H. unfold computeEquity. cbv zeta.
    destruct (equityLoop rnd playerCards knownBoard
                (remainingOf playerCards knownBoard d) 0 runs 0 0)
      as [[w t]|] eqn:E; [|discriminate].
    intro H. inversion H; subst e. clear H.
    apply equityLoop_tally in E; try lia.
    destruct tallies_checked as [T1 T2].
    apply (equityOf_in_unit_interval 200 runs w t T1 T2); lia.
  - intros ->. unfold computeEquity in H. cbn [equityLoop] in H.
    inversion H. split; reflexivity.
Qed.

Lemma computeEquity_is_a_probability_witness :
  let hero := [Some (mkCard RQ Clubs); Some (mkCard RJ Clubs)] in
  computeEquity (fun _ => keepOrder) hero [] newDeck 3 = Some 0.5%float
  /\ inUnitInterval 0.5%float = true
  /\ computeEquity (fun _ => keepOrder) hero [] newDeck 0
     = Some PrimFloat.nan
  /\ inUnitInterval PrimFloat.nan = false.
Proof.
  intro hero.
  assert (E : computeEquity (fun _ => keepOrder) hero [] newDeck 3
              = Some 0.5%float) by (vm_compute; reflexivity).
  assert (E0 : computeEquity (fun _ => keepOrder) hero [] newDeck 0
               = Some PrimFloat.nan) by reflexivity.
  split; [exact E|]. split.
  - apply (computeEquity_is_a_probability (fun _ => keepOrder) hero []
             newDeck 3 0.5%float E). lia.
  - split; [exact E0|].
    apply (computeEquity_is_a_probability (fun _ => keepOrder) hero []
             newDeck 0 PrimFloat.nan E0). reflexivity.
Defined.

(** ** No handler throws *)

Lemma NoDup_app_disjoint {A : Type} (a b : list A) (x : A) :
  NoDup (a ++ b) -> In x a -> In x b -> False.
Proof.
  induction a as [|y a IH]; simpl; intros N Ha Hb; [destruct Ha|].
  inversion N as [|? ? N1 N2]; subst.
  destruct Ha as [->|Ha].
  - apply N1. apply in_or_app. now right.
  - exact (IH N2 Ha Hb).
Qed.

(** No card held or on the board is still in the deck. *)
Lemma Table_deck_apart (s : GameState) (x : Card) :
  Table s -> In x (deck s) ->
  ~ In (Some x) (cards (player s)) /\ ~ In (Some x) (cards (opponent s))
  /\ ~ In (Some x) (board s).
Proof.
  intros T Hx. pose proof (table_distinct s T) as N. unfold cardsInPlay in N.
  assert (Hd : In (Some x) (map Some (deck s))) by (apply in_map; exact Hx).
  repeat split; intro Hin.
  - apply (NoDup_app_disjoint _ _ (Some x) N Hin).
    apply in_or_app. right. apply in_or_app. right. exact Hd.
  - apply NoDup_app_remove_l in N.
    apply (NoDup_app_disjoint _ _ (Some x) N Hin).
    apply in_or_app. right. exact Hd.
  - apply NoDup_app_remove_l, NoDup_app_remove_l in N.
    exact (NoDup_app_disjoint _ _ (Some x) N Hin Hd).
Qed.

Lemma Table_deck_size (s : GameState) :
  Table s -> (40 <= length (deck s))%nat /\ (length (board s) <= 5)%nat.
Proof.
  intros [_ _ _ (street & S1 & _ & S3 & S4)].
  rewrite S3, S4. destruct street; simpl; lia.
Qed.

Lemma Table_holes_defined (s : GameState) :
  Table s ->
  noneUndefined (cards (player s)) /\ noneUndefined (cards (opponent s)).
Proof.
  intros [(c1 & c2 & c3 & c4 & -> & ->) _ _ _]. split; discriminate.
Qed.

(** The pool of an estimate asked for with cards and a board that are on
    the table is the deck as it stands. *)
Lemma Table_pool (s : GameState) (heroCards knownBoard : list slot) :
  Table s ->
  (forall c, In c heroCards ->
             In c (cards (player s)) \/ In c (cards (opponent s))) ->
  incl knownBoard (board s) ->
  remainingOf heroCards knownBoard (deck s) = deck s.
Proof.
  intros T Hh Hb. unfold remainingOf. apply filter_all. intros x Hx.
  destruct (Table_deck_apart s x T Hx) as (A & B & C).
  rewrite !slotIncludes_false; [reflexivity | |].
  - intro Hin. apply C. apply Hb. exact Hin.
  - intro Hin. destruct (Hh _ Hin); contradiction.
Qed.

Lemma Table_estimate (rnd : nat -> nat -> nat) (s : GameState)
  (heroCards knownBoard : list slot) (runs : nat) :
  Table s -> noneUndefined heroCards -> noneUndefined knownBoard ->
  (forall c, In c heroCards ->
             In c (cards (player s)) \/ In c (cards (opponent s))) ->
  incl knownBoard (board s) ->
  exists e, computeEquity rnd heroCards knownBoard (deck s) runs = Some e.
Proof.
  intros T Hh Hb Ih Ib.
  destruct runs as [|n].
  - eexists. reflexivity.
  - apply (computeEquity_needs_a_full_run rnd heroCards knownBoard (deck s)
             (S n)); try assumption; [lia|].
    rewrite (Table_pool s heroCards knownBoard T Ih Ib).
    destruct (Table_deck_size s T) as [D _]. unfold cardsPerRun. lia.
Qed.

Lemma goToShowdown_Normal (s : GameState) :
  Table s -> exists s', goToShowdown s = Normal s'.
Proof.
  intro T. unfold goToShowdown.
  assert (Hwin : exists w, winnerOf (withStage Showdown s) = Some w).
  { unfold winnerOf. fields.
    destruct (folded (player s)); [eauto|].
    destruct (folded (opponent s)); [eauto|].
    destruct (Table_holes_defined s T) as [Hp Ho].
    destruct (compareSlots_defined _ _ _ Hp Ho (table_board s T)) as [cmp ->].
    destruct (cmp >? 0)%Z; [eauto|]. destruct (cmp <? 0)%Z; eauto. }
  destruct Hwin as [w ->]. eauto.
Qed.

Lemma nextAction_Normal (s : GameState) :
  Table s -> exists s', nextAction s = Normal s'.
Proof.
  intro T. unfold nextAction.
  destruct (folded (player s) || folded (opponent s)).
  - apply goToShowdown_Normal. exact T.
  - destruct (turn s); eauto.
Qed.

Lemma advanceOrSwitch_Normal (s : GameState) :
  Table s -> exists s', advanceOrSwitch s = Normal s'.
Proof.
  intro T. unfold advanceOrSwitch.
  destruct (Qeq_bool (currentBet (player s)) (currentBet (opponent s))).
  - pose proof (Table_resetBets s T) as Tr. cbv zeta.
    destruct (stage (resetBets s)) eqn:Hst; cbn [andThen].
    + apply nextAction_Normal, Table_withTurn, Table_dealFlop; assumption.
    + apply nextAction_Normal, Table_withTurn, Table_dealTurn; assumption.
    + apply nextAction_Normal, Table_withTurn, Table_dealRiver; assumption.
    + pose proof (Table_goToShowdown _ Tr) as Tg.
      destruct (goToShowdown_Normal _ Tr) as [s' E]. rewrite E in *.
      cbn [andThen stateOf] in *.
      apply nextAction_Normal, Table_withTurn. exact Tg.
    + apply nextAction_Normal, Table_withTurn. exact Tr.
  - apply nextAction_Normal, Table_withTurn. exact T.
Qed.

Lemma aiAdvanceOrSwitch_Normal (s : GameState) :
  Table s -> exists s', aiAdvanceOrSwitch s = Normal s'.
Proof.
  intro T. unfold aiAdvanceOrSwitch.
  destruct (Qeq_bool _ _).
  - pose proof (Table_resetBets s T) as Tr. cbv zeta.
    destruct (stage (resetBets s)) eqn:Hst.
    + apply nextAction_Normal, Table_withTurn.
      apply (Table_dealFlop (resetBets s) Tr Hst).
    + apply nextAction_Normal, Table_withTurn.
      apply (Table_dealTurn (resetBets s) Tr Hst).
    + apply nextAction_Normal, Table_withTurn.
      apply (Table_dealRiver (resetBets s) Tr Hst).
    + apply (goToShowdown_Normal (resetBets s) Tr).
    + apply nextAction_Normal, Table_withTurn. exact Tr.
  - apply nextAction_Normal, Table_withTurn. exact T.
Qed.

Lemma userAction_Normal (a : Action) (r : Q) (s : GameState) :
  Table s -> exists s', userAction a r s = Normal s'.
Proof.
  intro T. apply (Table_withAwaitingUser false) in T.
  unfold userAction. set (s1 := withAwaitingUser false s) in *.
  destruct a.
  - apply goToShowdown_Normal, Table_withActionLog, Table_withFolded_player.
    exact T.
  - destruct (positive _); apply advanceOrSwitch_Normal, Table_withActionLog;
      [apply Table_bet|]; assumption.
  - apply nextAction_Normal, Table_withTurn, Table_withActionLog, Table_bet.
    exact T.
  - apply nextAction_Normal, Table_withTurn, Table_withActionLog, Table_bet.
    exact T.
Qed.

Lemma aiExecute_Normal (a : Action) (r : Q) (s : GameState) :
  Table s -> exists s', aiExecute a r s = Normal s'.
Proof.
  intro T. unfold aiExecute.
  destruct a.
  - apply goToShowdown_Normal, Table_withActionLog, Table_withFolded_opponent.
    exact T.
  - destruct (positive _); apply aiAdvanceOrSwitch_Normal, Table_withActionLog;
      [apply Table_bet|]; assumption.
  - apply aiAdvanceOrSwitch_Normal, Table_withActionLog, Table_bet. exact T.
  - apply aiAdvanceOrSwitch_Normal, Table_withActionLog, Table_bet. exact T.
Qed.

Lemma aiDecide_decides (o : AiOracle) (s : GameState) :
  Table s -> exists a r, aiDecide o s = Some (a, r).
Proof.
  intro T. unfold aiDecide. cbv zeta.
  destruct (Table_holes_defined s T) as [Hp Ho].
  destruct (Table_estimate (trialDraws o) s (cards (opponent s)) (board s) 150 T
              Ho (table_board s T)) as [e ->].
  { intros c Hc. now right. }
  { apply incl_refl. }
  assert (Hs : exists st, strengthOf (cards (opponent s)) = Some st).
  { destruct (table_holes s T) as (c1 & c2 & c3 & c4 & _ & ->).
    unfold strengthOf, startingHandStrength. cbn [allDefined nth_error].
    destruct (PrimFloat.eqb _ _); eauto. }
  destruct Hs as [st ->].
  destruct (stage s); destruct (opponentType s);
    repeat match goal with
      | |- context [if ?b then _ else _] => destruct b
      end; eauto.
Qed.

Lemma aiAction_Normal (o : AiOracle) (s : GameState) :
  Table s -> exists s', aiAction o s = Normal s'.
Proof.
  intro T. unfold aiAction.
  destruct (aiDecide_decides o s T) as (a & r & ->).
  apply aiExecute_Normal. exact T.
Qed.

Lemma startHand_Normal (rnd : nat -> nat) (s : GameState) :
  exists s', startHand rnd s = Normal s'.
Proof.
  unfold startHand, dealFromDeck. fields. unfold nextAction. fields.
  unfold postBlinds, bet. destruct (button s); cbn [other]; fields;
    cbn [orb]; eauto.
Qed.

(** X16. No chip count ever goes negative.  In every state a match can
    reach by clicks, opponent actions with non-negative raise amounts and
    new hands, the two stacks, the two bets and the pot are at least 0:
    [bet] never takes more than the stack it is given. *)
Theorem chips_are_never_negative
  (scenario : Scenario) (oppType : Style) (rnd : nat -> nat)
  (events : list MatchEvent) :
  Forall sensibleInMatch events ->
  let s := playMatch events (stateOf (initGame scenario oppType rnd)) in
  0 <= stack (player s) /\ 0 <= stack (opponent s)
  /\ 0 <= currentBet (player s) /\ 0 <= currentBet (opponent s)
  /\ 0 <= pot s.
Proof.
  intro F. cbv zeta.
  destruct (Solvent_playMatch events _ F (initGame_Solvent scenario oppType rnd))
    as [[A B] [C D] E _].
  auto.
Qed.

Lemma allInFirstHand_sensible : Forall sensibleInMatch allInFirstHand.
Proof.
  unfold allInFirstHand.
  repeat (apply Forall_cons; [vm_compute; discriminate|]). apply Forall_nil.
Qed.

Lemma chips_are_never_negative_witness :
  Forall sensibleInMatch allInFirstHand
  /\ (let s := playMatch allInFirstHand
                 (stateOf (initGame short weinman keepOrder)) in
      0 <= stack (player s) /\ 0 <= stack (opponent s)
      /\ 0 <= currentBet (player s) /\ 0 <= currentBet (opponent s)
      /\ 0 <= pot s).
Proof.
  split; [exact allInFirstHand_sensible|].
  exact (chips_are_never_negative short weinman keepOrder allInFirstHand
           allInFirstHand_sensible).
Defined.

(** X17. No card is in two places.  In every state a match can reach, the
    two hole cards of each player, the board and the deck hold cards that
    are all different, and none of the hole and board cards is
    [undefined]: the deck never runs out during a hand. *)
Theorem cards_in_play_are_distinct
  (scenario : Scenario) (oppType : Style) (rnd : nat -> nat)
  (events : list MatchEvent) :
  let s := playMatch events (stateOf (initGame scenario oppType rnd)) in
  NoDup (cardsInPlay s)
  /\ (forall c, In c (cardsInPlay s) -> c <> None)
  /\ length (cards (player s)) = 2%nat
  /\ length (cards (opponent s)) = 2%nat.
Proof.
  cbv zeta. unfold initGame.
  pose proof (Table_playMatch events _ (startHand_Table rnd
                (initState scenario oppType))) as T.
  set (s := playMatch events
              (stateOf (startHand rnd (initState scenario oppType)))) in *.
  destruct T as [(c1 & c2 & c3 & c4 & Hp & Ho) B N _].
  split; [exact N|]. split; [|rewrite Hp, Ho; split; reflexivity].
  intros c Hc E. subst c. unfold cardsInPlay in Hc.
  rewrite Hp, Ho in Hc.
  apply in_app_or in Hc. destruct Hc as [Hc|Hc].
  { destruct Hc as [Hc|[Hc|[]]]; discriminate. }
  apply in_app_or in Hc. destruct Hc as [Hc|Hc].
  { destruct Hc as [Hc|[Hc|[]]]; discriminate. }
  apply in_app_or in Hc. destruct Hc as [Hc|Hc].
  - apply B. apply allDefined_In. exact Hc.
  - apply in_map_iff in Hc. destruct Hc as (x & Hx & _). discriminate.
Qed.

(** X18. The board and the deck follow the stage.  In every state a match
    can reach, the board has 0, 3, 4 or 5 cards and the deck 48, 44, 42
    or 40 accordingly (a burn card goes with each deal); until the
    showdown the count is that of the stage: none before the flop, three
    on the flop, four on the turn, five on the river. *)
Theorem board_and_deck_follow_the_stage
  (scenario : Scenario) (oppType : Style) (rnd : nat -> nat)
  (events : list MatchEvent) :
  let s := playMatch events (stateOf (initGame scenario oppType rnd)) in
  In (length (board s), length (deck s))
     [(0, 48); (3, 44); (4, 42); (5, 40)]%nat
  /\ (stage s <> Showdown ->
      length (board s) = boardSize (stage s)
      /\ length (deck s) = deckSize (stage s)).
Proof.
  cbv zeta. unfold initGame.
  pose proof (Table_playMatch events _ (startHand_Table rnd
                (initState scenario oppType))) as T.
  set (s := playMatch events
              (stateOf (startHand rnd (initState scenario oppType)))) in *.
  split; [|apply Table_street_of; exact T].
  destruct T as [_ _ _ (street & S1 & _ & S3 & S4)].
  rewrite S3, S4. destruct street; simpl; tauto.
Qed.

(** X19. No handler throws.  In every state a match can reach, a click on
    an action button, the opponent's turn (whatever it draws) and the
    start of a hand all run to their end: no card they read is
    [undefined], and the estimator always finds the cards a run takes. *)
Theorem no_handler_throws
  (scenario : Scenario) (oppType : Style) (rnd : nat -> nat)
  (events : list MatchEvent) :
  let s := playMatch events (stateOf (initGame scenario oppType rnd)) in
  (forall a r, exists s', userAction a r s = Normal s')
  /\ (forall o, exists s', aiAction o s = Normal s')
  /\ (forall rnd', exists s', startHand rnd' s = Normal s')
  /\ (forall o, exists a r, aiCallback o s = handStep (AiActs a r) s).
Proof.
  cbv zeta. unfold initGame.
  pose proof (Table_playMatch events _ (startHand_Table rnd
                (initState scenario oppType))) as T.
  set (s := playMatch events
              (stateOf (startHand rnd (initState scenario oppType)))) in *.
  split; [intros a r; apply userAction_Normal; exact T|].
  split; [intro o; apply aiAction_Normal; exact T|].
  split; [intro r'; apply startHand_Normal|].
  intro o. unfold aiCallback, aiAction. cbn [handStep]. unfold aiTimerFires.
  destruct (aiTimers s) as [|n].
  - exists check, 0. reflexivity.
  - destruct (aiDecide_decides o (withAiTimers n s)
                (Table_withAiTimers n s T)) as (a & r & ->).
    exists a, r. reflexivity.
Qed.

(** X30. The end screen names the winner.  When a click on "Next Hand"
    finds an empty stack and shows the end screen, the title is
    'Victory!' exactly when the player still has chips, and the opponent
    then has none; it is 'Defeat' when the player has none, also when
    both stacks are empty. *)
Theorem end_screen_names_the_winner
  (scenario : Scenario) (oppType : Style) (rnd : nat -> nat)
  (events : list MatchEvent) (title : EndTitle) :
  Forall sensibleInMatch events ->
  let s := playMatch events (stateOf (initGame scenario oppType rnd)) in
  nextHandScreen s = Some title ->
  (title = Victory <-> 0 < stack (player s))
  /\ (title = Victory -> stack (opponent s) == 0)
  /\ (title = Defeat -> stack (player s) == 0)
  /\ clickNextHand rnd s = s.
Proof.
  intro F. cbv zeta.
  destruct (Solvent_playMatch events _ F (initGame_Solvent scenario oppType rnd))
    as [[A B] _ _ _].
  set (s := playMatch events (stateOf (initGame scenario oppType rnd))) in *.
  unfold nextHandScreen, clickNextHand, showEnd, less.
  destruct (Qle_bool (stack (player s)) 0 || Qle_bool (stack (opponent s)) 0)
    eqn:G; [|discriminate].
  intro H. inversion H as [H']. clear H.
  apply orb_true_iff in G.
  assert (G' : stack (player s) <= 0 \/ stack (opponent s) <= 0)
    by (destruct G as [G|G]; apply Qle_bool_iff in G; auto).
  destruct (Qle_bool (stack (player s)) (stack (opponent s))) eqn:L;
    cbn [negb].
  - apply Qle_bool_iff in L.
    repeat split; try discriminate; try reflexivity.
    + intro P. exfalso. destruct G'; lra.
    + intros _. destruct G'; lra.
  - assert (L' : stack (opponent s) < stack (player s)).
    { destruct (Qlt_le_dec (stack (opponent s)) (stack (player s)))
        as [Q|Q]; [exact Q|].
      apply Qle_bool_iff in Q. congruence. }
    repeat split; try discriminate; try reflexivity.
    + intros _. destruct G'; lra.
    + intros _. destruct G'; lra.
Qed.

Lemma end_screen_names_the_winner_witness :
  Forall sensibleInMatch allInFirstHand
  /\ (let s := playMatch allInFirstHand
                 (stateOf (initGame short weinman keepOrder)) in
      nextHandScreen s = Some Victory
      /\ ((Victory = Victory <-> 0 < stack (player s))
          /\ (Victory = Victory -> stack (opponent s) == 0)
          /\ (Victory = Defeat -> stack (player s) == 0)
          /\ clickNextHand keepOrder s = s)).
Proof.
  split; [exact allInFirstHand_sensible|].
  assert (E : nextHandScreen
                (playMatch allInFirstHand
                   (stateOf (initGame short weinman keepOrder)))
              = Some Victory) by (vm_compute; reflexivity).
  cbv zeta. split; [exact E|].
  exact (end_screen_names_the_winner short weinman keepOrder allInFirstHand
           Victory allInFirstHand_sensible E).
Defined.

(** ** The betting round *)

(** *** The button *)

Lemma seating_goToShowdown (s : GameState) :
  seating (stateOf (goToShowdown s)) = seating s.
Proof.
  unfold goToShowdown. destruct (winnerOf (withStage Showdown s)) as [w|].
  - unfold awardPot. destruct w as [[|]|]; reflexivity.
  - reflexivity.
Qed.

Lemma seating_nextAction (s : GameState) :
  seating (stateOf (nextAction s)) = seating s.
Proof.
  unfold nextAction. destruct (folded (player s) || folded (opponent s)).
  - apply seating_goToShowdown.
  - destruct (turn s); reflexivity.
Qed.

Lemma seating_then_turn (who : Seat) (s : GameState) :
  seating (stateOf (nextAction (withTurn who s))) = seating s.
Proof. rewrite seating_nextAction. reflexivity. Qed.

Lemma seating_advanceOrSwitch (s : GameState) :
  seating (stateOf (advanceOrSwitch s)) = seating s.
Proof.
  unfold advanceOrSwitch.
  destruct (Qeq_bool (currentBet (player s)) (currentBet (opponent s))).
  - cbv zeta. destruct (stage (resetBets s)); cbn [andThen];
      try (rewrite seating_then_turn; reflexivity).
    pose proof (seating_goToShowdown (resetBets s)) as G.
    destruct (goToShowdown (resetBets s)) as [t|t]; cbn [andThen stateOf] in *.
    + rewrite seating_then_turn. exact G.
    + exact G.
  - apply seating_then_turn.
Qed.

Lemma seating_aiAdvanceOrSwitch (s : GameState) :
  seating (stateOf (aiAdvanceOrSwitch s)) = seating s.
Proof.
  unfold aiAdvanceOrSwitch.
  destruct (Qeq_bool (currentBet (player s)) (currentBet (opponent s))).
  - cbv zeta. destruct (stage (resetBets s));
      try (rewrite seating_then_turn; reflexivity).
    apply (seating_goToShowdown (resetBets s)).
  - apply seating_then_turn.
Qed.

Lemma seating_bet (who : Seat) (amount : Q) (s : GameState) :
  seating (bet who amount s) = seating s.
Proof. unfold bet. destruct who; reflexivity. Qed.

Lemma seating_userAction (a : Action) (r : Q) (s : GameState) :
  seating (stateOf (userAction a r s)) = seating s.
Proof.
  unfold userAction. destruct a.
  - rewrite seating_goToShowdown. reflexivity.
  - destruct (positive _); rewrite seating_advanceOrSwitch; reflexivity.
  - rewrite seating_then_turn. reflexivity.
  - rewrite seating_then_turn. reflexivity.
Qed.

Lemma seating_aiExecute (a : Action) (r : Q) (s : GameState) :
  seating (stateOf (aiExecute a r s)) = seating s.
Proof.
  unfold aiExecute. destruct a.
  - rewrite seating_goToShowdown. reflexivity.
  - destruct (positive _); rewrite seating_aiAdvanceOrSwitch; reflexivity.
  - rewrite seating_aiAdvanceOrSwitch. reflexivity.
  - rewrite seating_aiAdvanceOrSwitch. reflexivity.
Qed.

Lemma seating_handStep (e : HandEvent) (s : GameState) :
  seating (handStep e s) = seating s.
Proof.
  destruct e as [a r|a r|]; cbn [handStep].
  - unfold clickAction. destruct (awaitingUser s); [|reflexivity].
    apply seating_userAction.
  - unfold aiTimerFires. destruct (aiTimers s); [reflexivity|].
    rewrite seating_aiExecute. reflexivity.
  - unfold aiTimerThrows. destruct (aiTimers s); reflexivity.
Qed.

Lemma seating_startHand (rnd : nat -> nat) (s : GameState) :
  seating (stateOf (startHand rnd s))
  = (opponentType s, bigBlind s, other (button s)).
Proof.
  unfold startHand, dealFromDeck. fields. rewrite seating_then_turn.
  unfold postBlinds, bet. destruct (button s); reflexivity.
Qed.

(** X15. Within a hand nothing moves the button, and nothing changes the
    big blind or the opponent's style; [startHand] passes the button to
    the other seat, so it alternates from hand to hand. *)
Theorem button_moves_only_between_hands
  (events : list HandEvent) (rnd : nat -> nat) (s : GameState) :
  seating (play events s) = seating s
  /\ seating (stateOf (startHand rnd s))
     = (opponentType s, bigBlind s, other (button s))
  /\ button (stateOf (startHand rnd (play events (stateOf (startHand rnd s)))))
     = button s.
Proof.
  assert (P : forall evs t, seating (play evs t) = seating t).
  { induction evs as [|e evs IH]; intro t; [reflexivity|].
    cbn [play fold_left]. change (fold_left _ evs ?x) with (play evs x).
    rewrite IH. apply seating_handStep. }
  split; [apply P|]. split; [apply seating_startHand|].
  pose proof (seating_startHand rnd
                (play events (stateOf (startHand rnd s)))) as H.
  pose proof (P events (stateOf (startHand rnd s))) as H1.
  pose proof (seating_startHand rnd s) as H2.
  unfold seating in *.
  assert (B : button (stateOf (startHand rnd
                                 (play events (stateOf (startHand rnd s)))))
              = other (button (play events (stateOf (startHand rnd s)))))
    by congruence.
  assert (B1 : button (play events (stateOf (startHand rnd s)))
               = button (stateOf (startHand rnd s))) by congruence.
  assert (B2 : button (stateOf (startHand rnd s)) = other (button s))
    by congruence.
  rewrite B, B1, B2. destruct (button s); reflexivity.
Qed.

(** *** The blinds *)

(** X14. [startHand] passes the button, has the new button post the small
    blind and the other seat the big blind, each capped at the stack it is
    taken from, and gives the first action before the flop to the seat
    that posted the big blind. *)
Theorem startHand_posts_the_blinds (rnd : nat -> nat) (s0 : GameState) :
  let s := stateOf (startHand rnd s0) in
  let small := button s in
  let large := other (button s) in
  let sb := Qmin (bigBlind s0 / 2) (stack (seated small s0)) in
  let bb := Qmin (bigBlind s0) (stack (seated large s0)) in
  small = other (button s0)
  /\ currentBet (seated small s) == sb
  /\ currentBet (seated large s) == bb
  /\ stack (seated small s) == stack (seated small s0) - sb
  /\ stack (seated large s) == stack (seated large s0) - bb
  /\ pot s == sb + bb
  /\ stage s = Preflop /\ board s = [] /\ actionLog s = []
  /\ turn s = large
  /\ awaitingUser s = Seat_eqb large seatPlayer
  /\ aiTimers s = (if Seat_eqb large seatOpponent then S (aiTimers s0)
                   else aiTimers s0).
Proof.
  destruct s0 as [ty bb [pc ps pb pf] [oc os ob ofd] btn dk bd pt st lg tn aw ai].
  destruct btn; run_fields; cbn [Seat_eqb];
    repeat split; try reflexivity; ring.
Qed.

(** *** A call for less than the bet *)

Lemma calledShort_frame (who : Seat) (s s' : GameState) :
  player s' = player s -> opponent s' = opponent s ->
  calledShort who s -> calledShort who s'.
Proof.
  intros Hp Ho. unfold calledShort.
  destruct who; cbn [seated other]; rewrite Hp, Ho; auto.
Qed.

Lemma calledShort_unequal (who : Seat) (s : GameState) :
  calledShort who s ->
  Qeq_bool (currentBet (player s)) (currentBet (opponent s)) = false.
Proof.
  intros (_ & L & _). destruct (Qeq_bool _ _) eqn:E; [|reflexivity].
  apply Qeq_bool_iff in E. destruct who; cbn [seated other] in L; lra.
Qed.

Lemma calledShort_bet (who actor : Seat) (amount : Q) (s : GameState) :
  0 <= amount -> calledShort who s -> calledShort who (bet actor amount s).
Proof.
  intros Ha (S0 & L & P & Fp & Fo).
  assert (M0 : forall st, st == 0 -> Qmin amount st == 0).
  { intros st Hst. rewrite Hst. apply Q.min_r. exact Ha. }
  assert (M1 : forall st, 0 <= st -> 0 <= Qmin amount st /\ Qmin amount st <= st).
  { intros st Hst. apply Qmin_bounds; assumption. }
  unfold calledShort, bet.
  destruct who, actor; cbn [seated other] in *; fields;
    try (specialize (M0 _ S0)); try (destruct (M1 _ P) as [M2 M3]);
    repeat split; try assumption; lra.
Qed.

Lemma calledShort_logged (who : Seat) (e : LogEntry) (s : GameState) :
  calledShort who s ->
  calledShort who (withActionLog (actionLog s ++ [e]) s).
Proof. apply calledShort_frame; reflexivity. Qed.

(** With nobody folded and unequal bets, the end of a handler only passes
    the turn. *)
Lemma unequal_bets_only_switch (who : Seat) (t : GameState) :
  calledShort who t ->
  (forall s', s' = stateOf (advanceOrSwitch t)
              \/ s' = stateOf (aiAdvanceOrSwitch t)
              \/ (exists w, s' = stateOf (nextAction (withTurn w t))) ->
     calledShort who s' /\ stage s' = stage t /\ board s' = board t).
Proof.
  intros C s' H.
  pose proof (calledShort_unequal who t C) as U.
  destruct C as (S0 & L & P & Fp & Fo).
  assert (N : forall w,
             let u := stateOf (nextAction (withTurn w t)) in
             calledShort who u /\ stage u = stage t /\ board u = board t).
  { intro w. destruct (nextAction_after t w Fp Fo) as (A & B & C & D & _).
    cbv zeta. rewrite C, D. split; [|split; reflexivity].
    apply (calledShort_frame who t); try assumption.
    repeat split; assumption. }
  destruct H as [->|[->|(w & ->)]].
  - unfold advanceOrSwitch. rewrite U. apply N.
  - unfold aiAdvanceOrSwitch. rewrite U. apply N.
  - apply N.
Qed.

Lemma calledShort_handStep (who : Seat) (e : HandEvent) (s : GameState) :
  calledShort who s -> playsOn e ->
  calledShort who (handStep e s)
  /\ stage (handStep e s) = stage s /\ board (handStep e s) = board s.
Proof.
  intros C He.
  assert (Hs : 0 <= stack (player s) /\ 0 <= stack (opponent s)).
  { destruct C as (S0 & _ & P & _). destruct who; cbn [seated other] in *;
      split; lra. }
  destruct e as [a r|a r|]; cbn [handStep playsOn] in *.
  - unfold clickAction. destruct (awaitingUser s); [|auto].
    destruct He as [Ha Hr].
    assert (C1 : calledShort who (withAwaitingUser false s))
      by (apply (calledShort_frame who s); [reflexivity | reflexivity | exact C]).
    unfold userAction. set (s1 := withAwaitingUser false s) in *.
    pose proof (toCall_nonneg (currentBet (opponent s1))
                  (currentBet (player s1))) as Hc.
    destruct a; [contradiction| | |].
    + destruct (positive _).
      * match goal with
        | |- context [advanceOrSwitch ?t] =>
            destruct (unequal_bets_only_switch who t) with
              (s' := stateOf (advanceOrSwitch t)) as (X & Y & Z);
            [apply calledShort_logged, calledShort_bet; assumption
            | now left | auto]
        end.
      * match goal with
        | |- context [advanceOrSwitch ?t] =>
            destruct (unequal_bets_only_switch who t) with
              (s' := stateOf (advanceOrSwitch t)) as (X & Y & Z);
            [apply calledShort_logged; assumption | now left | auto]
        end.
    + match goal with
      | |- context [nextAction (withTurn ?w ?t)] =>
          destruct (unequal_bets_only_switch who t) with
            (s' := stateOf (nextAction (withTurn w t))) as (X & Y & Z);
          [apply calledShort_logged, calledShort_bet; [apply Hs | assumption]
          | right; right; eauto | auto]
      end.
    + match goal with
      | |- context [nextAction (withTurn ?w ?t)] =>
          destruct (unequal_bets_only_switch who t) with
            (s' := stateOf (nextAction (withTurn w t))) as (X & Y & Z);
          [apply calledShort_logged, calledShort_bet; [|assumption]
          | right; right; eauto | auto]
      end.
      generalize Hc Hr.
      generalize (Qmax 0 (currentBet (opponent s1) - currentBet (player s1))).
      intros; lra.
  - unfold aiTimerFires. destruct (aiTimers s) as [|n]; [auto|].
    destruct He as [Ha Hr].
    assert (C1 : calledShort who (withAiTimers n s))
      by (apply (calledShort_frame who s); [reflexivity | reflexivity | exact C]).
    unfold aiExecute. set (s1 := withAiTimers n s) in *.
    pose proof (toCall_nonneg (currentBet (player s1))
                  (currentBet (opponent s1))) as Hc.
    destruct a; [contradiction| | |].
    + destruct (positive _).
      * match goal with
        | |- context [aiAdvanceOrSwitch ?t] =>
            destruct (unequal_bets_only_switch who t) with
              (s' := stateOf (aiAdvanceOrSwitch t)) as (X & Y & Z);
            [apply calledShort_logged, calledShort_bet; assumption
            | right; now left | auto]
        end.
      * match goal with
        | |- context [aiAdvanceOrSwitch ?t] =>
            destruct (unequal_bets_only_switch who t) with
              (s' := stateOf (aiAdvanceOrSwitch t)) as (X & Y & Z);
            [apply calledShort_logged; assumption | right; now left | auto]
        end.
    + match goal with
      | |- context [aiAdvanceOrSwitch ?t] =>
          destruct (unequal_bets_only_switch who t) with
            (s' := stateOf (aiAdvanceOrSwitch t)) as (X & Y & Z);
          [apply calledShort_logged, calledShort_bet; [apply Hs | assumption]
          | right; now left | auto]
      end.
    + match goal with
      | |- context [aiAdvanceOrSwitch ?t] =>
          destruct (unequal_bets_only_switch who t) with
            (s' := stateOf (aiAdvanceOrSwitch t)) as (X & Y & Z);
          [apply calledShort_logged, calledShort_bet; [|assumption]
          | right; now left | auto]
      end.
      generalize Hc Hr.
      generalize (Qmax 0 (currentBet (player s1) - currentBet (opponent s1))).
      intros; lra.
  - unfold aiTimerThrows. destruct (aiTimers s); [auto|].
    split; [|split; reflexivity].
    apply (calledShort_frame who s); [reflexivity | reflexivity | exact C].
Qed.

(** X22. A call for less than the bet never closes the betting.  Once a
    player is all in with a smaller bet than the other's, the two bets
    can never be equal again: no sequence of checks, calls, raises and
    all-ins deals another card or reaches the showdown, and only a fold
    ends the hand. *)
Theorem call_for_less_never_closes_the_betting
  (who : Seat) (events : list HandEvent) (s : GameState) :
  calledShort who s -> Forall playsOn events ->
  let s' := play events s in
  stage s' = stage s /\ board s' = board s
  /\ currentBet (seated who s') < currentBet (seated (other who) s').
Proof.
  intros C F. cbv zeta. revert s C.
  induction F as [|e events He F IH]; intros s C.
  - repeat split; try reflexivity. apply C.
  - cbn [play fold_left]. change (fold_left _ events ?x) with (play events x).
    destruct (calledShort_handStep who e s C He) as (C' & St & Bd).
    destruct (IH _ C') as (A & B & D).
    rewrite A, B, St, Bd. auto.
Qed.

(** *** The river check *)

Lemma goToShowdown_pending (s : GameState) :
  awaitingUser (stateOf (goToShowdown s)) = awaitingUser s
  /\ aiTimers (stateOf (goToShowdown s)) = aiTimers s
  /\ pot (stateOf (goToShowdown s)) = pot s.
Proof.
  unfold goToShowdown. destruct (winnerOf (withStage Showdown s)) as [w|].
  - unfold awardPot. destruct w as [[|]|]; fields; auto.
  - fields. auto.
Qed.

Lemma Table_play (events : list HandEvent) (s : GameState) :
  Table s -> Table (play events s).
Proof.
  revert s. induction events as [|e events IH]; intros s T; [exact T|].
  cbn [play fold_left]. apply IH. apply Table_handStep. exact T.
Qed.

Lemma equal_bets_owe_nothing (a b : Q) :
  a == b -> positive (Qmax 0 (a - b)) = false.
Proof. intro H. apply nothing_to_call. lra. Qed.

Lemma something_to_call (mine theirs : Q) :
  mine < theirs ->
  positive (Qmax 0 (theirs - mine)) = true
  /\ Qmax 0 (theirs - mine) == theirs - mine.
Proof.
  intro H.
  assert (E : Qmax 0 (theirs - mine) == theirs - mine)
    by (apply Q.max_r; lra).
  split; [|exact E].
  unfold positive. apply negb_true_iff.
  destruct (Qle_bool _ 0) eqn:B; [|reflexivity].
  apply Qle_bool_iff in B. rewrite E in B. lra.
Qed.

(** [advanceOrSwitch] on the river with equal bets: the showdown, then the
    turn to the button and [nextAction]. *)
Lemma advanceOrSwitch_on_the_river (t0 : GameState) :
  Table t0 -> stage t0 = River ->
  folded (player t0) = false -> folded (opponent t0) = false ->
  currentBet (player t0) == currentBet (opponent t0) ->
  let s' := stateOf (advanceOrSwitch t0) in
  stage s' = Showdown /\ turn s' = button t0 /\ pot s' = pot t0
  /\ awaitingUser s' = Seat_eqb (button t0) seatPlayer
  /\ aiTimers s' = (if Seat_eqb (button t0) seatOpponent
                    then S (aiTimers t0) else aiTimers t0).
Proof.
  intros T0 St Fp Fo Eq. cbv zeta.
  unfold advanceOrSwitch.
  assert (E : Qeq_bool (currentBet (player t0)) (currentBet (opponent t0))
              = true) by (apply Qeq_bool_iff; exact Eq).
  rewrite E. cbv zeta.
  assert (S0 : stage (resetBets t0) = River) by exact St.
  rewrite S0.
  destruct (goToShowdown_Normal (resetBets t0) (Table_resetBets _ T0))
    as [u Hu].
  pose proof (goToShowdown_frame (resetBets t0)) as (A & _ & _ & _ & B & _).
  pose proof (goToShowdown_folded (resetBets t0)) as (Gp & Go).
  pose proof (goToShowdown_pending (resetBets t0)) as (P1 & P2 & P3).
  rewrite Hu in *. cbn [andThen stateOf] in *.
  unfold nextAction. fields. rewrite Gp, Go, Fp, Fo. cbn [orb].
  rewrite ?firstAfterDeal_is_button, ?B.
  destruct (button t0); cbn [stateOf]; fields; cbn [Seat_eqb];
    rewrite ?A, ?P2, ?P3; repeat split; reflexivity.
Qed.

(** The block that ends [aiAction] on the river: with equal bets the
    showdown and nothing after it, with unequal bets the turn to the
    player on the river. *)
Lemma aiAdvanceOrSwitch_on_the_river (t0 : GameState) :
  stage t0 = River ->
  folded (player t0) = false -> folded (opponent t0) = false ->
  let t := stateOf (aiAdvanceOrSwitch t0) in
  (currentBet (player t0) == currentBet (opponent t0) -> stage t = Showdown)
  /\ (stage t = Showdown ->
      awaitingUser t = awaitingUser t0 /\ aiTimers t = aiTimers t0).
Proof.
  intros St Fp Fo. cbv zeta. unfold aiAdvanceOrSwitch.
  assert (S0 : stage (resetBets t0) = River) by exact St.
  pose proof (goToShowdown_frame (resetBets t0)) as (A & _).
  pose proof (goToShowdown_pending (resetBets t0)) as (P1 & P2 & _).
  destruct (Qeq_bool (currentBet (player t0)) (currentBet (opponent t0)))
    eqn:E; cbv zeta.
  - rewrite S0. split; [intros _; exact A|].
    intros _. rewrite P1, P2. split; reflexivity.
  - split.
    + intro Eq. apply Qeq_bool_iff in Eq. congruence.
    + unfold nextAction. fields. rewrite Fp, Fo. cbn [orb stateOf]. fields.
      rewrite St. discriminate.
Qed.

(** X21. On the river the player's check, or the player's call that the
    stack covers, closes the betting: [advanceOrSwitch] runs the showdown
    and then, having no [return] after it, gives the turn to the button
    and calls [nextAction].  The hand is over and the game asks for
    another action: the player's buttons are enabled again when the player
    is on the button, and another [aiAction] is scheduled otherwise.  The
    opponent's check or covered call ends the hand at the showdown as
    well, and whenever an action of the opponent on the river ends the
    hand (a closing check, call, raise or all-in, or a fold), [aiAction]
    returns after the showdown: no button is enabled and nothing is
    scheduled. *)
Theorem river_check_leaves_the_hand_open
  (a : Action) (r : Q) (s : GameState) :
  Table s -> stage s = River ->
  folded (player s) = false -> folded (opponent s) = false ->
  (closesBetting seatPlayer s ->
   let s' := stateOf (userAction check r s) in
   stage s' = Showdown /\ turn s' = button s
   /\ pot s' == pot s + owedByPlayer s
   /\ awaitingUser s' = Seat_eqb (button s) seatPlayer
   /\ aiTimers s' = (if Seat_eqb (button s) seatOpponent
                     then S (aiTimers s) else aiTimers s))
  /\ (closesBetting seatOpponent s ->
      stage (stateOf (aiExecute check r s)) = Showdown)
  /\ (let t := stateOf (aiExecute a r s) in
      stage t = Showdown ->
      awaitingUser t = awaitingUser s /\ aiTimers t = aiTimers s).
Proof.
  intros T St Fp Fo. split; [|split].
  - unfold closesBetting. cbn [seated other]. cbv zeta.
    unfold userAction, owedByPlayer. fields.
    intros [Eq | [Lt Cov]].
    + rewrite (equal_bets_owe_nothing (currentBet (opponent s))
                 (currentBet (player s))) by (symmetry; exact Eq).
      match goal with
      | |- context [advanceOrSwitch ?t] => set (t0 := t)
      end.
      assert (T0 : Table t0)
        by (apply Table_withActionLog, Table_withAwaitingUser; exact T).
      destruct (advanceOrSwitch_on_the_river t0 T0 St Fp Fo Eq)
        as (A1 & A2 & A3 & A4 & A5).
      assert (Z : Qmax 0 (currentBet (opponent s) - currentBet (player s))
                  == 0) by (apply Q.max_l; lra).
      split; [exact A1|]. split; [exact A2|]. split.
      * rewrite A3. subst t0. fields. rewrite Z. ring.
      * split; [exact A4 | exact A5].
    + destruct (something_to_call _ _ Lt) as (Pos & E).
      rewrite Pos.
      match goal with
      | |- context [advanceOrSwitch ?t] => set (t0 := t)
      end.
      assert (M : Qmin (Qmax 0 (currentBet (opponent s) - currentBet (player s)))
                       (stack (player s))
                  == currentBet (opponent s) - currentBet (player s)).
      { rewrite <- E at 2. apply Q.min_l. rewrite E. exact Cov. }
      assert (T0 : Table t0)
        by (apply Table_withActionLog, Table_bet, Table_withAwaitingUser;
            exact T).
      assert (St0 : stage t0 = River) by exact St.
      assert (Fp0 : folded (player t0) = false) by exact Fp.
      assert (Fo0 : folded (opponent t0) = false) by exact Fo.
      assert (Eq0 : currentBet (player t0) == currentBet (opponent t0)).
      { subst t0. unfold bet. fields. rewrite M. ring. }
      destruct (advanceOrSwitch_on_the_river t0 T0 St0 Fp0 Fo0 Eq0)
        as (A1 & A2 & A3 & A4 & A5).
      split; [exact A1|]. split; [exact A2|]. split.
      * rewrite A3. subst t0. unfold bet. fields. rewrite M, E. ring.
      * split; [exact A4 | exact A5].
  - unfold closesBetting. cbn [seated other]. cbv zeta.
    unfold aiExecute.
    intros [Eq | [Lt Cov]].
    + rewrite (equal_bets_owe_nothing (currentBet (player s))
                 (currentBet (opponent s))) by (symmetry; exact Eq).
      match goal with
      | |- context [aiAdvanceOrSwitch ?t] => set (t0 := t)
      end.
      apply (aiAdvanceOrSwitch_on_the_river t0 St Fp Fo).
      symmetry. exact Eq.
    + destruct (something_to_call _ _ Lt) as (Pos & E).
      rewrite Pos.
      match goal with
      | |- context [aiAdvanceOrSwitch ?t] => set (t0 := t)
      end.
      assert (M : Qmin (Qmax 0 (currentBet (player s) - currentBet (opponent s)))
                       (stack (opponent s))
                  == currentBet (player s) - currentBet (opponent s)).
      { rewrite <- E at 2. apply Q.min_l. rewrite E. exact Cov. }
      apply (aiAdvanceOrSwitch_on_the_river t0 St Fp Fo).
      subst t0. unfold bet. fields. rewrite M. ring.
  - cbv zeta. unfold aiExecute.
    pose proof (goToShowdown_pending) as GP.
    destruct a.
    all: try match goal with
      | |- context [positive ?x] => destruct (positive x)
      end.
    all: match goal with
      | |- context [aiAdvanceOrSwitch ?t] =>
          intro H;
          exact (proj2 (aiAdvanceOrSwitch_on_the_river t St Fp Fo) H)
      | |- context [goToShowdown ?t] =>
          intros _; destruct (GP t) as (P1 & P2 & _);
          rewrite P1, P2; split; reflexivity
      end.
Qed.

Lemma Table_clickNextHand (rnd : nat -> nat) (s : GameState) :
  Table s -> Table (clickNextHand rnd s).
Proof. exact (Table_matchStep (NextHand rnd) s). Qed.

Lemma secondHandRiver_Table : Table secondHandRiver.
Proof.
  unfold secondHandRiver. apply Table_play.
  unfold secondHandOpened. apply Table_play.
  unfold secondHandDealt. apply Table_clickNextHand.
  apply Table_play. unfold initGame. apply startHand_Table.
Qed.

(** *** A check with equal bets *)

(** X20. A check made while the two bets are equal closes the street at
    once, for the player and for the opponent alike: the bets are reset,
    the stage moves on and the cards of the next street are dealt.  The
    flop, the turn and the river each start with both bets at 0, so the
    first check of such a street ends it and the other player does not
    act on it. *)
Theorem check_with_equal_bets_closes_the_street (r : Q) (s : GameState) :
  folded (player s) = false -> folded (opponent s) = false ->
  currentBet (player s) == currentBet (opponent s) ->
  (let s' := stateOf (userAction check r s) in
   stage s' = nextStage (stage s)
   /\ length (board s') = (length (board s) + boardCardsDealt (stage s))%nat
   /\ currentBet (player s') = 0 /\ currentBet (opponent s') = 0)
  /\ (let s' := stateOf (aiExecute check r s) in
      stage s' = nextStage (stage s)
      /\ length (board s') = (length (board s) + boardCardsDealt (stage s))%nat
      /\ currentBet (player s') = 0 /\ currentBet (opponent s') = 0).
Proof.
  intros Fp Fo Eq. split; cbv zeta.
  - unfold userAction. fields.
    rewrite (equal_bets_owe_nothing (currentBet (opponent s))
               (currentBet (player s))) by (symmetry; exact Eq).
    match goal with
    | |- context [advanceOrSwitch ?t] =>
        destruct (advanceOrSwitch_outcome t Fp Fo) as [A _];
        destruct (A Eq) as (A1 & A2 & A3 & A4 & _)
    end.
    fields. auto.
  - unfold aiExecute.
    rewrite (equal_bets_owe_nothing (currentBet (player s))
               (currentBet (opponent s))) by exact Eq.
    match goal with
    | |- context [aiAdvanceOrSwitch ?t] =>
        destruct (aiAdvanceOrSwitch_outcome t Fp Fo) as [A _];
        destruct (A Eq) as (A1 & A2 & A3 & A4 & _)
    end.
    fields. auto.
Qed.

Lemma call_for_less_never_closes_the_betting_witness :
  let who := seatOpponent in
  let events := [UserActs check 0; AiActs check 0; UserActs raise 100;
                 AiActs allin 0; UserActs allin 0; AiActs raise 200] in
  let s := calledForLess in
  (calledShort who s /\ Forall playsOn events)
  /\ (let s' := play events s in
      stage s' = stage s /\ board s' = board s
      /\ currentBet (seated who s') < currentBet (seated (other who) s')).
Proof.
  intros who events s.
  assert (C : calledShort who s).
  { unfold calledShort.
    split; [|split; [|split; [|split]]]; vm_compute;
      solve [reflexivity | discriminate]. }
  assert (F : Forall playsOn events).
  { unfold events.
    repeat (apply Forall_cons; [split; [discriminate | vm_compute; discriminate]|]).
    apply Forall_nil. }
  split; [exact (conj C F)|].
  exact (call_for_less_never_closes_the_betting who events s C F).
Defined.

Lemma secondHandRiverRaised_Table : Table secondHandRiverRaised.
Proof.
  unfold secondHandRiverRaised. apply Table_play. exact secondHandRiver_Table.
Qed.

Lemma river_check_leaves_the_hand_open_witness :
  let s := secondHandRiverRaised in
  (stage s = River /\ folded (player s) = false
   /\ folded (opponent s) = false
   /\ closesBetting seatPlayer s /\ owedByPlayer s == 100
   /\ button s = seatPlayer)
  /\ ((closesBetting seatPlayer s ->
       let s' := stateOf (userAction check 0 s) in
       stage s' = Showdown /\ turn s' = button s
       /\ pot s' == pot s + owedByPlayer s
       /\ awaitingUser s' = Seat_eqb (button s) seatPlayer
       /\ aiTimers s' = (if Seat_eqb (button s) seatOpponent
                         then S (aiTimers s) else aiTimers s))
      /\ (closesBetting seatOpponent s ->
          stage (stateOf (aiExecute check 0 s)) = Showdown)
      /\ (let t := stateOf (aiExecute fold 0 s) in
          stage t = Showdown ->
          awaitingUser t = awaitingUser s /\ aiTimers t = aiTimers s)).
Proof.
  intro s.
  assert (St : stage s = River) by (vm_compute; reflexivity).
  assert (Fp : folded (player s) = false) by (vm_compute; reflexivity).
  assert (Fo : folded (opponent s) = false) by (vm_compute; reflexivity).
  assert (Cl : closesBetting seatPlayer s).
  { right. split; [vm_compute; reflexivity | vm_compute; discriminate]. }
  assert (Ow : owedByPlayer s == 100) by (vm_compute; reflexivity).
  assert (Bt : button s = seatPlayer) by (vm_compute; reflexivity).
  split; [exact (conj St (conj Fp (conj Fo (conj Cl (conj Ow Bt)))))|].
  exact (river_check_leaves_the_hand_open fold 0 s
           secondHandRiverRaised_Table St Fp Fo).
Defined.

Lemma check_with_equal_bets_closes_the_street_witness :
  let s := firstHandFlop in
  (stage s = Flop /\ turn s = seatOpponent
   /\ folded (player s) = false /\ folded (opponent s) = false
   /\ currentBet (player s) == currentBet (opponent s))
  /\ ((let s' := stateOf (userAction check 0 s) in
       stage s' = nextStage (stage s)
       /\ length (board s')
          = (length (board s) + boardCardsDealt (stage s))%nat
       /\ currentBet (player s') = 0 /\ currentBet (opponent s') = 0)
      /\ (let s' := stateOf (aiExecute check 0 s) in
          stage s' = nextStage (stage s)
          /\ length (board s')
             = (length (board s) + boardCardsDealt (stage s))%nat
          /\ currentBet (player s') = 0 /\ currentBet (opponent s') = 0)).
Proof.
  intro s.
  assert (St : stage s = Flop) by (vm_compute; reflexivity).
  assert (Tn : turn s = seatOpponent) by (vm_compute; reflexivity).
  assert (Fp : folded (player s) = false) by (vm_compute; reflexivity).
  assert (Fo : folded (opponent s) = false) by (vm_compute; reflexivity).
  assert (Eq : currentBet (player s) == currentBet (opponent s))
    by (vm_compute; reflexivity).
  split; [exact (conj St (conj Tn (conj Fp (conj Fo Eq))))|].
  exact (check_with_equal_bets_closes_the_street 0 s Fp Fo Eq).
Defined.

Lemma grows_refl (s : GameState) : grows s s.
Proof. split; [reflexivity | apply incl_refl]. Qed.

Lemma grows_trans (s t u : GameState) : grows s t -> grows t u -> grows s u.
Proof.
  intros [A B] [C D]. split; [congruence | eapply incl_tran; eassumption].
Qed.

Lemma grows_goToShowdown (s : GameState) : grows s (stateOf (goToShowdown s)).
Proof.
  split; [apply goToShowdown_pending|].
  unfold goToShowdown. destruct (winnerOf (withStage Showdown s)) as [w|].
  - fields.
    assert (E : actionLog (awardPot w (withStage Showdown s)) = actionLog s)
      by (unfold awardPot; destruct w as [[|]|]; reflexivity).
    rewrite E. apply incl_appl, incl_refl.
  - apply incl_refl.
Qed.

Lemma grows_nextAction (s : GameState) : grows s (stateOf (nextAction s)).
Proof.
  unfold nextAction. destruct (folded (player s) || folded (opponent s)).
  - apply grows_goToShowdown.
  - destruct (turn s); split; try reflexivity; apply incl_refl.
Qed.

Lemma grows_then_turn (who : Seat) (s t : GameState) :
  grows s t -> grows s (stateOf (nextAction (withTurn who t))).
Proof.
  intro G. apply (grows_trans s t); [exact G|].
  apply (grows_trans t (withTurn who t));
    [split; [reflexivity | apply incl_refl]|].
  apply grows_nextAction.
Qed.

Lemma grows_advanceOrSwitch (s : GameState) :
  grows s (stateOf (advanceOrSwitch s)).
Proof.
  unfold advanceOrSwitch.
  destruct (Qeq_bool (currentBet (player s)) (currentBet (opponent s))).
  - cbv zeta. destruct (stage (resetBets s)); cbn [andThen];
      try (apply grows_then_turn; split; [reflexivity | apply incl_refl]).
    pose proof (grows_goToShowdown (resetBets s)) as G.
    destruct (goToShowdown (resetBets s)) as [t|t]; cbn [andThen stateOf] in *.
    + apply grows_then_turn. exact G.
    + exact G.
  - apply grows_then_turn, grows_refl.
Qed.

(** X23. A call is logged for the whole amount owed even when the player's
    stack does not cover it: the entry reads [toCall], the pot grows by
    the smaller of [toCall] and the stack, and nothing takes chips out of
    the pot afterwards. *)
Theorem call_is_logged_in_full (r : Q) (s : GameState) :
  positive (owedByPlayer s) = true ->
  let s' := stateOf (userAction check r s) in
  In (ActionEntry (stage s) seatPlayer logCall (owedByPlayer s) (pot s)
        (board s) (cards (player s))) (actionLog s')
  /\ pot s' = pot s + Qmin (owedByPlayer s) (stack (player s))
  /\ (stack (player s) < owedByPlayer s ->
      pot s' - pot s < owedByPlayer s).
Proof.
  unfold owedByPlayer. intro P. cbv zeta. unfold userAction. fields.
  rewrite P.
  match goal with
  | |- context [advanceOrSwitch ?t] =>
      destruct (grows_advanceOrSwitch t) as [G1 G2]
  end.
  rewrite G1. fields. split; [|split].
  - apply G2. fields. apply in_or_app. right. left.
    unfold bet. fields. reflexivity.
  - unfold bet. fields. reflexivity.
  - intro L. unfold bet. fields.
    rewrite (Q.min_r _ _ (Qlt_le_weak _ _ L)). lra.
Qed.

Lemma call_is_logged_in_full_witness :
  let s := facingABigRaise in
  (positive (owedByPlayer s) = true /\ owedByPlayer s == 6050
   /\ stack (player s) == 4850 /\ stack (player s) < owedByPlayer s)
  /\ (let s' := stateOf (userAction check 0 s) in
      In (ActionEntry (stage s) seatPlayer logCall (owedByPlayer s) (pot s)
            (board s) (cards (player s))) (actionLog s')
      /\ pot s' = pot s + Qmin (owedByPlayer s) (stack (player s))
      /\ (stack (player s) < owedByPlayer s ->
          pot s' - pot s < owedByPlayer s)).
Proof.
  intro s.
  assert (P : positive (owedByPlayer s) = true) by (vm_compute; reflexivity).
  assert (O : owedByPlayer s == 6050) by (vm_compute; reflexivity).
  assert (K : stack (player s) == 4850) by (vm_compute; reflexivity).
  assert (L : stack (player s) < owedByPlayer s) by (vm_compute; reflexivity).
  split; [exact (conj P (conj O (conj K L)))|].
  exact (call_is_logged_in_full 0 s P).
Defined.

(** X24. A fold ends the hand and hands the pot to the other seat: the
    player's fold adds the pot to the opponent's stack, the opponent's
    fold adds it to the player's, and [gameState.pot] keeps its value. *)
Theorem fold_hands_the_pot_to_the_other (r : Q) (s : GameState) :
  folded (player s) = false ->
  (let s' := stateOf (userAction fold r s) in
   stage s' = Showdown
   /\ stack (opponent s') = stack (opponent s) + pot s
   /\ stack (player s') = stack (player s)
   /\ pot s' = pot s
   /\ In (ShowdownEntry (Some false)) (actionLog s'))
  /\ (let s' := stateOf (aiExecute fold r s) in
      stage s' = Showdown
      /\ stack (player s') = stack (player s) + pot s
      /\ stack (opponent s') = stack (opponent s)
      /\ pot s' = pot s
      /\ In (ShowdownEntry (Some true)) (actionLog s')).
Proof.
  intro Fp. split; cbv zeta.
  - unfold userAction, goToShowdown, winnerOf, awardPot. fields.
    repeat split; try reflexivity. apply in_or_app. right. now left.
  - unfold aiExecute, goToShowdown, winnerOf, awardPot. fields.
    rewrite Fp. fields.
    repeat split; try reflexivity. apply in_or_app. right. now left.
Qed.

Lemma fold_hands_the_pot_to_the_other_witness :
  let s := firstHandFlop in
  folded (player s) = false
  /\ ((let s' := stateOf (userAction fold 0 s) in
       stage s' = Showdown
       /\ stack (opponent s') = stack (opponent s) + pot s
       /\ stack (player s') = stack (player s)
       /\ pot s' = pot s
       /\ In (ShowdownEntry (Some false)) (actionLog s'))
      /\ (let s' := stateOf (aiExecute fold 0 s) in
          stage s' = Showdown
          /\ stack (player s') = stack (player s) + pot s
          /\ stack (opponent s') = stack (opponent s)
          /\ pot s' = pot s
          /\ In (ShowdownEntry (Some true)) (actionLog s'))).
Proof.
  intro s.
  assert (Fp : folded (player s) = false) by (vm_compute; reflexivity).
  split; [exact Fp|].
  exact (fold_hands_the_pot_to_the_other 0 s Fp).
Defined.

(** ** The opponent's policy *)

Lemma owed_nothing (s : GameState) :
  currentBet (player s) <= currentBet (opponent s) ->
  Qeq_bool (owedByOpponent s) 0 = true /\ positive (owedByOpponent s) = false.
Proof.
  intro H. unfold owedByOpponent. split.
  - apply Qeq_bool_iff. apply Q.max_l. lra.
  - apply nothing_to_call. exact H.
Qed.

Lemma owed_something (s : GameState) :
  currentBet (opponent s) < currentBet (player s) ->
  Qeq_bool (owedByOpponent s) 0 = false /\ positive (owedByOpponent s) = true.
Proof.
  intro H. unfold owedByOpponent.
  assert (E : Qmax 0 (currentBet (player s) - currentBet (opponent s))
              == currentBet (player s) - currentBet (opponent s))
    by (apply Q.max_r; lra).
  split.
  - destruct (Qeq_bool _ 0) eqn:B; [|reflexivity].
    apply Qeq_bool_iff in B. rewrite E in B. lra.
  - unfold positive. apply negb_true_iff.
    destruct (Qle_bool _ 0) eqn:B; [|reflexivity].
    apply Qle_bool_iff in B. rewrite E in B. lra.
Qed.

Ltac decide_cases :=
  repeat match goal with
    | |- context [if ?b then _ else _] => destruct b
    end.

(** X25. The opponent never folds when it owes nothing: with its bet at
    least the player's, whatever its style, the stage and its draws, the
    action it settles on is a check, a raise or an all-in. *)
Theorem opponent_never_folds_for_free
  (o : AiOracle) (s : GameState) (a : Action) (r : Q) :
  currentBet (player s) <= currentBet (opponent s) ->
  aiDecide o s = Some (a, r) -> a <> fold.
Proof.
  intro H. destruct (owed_nothing s H) as [E1 E2].
  unfold owedByOpponent in E1, E2. unfold aiDecide. cbv zeta.
  rewrite E1, E2.
  destruct (computeEquity _ _ _ _ _) as [e|]; [|discriminate].
  destruct (stage s); [destruct (strengthOf _); [|discriminate]| | | |];
    destruct (opponentType s); decide_cases;
    intro X; inversion X; discriminate.
Qed.

Lemma opponent_never_folds_for_free_witness :
  currentBet (player secondHandDealt) <= currentBet (opponent secondHandDealt)
  /\ aiDecide (steady 0.9) secondHandDealt = Some (check, 0)
  /\ check <> fold.
Proof.
  assert (H : currentBet (player secondHandDealt)
              <= currentBet (opponent secondHandDealt))
    by (vm_compute; discriminate).
  pose proof (proj1 (proj2 opponent_checks_in_second_hand)) as E.
  split; [exact H|]. split; [exact E|].
  exact (opponent_never_folds_for_free (steady 0.9) secondHandDealt check 0
           H E).
Defined.

(** X26. Facing a bet, only the 'tamayo' style ever raises: every other
    style calls, folds or, for 'salas' on a short stack before the flop,
    moves all in. *)
Theorem only_tamayo_raises_a_bet
  (o : AiOracle) (s : GameState) (a : Action) (r : Q) :
  currentBet (opponent s) < currentBet (player s) ->
  opponentType s <> tamayo ->
  aiDecide o s = Some (a, r) ->
  a <> raise /\ r == 0
  /\ (a = allin -> opponentType s = salas /\ stage s = Preflop
                   /\ stack (opponent s) < 10 * bigBlind s).
Proof.
  intros H Hs. destruct (owed_something s H) as [E1 E2].
  unfold owedByOpponent in E1, E2. unfold aiDecide. cbv zeta.
  rewrite E1, E2.
  destruct (computeEquity _ _ _ _ _) as [e|]; [|discriminate].
  destruct (stage s) eqn:St;
    [destruct (strengthOf _); [|discriminate]| | | |];
    destruct (opponentType s) eqn:Ty; try congruence; cbn [andb];
    try (destruct (less (stack (opponent s)) (10 * bigBlind s)) eqn:Sh);
    decide_cases; intro X; inversion X; subst;
    (split; [discriminate|]); (split; [reflexivity|]);
    intro Y; try discriminate.
  all: repeat split; try reflexivity.
  all: unfold less in Sh; apply negb_true_iff in Sh.
  all: destruct (Qlt_le_dec (stack (opponent s)) (10 * bigBlind s)) as [Q|Q];
    [exact Q|].
  all: apply Qle_bool_iff in Q; congruence.
Qed.

Lemma only_tamayo_raises_a_bet_witness :
  currentBet (opponent opponentToAct) < currentBet (player opponentToAct)
  /\ opponentType opponentToAct <> tamayo
  /\ aiDecide (steady 0.9) opponentToAct = Some (check, 0)
  /\ check <> raise.
Proof.
  assert (H : currentBet (opponent opponentToAct)
              < currentBet (player opponentToAct))
    by (vm_compute; reflexivity).
  assert (Hs : opponentType opponentToAct <> tamayo)
    by (vm_compute; discriminate).
  pose proof (proj1 (proj2 opponent_calls_in_first_hand)) as E.
  split; [exact H|]. split; [exact Hs|]. split; [exact E|].
  exact (proj1 (only_tamayo_raises_a_bet (steady 0.9) opponentToAct check 0
                  H Hs E)).
Defined.

(** X27. Push or fold: before the flop, with a stack below ten big blinds,
    the 'salas' style never raises to an amount.  Owing nothing it moves
    all in or checks; facing a bet it moves all in or folds, and never
    calls. *)
Theorem salas_short_stack_pushes_or_folds
  (o : AiOracle) (s : GameState) (a : Action) (r : Q) :
  opponentType s = salas -> stage s = Preflop ->
  stack (opponent s) < 10 * bigBlind s ->
  aiDecide o s = Some (a, r) ->
  r == 0
  /\ (currentBet (player s) <= currentBet (opponent s) ->
      a = allin \/ a = check)
  /\ (currentBet (opponent s) < currentBet (player s) ->
      a = allin \/ a = fold).
Proof.
  intros Ty St Sh.
  assert (Hl : less (stack (opponent s)) (10 * bigBlind s) = true).
  { unfold less. apply negb_true_iff.
    destruct (Qle_bool _ _) eqn:B; [|reflexivity].
    apply Qle_bool_iff in B. lra. }
  unfold aiDecide. cbv zeta. rewrite Ty, St, Hl.
  destruct (computeEquity _ _ _ _ _) as [e|]; [|discriminate].
  destruct (strengthOf _); [|discriminate].
  destruct (Qlt_le_dec (currentBet (opponent s)) (currentBet (player s)))
    as [C|C].
  - destruct (owed_something s C) as [E1 E2]. unfold owedByOpponent in E1.
    rewrite E1. cbn [andb]. decide_cases; intro X; inversion X; subst;
      (split; [reflexivity|]); (split; [intro; lra | auto]).
  - destruct (owed_nothing s C) as [E1 E2]. unfold owedByOpponent in E1.
    rewrite E1. decide_cases; intro X; inversion X; subst;
      (split; [reflexivity|]); (split; [auto | intro; lra]).
Qed.

Lemma Table_withStack_opponent (v : Q) (s : GameState) :
  Table s -> Table (withOpponent (withStack v (opponent s)) s).
Proof. apply Table_same; reflexivity. Qed.

Lemma shortStacked_Table : Table shortStacked.
Proof.
  unfold shortStacked. cbv zeta. apply Table_withStack_opponent.
  apply startHand_Table.
Qed.

Lemma salas_short_stack_pushes_or_folds_witness :
  opponentType shortStacked = salas /\ stage shortStacked = Preflop
  /\ stack (opponent shortStacked) < 10 * bigBlind shortStacked
  /\ currentBet (opponent shortStacked) < currentBet (player shortStacked)
  /\ exists a r,
       aiDecide (steady 0.9) shortStacked = Some (a, r)
       /\ r == 0 /\ (a = allin \/ a = fold).
Proof.
  assert (Ty : opponentType shortStacked = salas)
    by (vm_compute; reflexivity).
  assert (St : stage shortStacked = Preflop) by (vm_compute; reflexivity).
  assert (Sh : stack (opponent shortStacked) < 10 * bigBlind shortStacked)
    by (vm_compute; reflexivity).
  assert (C : currentBet (opponent shortStacked)
              < currentBet (player shortStacked))
    by (vm_compute; reflexivity).
  destruct (aiDecide_decides (steady 0.9) shortStacked shortStacked_Table)
    as (a & r & E).
  repeat (split; [assumption|]).
  exists a, r. split; [exact E|].
  destruct (salas_short_stack_pushes_or_folds (steady 0.9) shortStacked a r
              Ty St Sh E) as (R & _ & F).
  split; [exact R | exact (F C)].
Defined.

(** ** The hand analysis *)

Lemma Logged_same (s s' : GameState) :
  actionLog s' = actionLog s -> cards (player s') = cards (player s) ->
  cards (opponent s') = cards (opponent s) -> board s' = board s ->
  Logged s -> Logged s'.
Proof.
  intros Hl Hp Ho Hb L st who a b p bd cs Hin. rewrite Hl in Hin.
  destruct (L _ _ _ _ _ _ _ Hin) as (A & B & C & D).
  rewrite Hb. repeat split; try assumption.
  destruct who; cbn [seated] in *; congruence.
Qed.

Lemma Logged_grows (s s' : GameState) (more : list slot) :
  actionLog s' = actionLog s -> cards (player s') = cards (player s) ->
  cards (opponent s') = cards (opponent s) -> board s' = board s ++ more ->
  Logged s -> Logged s'.
Proof.
  intros Hl Hp Ho Hb L st who a b p bd cs Hin. rewrite Hl in Hin.
  destruct (L _ _ _ _ _ _ _ Hin) as (A & B & C & D).
  rewrite Hb. repeat split; try assumption.
  - destruct who; cbn [seated] in *; congruence.
  - apply incl_appl. exact B.
Qed.

Lemma Logged_push (s : GameState) (st : Stage) (who : Seat)
  (a : LoggedAction) (b p : Q) :
  (noneUndefined (board s) /\ (st = Preflop -> board s = [])) -> Logged s ->
  Logged (withActionLog
            (actionLog s ++ [ActionEntry st who a b p (board s)
                               (cards (seated who s))]) s).
Proof.
  intros [B P] L st' who' a' b' p' bd cs Hin. fields.
  apply in_app_or in Hin. destruct Hin as [Hin|[Hin|[]]].
  - destruct (L _ _ _ _ _ _ _ Hin) as (A1 & A2 & A3 & A4).
    repeat split; try assumption; destruct who'; exact A1.
  - inversion Hin; subst. repeat split; try assumption;
      try apply incl_refl; destruct who'; reflexivity.
Qed.

Lemma Logged_showdownEntry (s : GameState) (w : option bool) :
  Logged s -> Logged (withActionLog (actionLog s ++ [ShowdownEntry w]) s).
Proof.
  intros L st who a b p bd cs Hin. fields.
  apply in_app_or in Hin. destruct Hin as [Hin|[Hin|[]]]; [|discriminate].
  destruct (L _ _ _ _ _ _ _ Hin) as (A1 & A2 & A3 & A4).
  repeat split; try assumption; destruct who; exact A1.
Qed.

Lemma Logged_goToShowdown (s : GameState) :
  Logged s -> Logged (stateOf (goToShowdown s)).
Proof.
  intro L. unfold goToShowdown.
  destruct (winnerOf (withStage Showdown s)) as [w|]; fields.
  - apply Logged_showdownEntry.
    apply (Logged_same s); try exact L;
      unfold awardPot; destruct w as [[|]|]; reflexivity.
  - apply (Logged_same s); try reflexivity. exact L.
Qed.

Lemma Logged_nextAction (s : GameState) :
  Logged s -> Logged (stateOf (nextAction s)).
Proof.
  intro L. unfold nextAction.
  destruct (folded (player s) || folded (opponent s)).
  - apply Logged_goToShowdown. exact L.
  - destruct (turn s); fields; apply (Logged_same s); try reflexivity;
      exact L.
Qed.

Lemma Logged_then_turn (who : Seat) (s : GameState) :
  Logged s -> Logged (stateOf (nextAction (withTurn who s))).
Proof.
  intro L. apply Logged_nextAction.
  apply (Logged_same s); try reflexivity. exact L.
Qed.

Lemma Logged_deals (s : GameState) :
  Logged s -> Logged (dealFlop s) /\ Logged (dealTurn s) /\ Logged (dealRiver s).
Proof.
  intro L. split; [|split].
  - apply (Logged_grows s _
             [dealt (afterDeal (deck s));
              dealt (afterDeal (afterDeal (deck s)));
              dealt (afterDeal (afterDeal (afterDeal (deck s))))]);
      try reflexivity; [|exact L].
    unfold dealFlop, dealToBoard, burn, dealFromDeck. fields.
    rewrite <- !app_assoc. reflexivity.
  - apply (Logged_grows s _ [dealt (afterDeal (deck s))]);
      try reflexivity; exact L.
  - apply (Logged_grows s _ [dealt (afterDeal (deck s))]);
      try reflexivity; exact L.
Qed.

Lemma Logged_resetBets (s : GameState) : Logged s -> Logged (resetBets s).
Proof. apply Logged_same; reflexivity. Qed.

Lemma Logged_advanceOrSwitch (s : GameState) :
  Logged s -> Logged (stateOf (advanceOrSwitch s)).
Proof.
  intro L. unfold advanceOrSwitch.
  destruct (Qeq_bool (currentBet (player s)) (currentBet (opponent s))).
  - pose proof (Logged_resetBets s L) as Lr. cbv zeta.
    destruct (Logged_deals _ Lr) as (D1 & D2 & D3).
    destruct (stage (resetBets s)) eqn:Hst; cbn [andThen];
      try (apply Logged_then_turn; assumption).
    pose proof (Logged_goToShowdown _ Lr) as Lg.
    destruct (goToShowdown (resetBets s)) as [s'|s'];
      cbn [andThen stateOf] in *; [|exact Lg].
    apply Logged_then_turn. exact Lg.
  - apply Logged_then_turn. exact L.
Qed.

Lemma Logged_aiAdvanceOrSwitch (s : GameState) :
  Logged s -> Logged (stateOf (aiAdvanceOrSwitch s)).
Proof.
  intro L. unfold aiAdvanceOrSwitch.
  destruct (Qeq_bool _ _).
  - pose proof (Logged_resetBets s L) as Lr. cbv zeta.
    destruct (Logged_deals _ Lr) as (D1 & D2 & D3).
    destruct (stage (resetBets s)) eqn:Hst;
      try (apply Logged_then_turn; assumption).
    apply (Logged_goToShowdown (resetBets s) Lr).
  - apply Logged_then_turn. exact L.
Qed.

Lemma Logged_bet (who : Seat) (amount : Q) (s : GameState) :
  Logged s -> Logged (bet who amount s).
Proof. apply Logged_same; unfold bet; destruct who; reflexivity. Qed.

Lemma Logged_userAction (a : Action) (r : Q) (s : GameState) :
  (noneUndefined (board s) /\ (stage s = Preflop -> board s = [])) ->
  Logged s ->
  Logged (stateOf (userAction a r s)).
Proof.
  intros B L.
  assert (L1 : Logged (withAwaitingUser false s))
    by (apply (Logged_same s); try reflexivity; exact L).
  unfold userAction. set (s1 := withAwaitingUser false s) in *.
  destruct a.
  - apply Logged_goToShowdown.
    apply (Logged_push (withPlayer (withFolded true (player s1)) s1)
             (stage s1) seatPlayer logFold 0 (pot s1) B).
    apply (Logged_same s1); try reflexivity. exact L1.
  - destruct (positive _); apply Logged_advanceOrSwitch.
    + match goal with
      | |- context [bet seatPlayer ?x s1] =>
          apply (Logged_push (bet seatPlayer x s1) (stage s1) seatPlayer
                   logCall x (pot s1) B (Logged_bet _ _ _ L1))
      end.
    + apply (Logged_push s1 (stage s1) seatPlayer logCheck 0 (pot s1) B L1).
  - apply Logged_then_turn.
    apply (Logged_push (bet seatPlayer (stack (player s1)) s1) (stage s1)
             seatPlayer logAllin (stack (player s1)) (pot s1) B
             (Logged_bet _ _ _ L1)).
  - apply Logged_then_turn.
    match goal with
    | |- context [bet seatPlayer ?x s1] =>
        apply (Logged_push (bet seatPlayer x s1) (stage s1) seatPlayer
                 logRaise x (pot s1) B (Logged_bet _ _ _ L1))
    end.
Qed.

Lemma Logged_aiExecute (a : Action) (r : Q) (s : GameState) :
  (noneUndefined (board s) /\ (stage s = Preflop -> board s = [])) ->
  Logged s ->
  Logged (stateOf (aiExecute a r s)).
Proof.
  intros B L. unfold aiExecute.
  destruct a.
  - apply Logged_goToShowdown.
    apply (Logged_push (withOpponent (withFolded true (opponent s)) s)
             (stage s) seatOpponent logFold 0 (pot s) B).
    apply (Logged_same s); try reflexivity. exact L.
  - destruct (positive _); apply Logged_aiAdvanceOrSwitch.
    + match goal with
      | |- context [bet seatOpponent ?x s] =>
          apply (Logged_push (bet seatOpponent x s) (stage s) seatOpponent
                   logCall x (pot s) B (Logged_bet _ _ _ L))
      end.
    + apply (Logged_push s (stage s) seatOpponent logCheck 0 (pot s) B L).
  - apply Logged_aiAdvanceOrSwitch.
    apply (Logged_push (bet seatOpponent (stack (opponent s)) s) (stage s)
             seatOpponent logAllin (stack (opponent s)) (pot s) B
             (Logged_bet _ _ _ L)).
  - apply Logged_aiAdvanceOrSwitch.
    match goal with
    | |- context [bet seatOpponent ?x s] =>
        apply (Logged_push (bet seatOpponent x s) (stage s) seatOpponent
                 logRaise x (pot s) B (Logged_bet _ _ _ L))
    end.
Qed.

Lemma Logged_handStep (e : HandEvent) (s : GameState) :
  Table s -> Logged s -> Logged (handStep e s).
Proof.
  intros T L.
  assert (B : noneUndefined (board s) /\ (stage s = Preflop -> board s = [])).
  { split; [apply T|]. intro Hs.
    destruct (Table_street_of s T) as [Lb _]; [congruence|].
    rewrite Hs in Lb. destruct (board s); [reflexivity | discriminate]. }
  destruct e as [a r|a r|]; cbn [handStep] in *.
  - unfold clickAction. destruct (awaitingUser s); [|exact L].
    apply Logged_userAction; assumption.
  - unfold aiTimerFires. destruct (aiTimers s) as [|n]; [exact L|].
    apply Logged_aiExecute; [exact B|].
    apply (Logged_same s); try reflexivity. exact L.
  - unfold aiTimerThrows. destruct (aiTimers s); [exact L|].
    apply (Logged_same s); try reflexivity. exact L.
Qed.

Lemma startHand_Logged (rnd : nat -> nat) (s0 : GameState) :
  Logged (stateOf (startHand rnd s0)).
Proof.
  unfold startHand, dealFromDeck. fields.
  apply Logged_then_turn. intros st who a b p bd cs Hin. fields.
  destruct Hin.
Qed.

Lemma Logged_matchStep (e : MatchEvent) (s : GameState) :
  Table s -> Logged s -> Logged (matchStep e s).
Proof.
  destruct e as [e|rnd]; cbn [matchStep].
  - apply Logged_handStep.
  - intros _ L. unfold clickNextHand.
    destruct (Qle_bool (stack (player s)) 0 || Qle_bool (stack (opponent s)) 0);
      [exact L | apply startHand_Logged].
Qed.

Lemma Logged_playMatch (events : list MatchEvent) (s : GameState) :
  Table s -> Logged s -> Logged (playMatch events s).
Proof.
  revert s. induction events as [|e events IH]; intros s T L; [exact L|].
  cbn [playMatch fold_left]. apply IH.
  - apply Table_matchStep. exact T.
  - apply Logged_matchStep; assumption.
Qed.

Lemma analyse_lines (rnd : nat -> nat -> nat -> nat) (d : Deck)
  (log : list LogEntry) :
  forall k lines,
    analyse rnd d log k = Some lines ->
    Forall2 lineOf (playerEntries log) lines.
Proof.
  induction log as [|e log IH]; intros k lines H.
  - cbn [analyse] in H. inversion H. constructor.
  - destruct e as [st who a b p bd cs|w]; cbn [analyse playerEntries filter] in *.
    + destruct who.
      * destruct (computeEquity (rnd k) cs bd d 100) as [eq|]; [|discriminate].
        destruct (evaluateSlots (cs ++ bd)) as [hr|] eqn:E; [|discriminate].
        destruct (analyse rnd d log (S k)) as [rest|] eqn:R; [|discriminate].
        inversion H; subst. constructor; [|exact (IH _ _ R)].
        cbn [lineOf lineStage lineAction lineBet lineAdvice lineEquity
             lineDisguise]. repeat split. exists hr. auto.
      * exact (IH _ _ H).
    + exact (IH _ _ H).
Qed.

Lemma analyse_completes (rnd : nat -> nat -> nat -> nat) (s : GameState)
  (log : list LogEntry) :
  Table s -> incl log (actionLog s) -> Logged s ->
  forall k, exists lines, analyse rnd (deck s) log k = Some lines.
Proof.
  intros T I L. induction log as [|e log IH]; intro k.
  - exists []. reflexivity.
  - assert (I' : incl log (actionLog s))
      by (intros x Hx; apply I; now right).
    specialize (IH I').
    destruct e as [st who a b p bd cs|w]; cbn [analyse].
    + destruct who.
      * destruct (L st seatPlayer a b p bd cs) as (A1 & A2 & A3 & A4);
          [apply I; now left|]. cbn [seated] in A1.
        destruct (Table_holes_defined s T) as [Hp _].
        destruct (Table_estimate (rnd k) s cs bd 100 T) as [eq ->];
          try assumption; [rewrite A1; exact Hp | rewrite A1; auto |].
        unfold evaluateSlots.
        assert (D : noneUndefined (cs ++ bd))
          by (apply allDefined_app; [rewrite A1; exact Hp | exact A3]).
        unfold noneUndefined in D.
        destruct (allDefined (cs ++ bd)) as [l|]; [|congruence].
        destruct (IH (S k)) as (lines & ->).
        eexists. reflexivity.
      * exact (IH k).
    + exact (IH k).
Qed.

Lemma initGame_Logged (scenario : Scenario) (oppType : Style)
  (rnd : nat -> nat) :
  Logged (stateOf (initGame scenario oppType rnd)).
Proof. apply startHand_Logged. Qed.

Lemma Forall2_In_r {A B : Type} (R : A -> B -> Prop) (la : list A)
  (lb : list B) (b : B) :
  Forall2 R la lb -> In b lb -> exists a, In a la /\ R a b.
Proof.
  induction 1 as [|x y la lb HR HF IH]; intro Hin; [destruct Hin|].
  destruct Hin as [<-|Hin].
  - exists x. split; [now left | exact HR].
  - destruct (IH Hin) as (a & Ha & Hr). exists a. split; [now right | exact Hr].
Qed.


(** X29. Before the flop the player's two cards are evaluated alone, and
    fewer than five cards evaluate to category -1: the analysis notes
    every raise and every all-in made before the flop as "You represented
    strength while weak (bluffing).", whatever the two cards are, and
    every other action made before the flop as "Normal play.". *)
Theorem preflop_raise_is_noted_as_a_bluff
  (scenario : Scenario) (oppType : Style) (rnd : nat -> nat)
  (events : list MatchEvent) (draws : nat -> nat -> nat -> nat)
  (lines : list AnalysisLine) (l : AnalysisLine) :
  let s := playMatch events (stateOf (initGame scenario oppType rnd)) in
  performAnalysis draws s = Some lines ->
  In l lines -> lineStage l = Preflop ->
  lineDisguise l
  = match lineAction l with
    | logRaise | logAllin => RepresentedStrength
    | _ => NormalPlay
    end.
Proof.
  intros s E Hin Hst.
  assert (T : Table s)
    by (apply Table_playMatch, startHand_Table).
  assert (L : Logged s)
    by (apply Logged_playMatch; [apply startHand_Table | apply initGame_Logged]).
  pose proof (analyse_lines draws (deck s) (actionLog s) 0%nat lines E) as F.
  destruct (Forall2_In_r _ _ _ l F Hin) as (e & He & Hl).
  unfold playerEntries in He. apply filter_In in He. destruct He as [He Hp].
  destruct e as [st who a b p bd cs|w]; [|destruct Hl].
  destruct who; [|discriminate].
  destruct Hl as (L1 & L2 & L3 & L4 & hr & Hhr & L5).
  destruct (L _ _ _ _ _ _ _ He) as (A1 & A2 & A3 & A4).
  cbn [seated] in A1.
  destruct (table_holes s T) as (c1 & c2 & c3 & c4 & Hc & _).
  rewrite L1 in Hst. rewrite (A4 Hst), A1, Hc in Hhr.
  unfold evaluateSlots in Hhr. cbn [app allDefined] in Hhr.
  inversion Hhr; subst hr. clear Hhr.
  rewrite (evaluateHand_short [c1; c2]) in L5 by (simpl; lia).
  rewrite L5, L2. destruct a; reflexivity.
Qed.

Lemma preflop_raise_is_noted_as_a_bluff_witness :
  let s := playMatch [InHand (UserActs raise 200); InHand (AiActs fold 0)]
             (stateOf (initGame equal weinman keepOrder)) in
  let l := mkAnalysisLine Preflop logRaise 200 0.5%float BluffOrSemiBluff
             RepresentedStrength in
  cards (player s) = [Some (mkCard RA Clubs); Some (mkCard RK Clubs)]
  /\ performAnalysis (fun _ _ => keepOrder) s = Some [l]
  /\ lineDisguise l = RepresentedStrength.
Proof.
  intros s l.
  assert (E : performAnalysis (fun _ _ => keepOrder) s = Some [l])
    by (vm_compute; reflexivity).
  split; [vm_compute; reflexivity|]. split; [exact E|].
  exact (preflop_raise_is_noted_as_a_bluff equal weinman keepOrder
           [InHand (UserActs raise 200); InHand (AiActs fold 0)]
           (fun _ _ => keepOrder) [l] l E (or_introl eq_refl) eq_refl).
Defined.
